(** * Module-set versioning: the [releasing] commands

    A shallow embedding of the three sub-commands of the release tool
    ([verify], [prerelease], [tag]) and of the helpers they are built from,
    followed by the properties of the versioning model that were checked
    against them.

    Text is modelled as the code has it: Go [string]s as [string], Go
    [[]byte] as [list ascii].  Go maps are [gmap]s; since Go leaves the
    iteration order of [range] over a map unspecified, every loop over a map
    takes the order of the visit as an argument, and the properties hold for
    every order that enumerates the map.  External processes ([git], [make])
    act on an explicit model of the repository. *)

From Stdlib Require Import Ascii String List Arith Lia Bool NArith.
From stdpp Require Import base option list gmap strings sets.

(** Go's [[]byte]. *)
Abbreviation bytes := (list ascii) (only parsing).

(** [[]byte(s)] and [string(b)]. *)
Abbreviation bytes_of := list_ascii_of_string.
Abbreviation string_of := string_of_list_ascii.

(** ** Package [regexp]: the fragment the tool uses *)

Module Regexp.

(** One position of a pattern: a literal byte, or a class [[lo-hi]]. *)
Inductive atom :=
| Lit (c : ascii)
| Range (lo hi : ascii).

(** An atom, or an atom under the greedy star. *)
Inductive item :=
| One (a : atom)
| Many (a : atom).

(** A compiled pattern: the concatenation of its items. *)
Definition regex := list item.

Definition code (c : ascii) : N := N_of_ascii c.

Definition between (lo hi c : ascii) : bool :=
  (code lo <=? code c)%N && (code c <=? code hi)%N.

Definition is_digit (c : ascii) : bool := between "0" "9" c.

Definition is_alnum (c : ascii) : bool :=
  is_digit c || between "a" "z" c || between "A" "Z" c.

(** The bytes with a meaning of their own in the pattern syntax. *)
Definition is_meta (c : ascii) : bool :=
  existsb (Ascii.eqb c) (bytes_of "\.+*?()|[]{}^$").

(** A byte that stands for itself in a pattern. *)
Definition is_literal (c : ascii) : bool :=
  (code c <? 128)%N && negb (is_meta c).

(** After a backslash: "escaped non-word characters are always
    themselves". *)
Definition is_escapable (c : ascii) : bool :=
  (code c <? 128)%N && negb (is_alnum c).

(** The parser keeps the items read so far, last first, so that a star
    applies to the item just read.  A star with nothing before it, or
    after another star, is a syntax error.  Anything outside the fragment
    (groups, alternation, anchors, other repetitions and escapes, bytes
    above 127) is answered [None] as well. *)
Fixpoint parse (acc : list item) (s : bytes) : option regex :=
  match s with
  | [] => Some (rev acc)
  | c :: s' =>
    if Ascii.eqb c "*" then
      match acc with
      | One a :: acc' => parse (Many a :: acc') s'
      | _ => None
      end
    else if Ascii.eqb c "\" then
      match s' with
      | e :: s'' =>
        if is_escapable e then parse (One (Lit e) :: acc) s'' else None
      | [] => None
      end
    else if Ascii.eqb c "[" then
      match s' with
      | lo :: dash :: hi :: close :: s'' =>
        if Ascii.eqb dash "-" && Ascii.eqb close "]"
           && is_alnum lo && is_alnum hi && (code lo <=? code hi)%N
        then parse (One (Range lo hi) :: acc) s''
        else None
      | _ => None
      end
    else if is_literal c then parse (One (Lit c) :: acc) s'
    else None
  end.

(** [regexp.Compile]. *)
Definition Compile (expr : string) : option regex := parse [] (bytes_of expr).

Definition atom_ok (a : atom) (c : ascii) : bool :=
  match a with
  | Lit x => Ascii.eqb x c
  | Range lo hi => between lo hi c
  end.

(** The length of the match of [re] at the head of [s], if there is one.
    A star takes as many bytes as it can and gives them back one at a time
    when the rest of the pattern fails (leftmost-first matching). *)
Fixpoint match_len (re : regex) (s : bytes) {struct re} : option nat :=
  match re with
  | [] => Some 0
  | One a :: re' =>
    match s with
    | c :: s' => if atom_ok a c then S <$> match_len re' s' else None
    | [] => None
    end
  | Many a :: re' =>
    (fix star (s : bytes) : option nat :=
       match s with
       | c :: s' =>
         if atom_ok a c then
           match star s' with
           | Some n => Some (S n)
           | None => match_len re' s
           end
         else match_len re' s
       | [] => match_len re' []
       end) s
  end.

(** The scan of [ReplaceAll]: [skip] bytes of the current match are still
    to be dropped; [fresh] tells whether an empty match here would follow
    a match that ended at this very position (it is then not replaced). *)
Fixpoint replace_from (re : regex) (repl : bytes)
         (skip : nat) (fresh : bool) (s : bytes) : bytes :=
  match s with
  | [] =>
    match skip, match_len re [] with
    | 0, Some _ => if fresh then repl else []
    | _, _ => []
    end
  | c :: s' =>
    match skip with
    | S k => replace_from re repl k false s'
    | 0 =>
      match match_len re s with
      | Some (S n) => repl ++ replace_from re repl n false s'
      | Some 0 =>
        (if fresh then repl else []) ++ c :: replace_from re repl 0 true s'
      | None => c :: replace_from re repl 0 true s'
      end
    end
  end.

(** [re.ReplaceAll(src, repl)] for a replacement without [$]: the
    leftmost matches, none overlapping another, are replaced by [repl]. *)
Definition ReplaceAll (re : regex) (src repl : bytes) : bytes :=
  replace_from re repl 0 true src.

End Regexp.

(** ** Package [tools]: the versioning model *)

Abbreviation ModulePath := string (only parsing).
Abbreviation ModuleFilePath := string (only parsing).
Abbreviation ModuleTagName := string (only parsing).

(** Modelled from the spec: the type [tools.ModuleSet] (a version and the
    ordered member paths of a named set) is declared outside the command
    sources. *)
Record ModuleSet := {
  Version : string;
  Modules : list ModulePath;
}.

(** Modelled from the spec: the type [tools.ModuleInfo] (containing set
    name and version of one declared module) is declared outside the
    command sources. *)
Record ModuleInfo := {
  ModuleSetName : string;
  InfoVersion : string;
}.

(** Modelled from the spec: the type [tools.ModuleVersioningInfo] with its
    three indices is declared outside the command sources. *)
Record ModuleVersioningInfo := {
  ModSetMap : gmap string ModuleSet;
  ModPathMap : gmap ModulePath ModuleFilePath;
  ModInfoMap : gmap ModulePath ModuleInfo;
}.

(** ** The working tree and the repository *)

(** The files of the working tree: path to content. *)
Abbreviation files := (gmap string (list ascii)) (only parsing).

(** The external commands the tool runs, in the order of the
    constructors: [git tag -l <tag>], [git diff --exit-code],
    [git checkout -b <branch> <from>], [make lint], [git add .], [make ci],
    [git commit -m <message>], [git log --pretty=format:"%h" -1],
    [git rev-parse --quiet --verify <hash>], [git merge-base <sha> HEAD],
    [git tag -a <tag> -s -m <message> <commit>], [git tag -d <tag>]. *)
Inductive command :=
| GitTagList (tag : string)
| GitDiffExitCode
| GitCheckoutNew (branch from : string)
| MakeLint
| GitAddAll
| MakeCi
| GitCommit (message : string)
| GitLogLast
| GitRevParseVerify (hash : string)
| GitMergeBaseHead (sha : string)
| GitTagCreate (tag message commit : string)
| GitTagDelete (tag : string).

(** What the commands see and change.  [revs] is what [git rev-parse
    --verify] resolves, [merge_bases] what [git merge-base <sha> HEAD]
    prints.  [faults] is a script of failures from outside the model (a
    signing key that is missing, a lock that is held): each command run
    takes the next entry, and fails without effect when it is [true].
    [history] lists the commands run, first first. *)
Record world := {
  tags : gset string;
  branches : gset string;
  index : files;
  worktree : files;
  revs : gmap string string;
  merge_bases : gmap string string;
  faults : list bool;
  history : list command;
}.

Definition set_tags (ts : gset string) (w : world) : world :=
  {| tags := ts; branches := branches w; index := index w;
     worktree := worktree w; revs := revs w; merge_bases := merge_bases w;
     faults := faults w; history := history w |}.

Definition set_branches (bs : gset string) (w : world) : world :=
  {| tags := tags w; branches := bs; index := index w;
     worktree := worktree w; revs := revs w; merge_bases := merge_bases w;
     faults := faults w; history := history w |}.

Definition set_index (fs : files) (w : world) : world :=
  {| tags := tags w; branches := branches w; index := fs;
     worktree := worktree w; revs := revs w; merge_bases := merge_bases w;
     faults := faults w; history := history w |}.

Definition set_worktree (fs : files) (w : world) : world :=
  {| tags := tags w; branches := branches w; index := index w;
     worktree := fs; revs := revs w; merge_bases := merge_bases w;
     faults := faults w; history := history w |}.

(** One command has been started: it is recorded and its entry of the
    fault script is used up. *)
Definition started (c : command) (w : world) : world :=
  {| tags := tags w; branches := branches w; index := index w;
     worktree := worktree w; revs := revs w; merge_bases := merge_bases w;
     faults := tail (faults w); history := history w ++ [c] |}.

(** What a finished command hands back: whether it failed ([err != nil])
    and what it printed, with the surrounding white space trimmed. *)
Record reply := {
  failed : bool;
  output : string;
}.

Definition success (out : string) : reply := {| failed := false; output := out |}.
Definition failure (out : string) : reply := {| failed := true; output := out |}.

(** The effect of a command that the outside lets run. *)
Definition effect (c : command) (w : world) : reply * world :=
  match c with
  | GitTagList tag =>
    (success (if decide (tag ∈ tags w) then tag else ""), w)
  | GitDiffExitCode =>
    (if decide (worktree w = index w) then success "" else failure "diff", w)
  | GitCheckoutNew branch from =>
    if decide (branch ∈ branches w) then (failure "exists", w)
    else if decide (from ∈ branches w)
         then (success "", set_branches ({[branch]} ∪ branches w) w)
         else (failure "unknown", w)
  | GitAddAll => (success "", set_index (worktree w) w)
  | MakeLint | MakeCi | GitCommit _ | GitLogLast => (success "", w)
  | GitRevParseVerify hash =>
    match revs w !! hash with
    | Some sha => (success sha, w)
    | None => (failure "", w)
    end
  | GitMergeBaseHead sha =>
    match merge_bases w !! sha with
    | Some base => (success base, w)
    | None => (failure "", w)
    end
  | GitTagCreate tag _ _ =>
    if decide (tag ∈ tags w) then (failure "exists", w)
    else (success "", set_tags ({[tag]} ∪ tags w) w)
  | GitTagDelete tag =>
    if decide (tag ∈ tags w) then (success "", set_tags (tags w ∖ {[tag]}) w)
    else (failure "not found", w)
  end.

(** Code that runs commands: a state monad over the [world]. *)
Definition io (A : Type) : Type := world → A * world.

Definition io_ret {A : Type} (a : A) : io A := λ w, (a, w).

Definition io_bind {A B : Type} (c : io A) (k : A → io B) : io B :=
  λ w, let '(a, w') := c w in k a w'.

#[global] Instance io_mret : MRet io := @io_ret.
#[global] Instance io_mbind : MBind io := λ A B k c, io_bind c k.

(** [exec.Command(...).CombinedOutput()]. *)
Definition exec (c : command) : io reply := λ w,
  match faults w with
  | true :: _ => (failure "fault", started c w)
  | _ => effect c (started c w)
  end.

(** ** Errors and exits *)

Inductive error :=
| ErrTagList (tag : string)
| ErrTagExists (tag : string)
| ErrTreeNotClean (out : string)
| ErrCreateBranch (branch out : string)
| ErrMakeLint (out : string)
| ErrGitAdd (out : string)
| ErrMakeCi (out : string)
| ErrGitCommit (out : string)
| ErrCompile (expr : string)
| ErrUpdateFile (file : string) (e : error)
| ErrRevParse (hash : string)
| ErrMergeBase (sha : string)
| ErrNotOnBranch (hash sha : string)
| ErrFullCommitHash (hash : string) (e : error)
| ErrDeleteTag (tag out : string)
| ErrDeleteModuleTags (e : error)
| ErrTagFailed (tag out : string)
| ErrTagFailedRollback (tag out : string) (delTagsErr : error)
| ErrNotInAnySet (modPath modFilePath : string)
| ErrNotInRepo (modPath modSetName : string)
| ErrInvalidVersion (modSetName version : string)
| ErrSameMajor (major prevModSetName prevVersion modSetName version : string)
| ErrModfile (msg : string).

(** How a call ends: with its result, with an [error], or in a [panic]. *)
Inductive outcome (A : Type) :=
| Done (a : A)
| Failed (e : error)
| Panicked.
Arguments Done {A} a.
Arguments Failed {A} e.
Arguments Panicked {A}.

(** How a command of the tool ends: normally, or through [log.Fatalf] with
    the name of the step that failed (exit status 1), or in a [panic]. *)
Inductive exit :=
| Exit0
| Fatal (step : string) (e : error)
| FatalLoad
| Panic.


(** [if err = step(); err != nil { log.Fatalf(...) }], then the rest. *)
Definition check (step : string) (c : io (option error)) (k : io exit) : io exit :=
  e ← c;
  match e with
  | Some err => mret (Fatal step err)
  | None => k
  end.

(** ** prerelease.go *)

Record prerelease := {
  versioning : ModuleVersioningInfo;
  modSetToUpdate : string;
  repoRoot : string;
  newVersion : string;
  modPaths : list ModulePath;
  modTagNames : list ModuleTagName;
}.

(** [strings.Replace(s, old, new, -1)] for a one-byte [old]. *)
Fixpoint strings_Replace (s : string) (old : ascii) (new : string) : string :=
  match s with
  | EmptyString => EmptyString
  | String c s' =>
    if Ascii.eqb c old then new +:+ strings_Replace s' old new
    else String c (strings_Replace s' old new)
  end.

(** [filepath.Separator] on the systems the tool runs on. *)
Definition filepath_Separator : ascii := "/".

Definition filePathToRegex (fpath : string) : string :=
  let replacedSlashes := strings_Replace fpath filepath_Separator "\/" in
  let replacedPeriods := strings_Replace replacedSlashes "." "\." in
  replacedPeriods.

(** The loop of [updateGoModVersions] over [p.modPaths]. *)
Fixpoint replaceVersions (newVersion : string) (modPaths : list ModulePath)
         (newGoModFile : bytes) : error + bytes :=
  match modPaths with
  | [] => inr newGoModFile
  | modPath :: rest =>
    let oldVersionRegex := filePathToRegex modPath +:+ " v[0-9]*\.[0-9]*\.[0-9]" in
    match Regexp.Compile oldVersionRegex with
    | None => inl (ErrCompile oldVersionRegex)
    | Some r =>
      let newModVersionString := modPath +:+ " " +:+ newVersion in
      replaceVersions newVersion rest
        (Regexp.ReplaceAll r newGoModFile (bytes_of newModVersionString))
    end
  end.

(** [updateGoModVersions]: read the manifest, replace the versions of all
    the modules of [p.modPaths], write the manifest back.  A manifest that
    cannot be read is a panic.  The source drops the result of
    [ioutil.WriteFile]; the store has no failing writes. *)
Definition updateGoModVersions (p : prerelease) (modFilePath : ModuleFilePath)
           (fs : files) : outcome files :=
  match fs !! modFilePath with
  | None => Panicked
  | Some newGoModFile =>
    match replaceVersions (newVersion p) (modPaths p) newGoModFile with
    | inl e => Failed e
    | inr newGoModFile' => Done (<[modFilePath := newGoModFile']> fs)
    end
  end.

(** [updateAllGoModFiles]: every manifest of [ModPathMap], in the order
    [visit] of the [range].  The manifests written before a failure stay
    written: the result is the files as they are left, and how the call
    ended. *)
Fixpoint updateAllGoModFiles (p : prerelease)
         (visit : list (ModulePath * ModuleFilePath)) (fs : files)
  : files * outcome unit :=
  match visit with
  | [] => (fs, Done ())
  | (_, modFilePath) :: rest =>
    match updateGoModVersions p modFilePath fs with
    | Done fs' => updateAllGoModFiles p rest fs'
    | Failed e => (fs, Failed (ErrUpdateFile modFilePath e))
    | Panicked => (fs, Panicked)
    end
  end.

Section Commands.

(** [tools.CombineModuleTagNamesAndVersion], declared outside the command
    sources: the full tag of every tag name at a version. *)
Variable CombineModuleTagNamesAndVersion :
  list ModuleTagName → string → list string.

(** The loop of [verifyGitTagsDoNotAlreadyExist]. *)
Fixpoint tagsDoNotExist (modFullTags : list string) : io (option error) :=
  match modFullTags with
  | [] => mret None
  | newFullTag :: rest =>
    r ← exec (GitTagList newFullTag);
    if failed r then mret (Some (ErrTagList newFullTag))
    else
      let outputTag := output r in
      if decide (outputTag = newFullTag)
      then mret (Some (ErrTagExists newFullTag))
      else tagsDoNotExist rest
  end.

Definition verifyGitTagsDoNotAlreadyExist (p : prerelease) : io (option error) :=
  let modFullTags := CombineModuleTagNamesAndVersion (modTagNames p) (newVersion p) in
  tagsDoNotExist modFullTags.

Definition verifyWorkingTreeClean (p : prerelease) : io (option error) :=
  r ← exec GitDiffExitCode;
  if failed r then mret (Some (ErrTreeNotClean (output r)))
  else mret None.

(** [strings.Join([]string{"pre_release", set, version}, "_")]. *)
Definition branchNameOf (p : prerelease) : string :=
  "pre_release" +:+ "_" +:+ modSetToUpdate p +:+ "_" +:+ newVersion p.

Definition createPrereleaseBranch (p : prerelease) (fromExistingBranch : string)
  : io (option error) :=
  let branchName := branchNameOf p in
  r ← exec (GitCheckoutNew branchName fromExistingBranch);
  if failed r then mret (Some (ErrCreateBranch branchName (output r)))
  else mret None.

Definition updateVersionGo (p : prerelease) : io (option error) := mret None.

Definition runMakeLint (p : prerelease) : io (option error) :=
  r ← exec MakeLint;
  if failed r then mret (Some (ErrMakeLint (output r)))
  else mret None.

Definition commitChanges (p : prerelease) (skipMake : bool) : io (option error) :=
  let commitMessage := "Prepare for releasing " +:+ newVersion p in
  r ← exec GitAddAll;
  if failed r then mret (Some (ErrGitAdd (output r)))
  else
    ci ← (if skipMake then mret (success "") else exec MakeCi);
    if failed ci then mret (Some (ErrMakeCi (output ci)))
    else
      r ← exec (GitCommit commitMessage);
      if failed r then mret (Some (ErrGitCommit (output r)))
      else
        _ ← exec GitLogLast;
        mret None.

(** [prereleaseCmd.Run], once [newPrerelease] has handed back [p];
    [loaded = None] stands for a loader that ended the process.
    [visit] is the order in which [updateAllGoModFiles] ranges over
    [ModPathMap]. *)
Definition prereleaseCmd_Run (loaded : option prerelease)
           (visit : list (ModulePath * ModuleFilePath))
           (fromExistingBranch : string) (skipMake : bool) : io exit :=
  match loaded with
  | None => mret FatalLoad
  | Some p =>
    check "verifyGitTagsDoNotAlreadyExist" (verifyGitTagsDoNotAlreadyExist p) (
    check "verifyWorkingTreeClean" (verifyWorkingTreeClean p) (
    check "createPrereleaseBranch" (createPrereleaseBranch p fromExistingBranch) (
    check "updateVersionGo" (updateVersionGo p) (
    λ w,
      let '(fs, r) := updateAllGoModFiles p visit (worktree w) in
      match r with
      | Panicked => (Panic, set_worktree fs w)
      | Failed e => (Fatal "updateAllGoModFiles" e, set_worktree fs w)
      | Done _ =>
        check "runMakeLint"
              (if skipMake then mret None else runMakeLint p) (
        check "commitChanges" (commitChanges p skipMake) (
        mret Exit0)) (set_worktree fs w)
      end))))
  end.

(** ** tag.go *)

Record tagger := {
  base : prerelease;
  commitHash : string;
}.

Definition getFullCommitHash (hash : string) : io (error + string) :=
  r ← exec (GitRevParseVerify hash);
  if failed r then mret (inl (ErrRevParse hash))
  else
    let SHA := output r in
    r ← exec (GitMergeBaseHead SHA);
    if failed r then mret (inl (ErrMergeBase SHA))
    else if decide (output r ≠ SHA) then mret (inl (ErrNotOnBranch hash SHA))
    else mret (inr SHA).

(** [newTagger], given what [newPrerelease] handed back. *)
Definition newTagger (prereleaseStruct : prerelease) (hash : string)
  : io (error + tagger) :=
  h ← getFullCommitHash hash;
  match h with
  | inl err => mret (inl (ErrFullCommitHash hash err))
  | inr fullCommitHash =>
    mret (inr {| base := prereleaseStruct; commitHash := fullCommitHash |})
  end.

Fixpoint deleteTags (modFullTags : list string) : io (option error) :=
  match modFullTags with
  | [] => mret None
  | modFullTag :: rest =>
    r ← exec (GitTagDelete modFullTag);
    if failed r then mret (Some (ErrDeleteTag modFullTag (output r)))
    else deleteTags rest
  end.

Definition deleteModuleSetTags (t : tagger) : io (option error) :=
  let modFullTagsToDelete :=
    CombineModuleTagNamesAndVersion (modTagNames (base t)) (newVersion (base t)) in
  e ← deleteTags modFullTagsToDelete;
  match e with
  | Some err => mret (Some (ErrDeleteModuleTags err))
  | None => mret None
  end.

(** The loop of [tagAllModules]; [addedFullTags] are the tags created so
    far by this call. *)
Fixpoint tagEach (commit : string) (modFullTags addedFullTags : list string)
  : io (option error) :=
  match modFullTags with
  | [] => mret None
  | newFullTag :: rest =>
    r ← exec (GitTagCreate newFullTag ("Version " +:+ newFullTag) commit);
    if failed r then
      d ← deleteTags addedFullTags;
      match d with
      | Some delTagsErr =>
        mret (Some (ErrTagFailedRollback newFullTag (output r) delTagsErr))
      | None => mret (Some (ErrTagFailed newFullTag (output r)))
      end
    else tagEach commit rest (addedFullTags ++ [newFullTag])
  end.

Definition tagAllModules (t : tagger) : io (option error) :=
  let modFullTags :=
    CombineModuleTagNamesAndVersion (modTagNames (base t)) (newVersion (base t)) in
  tagEach (commitHash t) modFullTags [].

(** [tagCmd.Run], once [newPrerelease] has handed back [p]. *)
Definition tagCmd_Run (loaded : option prerelease)
           (commitHash : string) (deleteModuleSetTagsFlag : bool) : io exit :=
  match loaded with
  | None => mret FatalLoad
  | Some p =>
    t ← newTagger p commitHash;
    match t with
    | inl err => mret (Fatal "newTagger" err)
    | inr t =>
      if deleteModuleSetTagsFlag
      then check "deleteModuleSetTags" (deleteModuleSetTags t) (mret Exit0)
      else check "tagAllModules" (tagAllModules t) (mret Exit0)
    end
  end.

End Commands.

(** ** verify.go *)

(** One entry of the [require] section of a manifest ([dep.Mod]). *)
Record Require := {
  Path : string;
  ReqVersion : string;
}.

(** What [verify] prints. *)
Inductive message :=
| PassAllModulesInSet
| PassVersions
| WarnUnstableDependency (modPath version depPath depVersion : string)
| FinishedDependencies
| PassVerified.

(** The zero values a Go map lookup yields for a missing key. *)
Definition zeroModuleSet : ModuleSet := {| Version := ""; Modules := [] |}.
Definition zeroModuleInfo : ModuleInfo := {| ModuleSetName := ""; InfoVersion := "" |}.

(** [visit] enumerates the map [m]: a possible order of [range m]. *)
Definition ranges {V : Type} (visit : list (string * V)) (m : gmap string V) : Prop :=
  visit ≡ₚ map_to_list m.

Section Verify.

(** [tools.IsStableVersion], declared outside the command sources. *)
Variable IsStableVersion : string → bool.

(** [semver.IsValid] and [semver.Major] of golang.org/x/mod. *)
Variable semver_IsValid : string → bool.
Variable semver_Major : string → string.

(** [modfile.Parse] of golang.org/x/mod, as far as the tool looks at its
    result: an error, or the [Require] entries of the manifest. *)
Variable modfile_Parse : bytes → string + list Require.

(** The first loop of [verifyAllModulesInSet]. *)
Fixpoint allOnDiskInSet (v : ModuleVersioningInfo)
         (visit : list (ModulePath * ModuleFilePath)) : option error :=
  match visit with
  | [] => None
  | (modPath, modFilePath) :: rest =>
    match ModInfoMap v !! modPath with
    | None => Some (ErrNotInAnySet modPath modFilePath)
    | Some _ => allOnDiskInSet v rest
    end
  end.

(** The second loop of [verifyAllModulesInSet]. *)
Fixpoint allInSetOnDisk (v : ModuleVersioningInfo)
         (visit : list (ModulePath * ModuleInfo)) : option error :=
  match visit with
  | [] => None
  | (modPath, modInfo) :: rest =>
    match ModPathMap v !! modPath with
    | None => Some (ErrNotInRepo modPath (ModuleSetName modInfo))
    | Some _ => allInSetOnDisk v rest
    end
  end.

(** [verifyAllModulesInSet]; [visitPaths] and [visitInfos] are the orders
    of its two [range] loops.  The result is what is printed and the
    [error] returned. *)
Definition verifyAllModulesInSet (v : ModuleVersioningInfo)
           (visitPaths : list (ModulePath * ModuleFilePath))
           (visitInfos : list (ModulePath * ModuleInfo))
  : list message * option error :=
  match allOnDiskInSet v visitPaths with
  | Some err => ([], Some err)
  | None =>
    match allInSetOnDisk v visitInfos with
    | Some err => ([], Some err)
    | None => ([PassAllModulesInSet], None)
    end
  end.

(** The loop of [verifyVersions]; [setMajorVersions] maps the major
    versions met so far to the set that has them. *)
Fixpoint versionsLoop (v : ModuleVersioningInfo)
         (visit : list (string * ModuleSet))
         (setMajorVersions : gmap string string) : option error :=
  match visit with
  | [] => None
  | (modSetName, modSet) :: rest =>
    if negb (semver_IsValid (Version modSet))
    then Some (ErrInvalidVersion modSetName (Version modSet))
    else if IsStableVersion (Version modSet) then
      let modSetVersionMajor := semver_Major (Version modSet) in
      match setMajorVersions !! modSetVersionMajor with
      | Some prevModSetName =>
        let prevModSet := default zeroModuleSet (ModSetMap v !! prevModSetName) in
        Some (ErrSameMajor modSetVersionMajor
                           prevModSetName (Version prevModSet)
                           modSetName (Version modSet))
      | None =>
        versionsLoop v rest (<[modSetVersionMajor := modSetName]> setMajorVersions)
      end
    else versionsLoop v rest setMajorVersions
  end.

Definition verifyVersions (v : ModuleVersioningInfo)
           (visitSets : list (string * ModuleSet))
  : list message * option error :=
  match versionsLoop v visitSets ∅ with
  | Some err => ([], Some err)
  | None => ([PassVersions], None)
  end.

(** The inner loop of [verifyDependencies]: the warnings for the
    requirements of one stable module. *)
Fixpoint warnUnstable (modInfoMap : gmap ModulePath ModuleInfo)
         (modPath : ModulePath) (requireDeps : list Require) : list message :=
  match requireDeps with
  | [] => []
  | dep :: rest =>
    match modInfoMap !! Path dep with
    | Some depModInfo =>
      if negb (IsStableVersion (InfoVersion depModInfo)) then
        WarnUnstableDependency
          modPath (InfoVersion (default zeroModuleInfo (modInfoMap !! modPath)))
          (Path dep) (InfoVersion depModInfo)
        :: warnUnstable modInfoMap modPath rest
      else warnUnstable modInfoMap modPath rest
    | None => warnUnstable modInfoMap modPath rest
    end
  end.

(** The outer loop of [verifyDependencies].  The error of
    [ioutil.ReadFile] is overwritten before it is looked at: a manifest
    that cannot be read is parsed as no data. *)
Fixpoint dependenciesLoop (v : ModuleVersioningInfo) (fs : files)
         (visit : list (ModulePath * ModuleInfo)) : list message * option error :=
  match visit with
  | [] => ([], None)
  | (modPath, modInfo) :: rest =>
    if IsStableVersion (InfoVersion modInfo) then
      let modFilePath := default "" (ModPathMap v !! modPath) in
      let modData := default [] (fs !! modFilePath) in
      match modfile_Parse modData with
      | inl err => ([], Some (ErrModfile err))
      | inr requireDeps =>
        let warnings := warnUnstable (ModInfoMap v) modPath requireDeps in
        let '(more, e) := dependenciesLoop v fs rest in
        (warnings ++ more, e)
      end
    else dependenciesLoop v fs rest
  end.

Definition verifyDependencies (v : ModuleVersioningInfo) (fs : files)
           (visitInfos : list (ModulePath * ModuleInfo))
  : list message * option error :=
  match dependenciesLoop v fs visitInfos with
  | (warnings, Some err) => (warnings, Some err)
  | (warnings, None) => (warnings ++ [FinishedDependencies], None)
  end.

(** The orders of the four [range] loops of one run of [verify]. *)
Record visits := {
  visitPaths : list (ModulePath * ModuleFilePath);
  visitInfos : list (ModulePath * ModuleInfo);
  visitSets : list (string * ModuleSet);
  visitDeps : list (ModulePath * ModuleInfo);
}.

(** [verifyCmd.Run], given what [newVerification] handed back ([None]:
    the repository root or the versioning file could not be loaded). *)
Definition verifyCmd_Run (loaded : option ModuleVersioningInfo)
           (fs : files) (o : visits) : list message * exit :=
  match loaded with
  | None => ([], FatalLoad)
  | Some v =>
    match verifyAllModulesInSet v (visitPaths o) (visitInfos o) with
    | (out1, Some err) => (out1, Fatal "verifyAllModulesInSet" err)
    | (out1, None) =>
      match verifyVersions v (visitSets o) with
      | (out2, Some err) => (out1 ++ out2, Fatal "verifyVersions" err)
      | (out2, None) =>
        match verifyDependencies v fs (visitDeps o) with
        | (out3, Some err) => (out1 ++ out2 ++ out3, Fatal "verifyDependencies" err)
        | (out3, None) => (out1 ++ out2 ++ out3 ++ [PassVerified], Exit0)
        end
      end
    end
  end.

End Verify.

(** ** The functions from outside the command sources *)

(** Package [semver] of golang.org/x/mod. *)
Module Semver.

Record parsed := {
  major : bytes;
  minor : bytes;
  patch : bytes;
  prerelease : bytes;
  build : bytes;
}.

(** The longest head of [v] made of bytes that satisfy [f], and the rest. *)
Fixpoint span (f : ascii → bool) (v : bytes) : bytes * bytes :=
  match v with
  | c :: v' =>
    if f c then let '(t, rest) := span f v' in (c :: t, rest) else ([], v)
  | [] => ([], [])
  end.

(** [parseInt]: a run of digits without a leading zero. *)
Definition parseInt (v : bytes) : option (bytes * bytes) :=
  match span Regexp.is_digit v with
  | ([], _) => None
  | (t, rest) =>
    match t with
    | c :: _ :: _ => if Ascii.eqb c "0" then None else Some (t, rest)
    | _ => Some (t, rest)
    end
  end.

Definition isIdentChar (c : ascii) : bool :=
  Regexp.is_alnum c || Ascii.eqb c "-".

(** [isBadNum]: all digits, more than one, the first a zero. *)
Definition isBadNum (v : bytes) : bool :=
  match v with
  | c :: _ :: _ => forallb Regexp.is_digit v && Ascii.eqb c "0"
  | _ => false
  end.

(** The identifiers of a suffix, read up to [stop]; [cur] is the
    identifier being read, last byte first. *)
Fixpoint identifiers (numeric : bool) (stop : ascii → bool)
         (cur : bytes) (v : bytes) : option (bytes * bytes) :=
  let finish rest :=
    if bool_decide (cur = []) || (numeric && isBadNum (rev cur)) then None
    else Some ([], rest) in
  match v with
  | [] => finish []
  | c :: v' =>
    if stop c then finish v
    else if Ascii.eqb c "." then
      match finish v' with
      | None => None
      | Some _ =>
        '(t, rest) ← identifiers numeric stop [] v'; Some (c :: t, rest)
      end
    else if isIdentChar c then
      '(t, rest) ← identifiers numeric stop (c :: cur) v'; Some (c :: t, rest)
    else None
  end.

(** [parsePrerelease], for [v] after its hyphen. *)
Definition parsePrerelease (v : bytes) : option (bytes * bytes) :=
  identifiers true (Ascii.eqb "+") [] v.

(** [parseBuild], for [v] after its plus sign. *)
Definition parseBuild (v : bytes) : option (bytes * bytes) :=
  identifiers false (λ _, false) [] v.

Definition parseSuffix (ma mi pa : bytes) (v : bytes) : option parsed :=
  '(pre, v) ← match v with
              | "-"%char :: v' =>
                '(t, rest) ← parsePrerelease v'; Some ("-"%char :: t, rest)
              | _ => Some ([], v)
              end;
  '(bld, v) ← match v with
              | "+"%char :: v' =>
                '(t, rest) ← parseBuild v'; Some ("+"%char :: t, rest)
              | _ => Some ([], v)
              end;
  match v with
  | [] => Some {| major := ma; minor := mi; patch := pa;
                  prerelease := pre; build := bld |}
  | _ => None
  end.

Definition zero : bytes := ["0"%char].

Definition parse (v : bytes) : option parsed :=
  match v with
  | "v"%char :: v =>
    '(ma, v) ← parseInt v;
    match v with
    | [] => Some {| major := ma; minor := zero; patch := zero;
                    prerelease := []; build := [] |}
    | "."%char :: v =>
      '(mi, v) ← parseInt v;
      match v with
      | [] => Some {| major := ma; minor := mi; patch := zero;
                      prerelease := []; build := [] |}
      | "."%char :: v =>
        '(pa, v) ← parseInt v;
        parseSuffix ma mi pa v
      | _ => None
      end
    | _ => None
    end
  | _ => None
  end.

Definition IsValid (v : string) : bool := bool_decide (is_Some (parse (bytes_of v))).

Definition Major (v : string) : string :=
  match parse (bytes_of v) with
  | Some pv => string_of ("v"%char :: major pv)
  | None => ""
  end.

End Semver.

(** Modelled from the spec: [tools.IsStableVersion] is declared outside the
    command sources.  A version is stable when its major version is
    greater than zero and it has no pre-release or build-metadata
    suffix. *)
Definition IsStableVersion (v : string) : bool :=
  match Semver.parse (bytes_of v) with
  | Some pv =>
    negb (bool_decide (Semver.major pv = Semver.zero))
    && bool_decide (Semver.prerelease pv = [])
    && bool_decide (Semver.build pv = [])
  | None => false
  end.

(** Modelled from the spec: [tools.CombineModuleTagNamesAndVersion] is
    declared outside the command sources.  A tag is keyed by the tag name
    of the module followed by the version. *)
Definition CombineModuleTagNamesAndVersion
           (modTagNames : list ModuleTagName) (version : string) : list string :=
  (λ modTagName, modTagName +:+ version) <$> modTagNames.

(** Package [modfile] of golang.org/x/mod, for manifests made of [module],
    [go] and [require] directives (one per line, or in a block between
    parentheses) and of comments; [replace], [exclude] and [retract] are not
    modelled.  Anything else is an error, as in [modfile.Parse]. *)
Module Modfile.

(** The pieces of [s] between the bytes that satisfy [sep]; [cur] is the
    piece being read, last byte first. *)
Fixpoint pieces (sep : ascii → bool) (cur : bytes) (s : bytes) : list bytes :=
  match s with
  | [] => [rev cur]
  | c :: s' =>
    if sep c then rev cur :: pieces sep [] s'
    else pieces sep (c :: cur) s'
  end.

Definition is_space (c : ascii) : bool :=
  Ascii.eqb c " " || Ascii.eqb c "009" || Ascii.eqb c "013".

(** A line without its comment. *)
Fixpoint uncomment (s : bytes) : bytes :=
  match s with
  | "/"%char :: "/"%char :: _ => []
  | c :: s' => c :: uncomment s'
  | [] => []
  end.

(** The words of a line. *)
Definition fields (line : bytes) : list string :=
  string_of <$> filter (λ w, w ≠ []) (pieces is_space [] (uncomment line)).

Definition requirement (path version : string) : string + Require :=
  if Semver.IsValid version
  then inr {| Path := path; ReqVersion := version |}
  else inl ("invalid module version: " +:+ version).

Definition add (r : Require) (rs : string + list Require) : string + list Require :=
  match rs with
  | inl e => inl e
  | inr l => inr (r :: l)
  end.

(** The lines in turn; [inRequire] tells whether a [require] block is
    open. *)
Fixpoint directives (inRequire : bool) (lines : list (list string))
  : string + list Require :=
  match lines with
  | [] =>
    if inRequire then inl "syntax error (unterminated block started)"
    else inr []
  | [] :: rest => directives inRequire rest
  | (verb :: args) :: rest =>
    if inRequire then
      match args with
      | [] =>
        if String.eqb verb ")" then directives false rest
        else inl "usage: require module/path v1.2.3"
      | [version] =>
        match requirement verb version with
        | inl e => inl e
        | inr r => add r (directives true rest)
        end
      | _ => inl "usage: require module/path v1.2.3"
      end
    else if String.eqb verb "require" then
      match args with
      | [open] =>
        if String.eqb open "(" then directives true rest
        else inl "usage: require module/path v1.2.3"
      | [path; version] =>
        match requirement path version with
        | inl e => inl e
        | inr r => add r (directives false rest)
        end
      | _ => inl "usage: require module/path v1.2.3"
      end
    else if String.eqb verb "module" then
      match args with
      | [_] => directives false rest
      | _ => inl "usage: module module/path"
      end
    else if String.eqb verb "go" then
      match args with
      | [_] => directives false rest
      | _ => inl "go directive expects exactly one argument"
      end
    else inl ("unknown directive: " +:+ verb)
  end.

Definition Parse (data : bytes) : string + list Require :=
  directives false (fields <$> pieces (Ascii.eqb "010") [] data).

End Modfile.

(** * Properties *)

(** ** Ranging over a map *)

Lemma ranges_elem {V : Type} (visit : list (string * V)) (m : gmap string V) k x :
  ranges visit m → (k, x) ∈ visit ↔ m !! k = Some x.
Proof.
  unfold ranges. intros Hp. rewrite Hp. apply elem_of_map_to_list.
Qed.

Lemma ranges_NoDup_keys {V : Type} (visit : list (string * V)) (m : gmap string V) :
  ranges visit m → NoDup visit.*1.
Proof.
  unfold ranges. intros Hp. rewrite Hp. apply NoDup_fst_map_to_list.
Qed.

Lemma ranges_map_to_list {V : Type} (m : gmap string V) : ranges (map_to_list m) m.
Proof. unfold ranges. reflexivity. Qed.

(** ** Set completeness *)

Lemma allOnDiskInSet_None v visit :
  allOnDiskInSet v visit = None ↔
  ∀ modPath modFilePath, (modPath, modFilePath) ∈ visit →
                         is_Some (ModInfoMap v !! modPath).
Proof.
  induction visit as [|[m f] rest IH]; simpl.
  - split; [intros _ ? ? H; inversion H | done].
  - destruct (ModInfoMap v !! m) as [i|] eqn:E.
    + rewrite IH. split.
      * intros H m' f' Hin. apply elem_of_cons in Hin as [[= -> ->]|Hin]; eauto.
      * intros H m' f' Hin. apply (H m' f'). by right.
    + split; [done|]. intros H.
      destruct (H m f) as [i Hi]; [by left|]. congruence.
Qed.

Lemma allOnDiskInSet_Some v visit e :
  allOnDiskInSet v visit = Some e →
  ∃ modPath modFilePath,
    e = ErrNotInAnySet modPath modFilePath ∧
    (modPath, modFilePath) ∈ visit ∧ ModInfoMap v !! modPath = None.
Proof.
  induction visit as [|[m f] rest IH]; simpl; [done|].
  destruct (ModInfoMap v !! m) as [i|] eqn:E.
  - intros H. destruct (IH H) as (m' & f' & -> & Hin & Hnone).
    exists m', f'. split_and!; [done| by right |done].
  - intros [= <-]. exists m, f. split_and!; [done| by left |done].
Qed.

Lemma allInSetOnDisk_None v visit :
  allInSetOnDisk v visit = None ↔
  ∀ modPath modInfo, (modPath, modInfo) ∈ visit →
                     is_Some (ModPathMap v !! modPath).
Proof.
  induction visit as [|[m i] rest IH]; simpl.
  - split; [intros _ ? ? H; inversion H | done].
  - destruct (ModPathMap v !! m) as [f|] eqn:E.
    + rewrite IH. split.
      * intros H m' i' Hin. apply elem_of_cons in Hin as [[= -> ->]|Hin]; eauto.
      * intros H m' i' Hin. apply (H m' i'). by right.
    + split; [done|]. intros H.
      destruct (H m i) as [f Hf]; [by left|]. congruence.
Qed.

Lemma allInSetOnDisk_Some v visit e :
  allInSetOnDisk v visit = Some e →
  ∃ modPath modInfo,
    e = ErrNotInRepo modPath (ModuleSetName modInfo) ∧
    (modPath, modInfo) ∈ visit ∧ ModPathMap v !! modPath = None.
Proof.
  induction visit as [|[m i] rest IH]; simpl; [done|].
  destruct (ModPathMap v !! m) as [f|] eqn:E.
  - intros H. destruct (IH H) as (m' & i' & -> & Hin & Hnone).
    exists m', i'. split_and!; [done| by right |done].
  - intros [= <-]. exists m, i. split_and!; [done| by left |done].
Qed.

(** C6. Whatever the order of the two loops, [verifyAllModulesInSet]
    returns no error exactly when the modules declared in the sets
    ([ModInfoMap]) and the modules found on disk ([ModPathMap]) are the
    same; otherwise its error names one offending module: either a module
    found on disk (with its manifest) that is in no set, or a module of a
    set (with the name of that set) that is not on disk. *)
Theorem verifyAllModulesInSet_complete v visitPaths visitInfos :
  ranges visitPaths (ModPathMap v) →
  ranges visitInfos (ModInfoMap v) →
  ((verifyAllModulesInSet v visitPaths visitInfos).2 = None ↔
   dom (ModInfoMap v) = dom (ModPathMap v)) ∧
  (∀ e, (verifyAllModulesInSet v visitPaths visitInfos).2 = Some e →
     (∃ modPath modFilePath,
        e = ErrNotInAnySet modPath modFilePath ∧
        ModPathMap v !! modPath = Some modFilePath ∧
        ModInfoMap v !! modPath = None) ∨
     (∃ modPath modInfo,
        e = ErrNotInRepo modPath (ModuleSetName modInfo) ∧
        ModInfoMap v !! modPath = Some modInfo ∧
        ModPathMap v !! modPath = None)).
Proof.
  intros Hp Hi. unfold verifyAllModulesInSet. split.
  - destruct (allOnDiskInSet v visitPaths) as [e|] eqn:E1; simpl.
    + split; [done|]. intros Hdom.
      apply allOnDiskInSet_Some in E1 as (m & f & _ & Hin & Hnone).
      apply (ranges_elem _ _ _ _ Hp) in Hin.
      assert (m ∈ dom (ModPathMap v)) as Hm by (apply elem_of_dom; eauto).
      rewrite <- Hdom in Hm. apply elem_of_dom in Hm as [i Hm]. congruence.
    + destruct (allInSetOnDisk v visitInfos) as [e|] eqn:E2; simpl.
      * split; [done|]. intros Hdom.
        apply allInSetOnDisk_Some in E2 as (m & i & _ & Hin & Hnone).
        apply (ranges_elem _ _ _ _ Hi) in Hin.
        assert (m ∈ dom (ModInfoMap v)) as Hm by (apply elem_of_dom; eauto).
        rewrite Hdom in Hm. apply elem_of_dom in Hm as [f Hm]. congruence.
      * split; [|done]. intros _.
        apply set_eq. intros m. rewrite !elem_of_dom. split.
        -- intros [i Hm]. apply (ranges_elem _ _ _ _ Hi) in Hm.
           by apply (proj1 (allInSetOnDisk_None _ _) E2 m i).
        -- intros [f Hm]. apply (ranges_elem _ _ _ _ Hp) in Hm.
           by apply (proj1 (allOnDiskInSet_None _ _) E1 m f).
  - intros e.
    destruct (allOnDiskInSet v visitPaths) as [e1|] eqn:E1; simpl.
    + intros [= <-]. left.
      apply allOnDiskInSet_Some in E1 as (m & f & -> & Hin & Hnone).
      exists m, f. split_and!; [done| |done]. by apply (ranges_elem _ _ _ _ Hp).
    + destruct (allInSetOnDisk v visitInfos) as [e2|] eqn:E2; simpl; [|done].
      intros [= <-]. right.
      apply allInSetOnDisk_Some in E2 as (m & i & -> & Hin & Hnone).
      exists m, i. split_and!; [done| |done]. by apply (ranges_elem _ _ _ _ Hi).
Qed.

(** ** Version validity *)

Section VersionFacts.

Variable stable valid : string → bool.
Variable major : string → string.

Local Abbreviation loop := (versionsLoop stable valid major).

(** Two distinct sets of [sets], both at a stable version, with the same
    major version. *)
Definition conflict (sets : gmap string ModuleSet)
           (n1 : string) (s1 : ModuleSet) (n2 : string) (s2 : ModuleSet) : Prop :=
  n1 ≠ n2 ∧ sets !! n1 = Some s1 ∧ sets !! n2 = Some s2 ∧
  stable (Version s1) = true ∧ stable (Version s2) = true ∧
  major (Version s1) = major (Version s2).

Lemma versionsLoop_invalid v todo seen n s :
  (n, s) ∈ todo → valid (Version s) = false →
  is_Some (loop v todo seen).
Proof.
  revert seen. induction todo as [|[n' s'] rest IH]; intros seen Hin Hbad.
  - inversion Hin.
  - simpl. destruct (valid (Version s')) eqn:Hv; simpl; [|eauto].
    apply elem_of_cons in Hin as [[= -> ->]|Hin]; [congruence|].
    destruct (stable (Version s')); [|by apply IH].
    destruct (seen !! major (Version s')); [eauto|by apply IH].
Qed.

Lemma versionsLoop_Some v todo : ∀ done seen e,
  NoDup (done ++ todo).*1 →
  (∀ maj n, seen !! maj = Some n →
     ∃ s, (n, s) ∈ done ∧ stable (Version s) = true ∧ major (Version s) = maj) →
  (∀ n s, (n, s) ∈ done ++ todo → ModSetMap v !! n = Some s) →
  (∀ n s, (n, s) ∈ todo → valid (Version s) = true) →
  loop v todo seen = Some e →
  ∃ n1 s1 n2 s2,
    e = ErrSameMajor (major (Version s2)) n1 (Version s1) n2 (Version s2) ∧
    conflict (ModSetMap v) n1 s1 n2 s2.
Proof.
  induction todo as [|[n s] rest IH]; intros done seen e Hnd Hseen Hmap Hval; simpl.
  - done.
  - rewrite (Hval n s) by (by left). simpl.
    assert (done ++ (n, s) :: rest = (done ++ [(n, s)]) ++ rest) as Hassoc
        by (by rewrite <- app_assoc).
    destruct (stable (Version s)) eqn:Hst.
    + destruct (seen !! major (Version s)) as [prev|] eqn:Hprev.
      * intros [= <-].
        destruct (Hseen _ _ Hprev) as (sp & Hin & Hsp & Hmaj).
        assert (ModSetMap v !! prev = Some sp) as Hlp
            by (apply Hmap, elem_of_app; by left).
        rewrite Hlp. simpl. exists prev, sp, n, s. split; [done|].
        split_and!; try done.
        -- intros ->. rewrite fmap_app in Hnd.
           apply NoDup_app in Hnd as (_ & Hdis & _).
           apply (Hdis n).
           ++ apply (list_elem_of_fmap_2 fst _ (n, sp)) in Hin. done.
           ++ simpl. by left.
        -- apply Hmap, elem_of_app. right. by left.
      * intros Hloop.
        eapply (IH (done ++ [(n, s)])); [| | | |exact Hloop].
        -- by rewrite <- Hassoc.
        -- intros maj n' Hl. destruct (decide (major (Version s) = maj)) as [<-|Hne].
           ++ rewrite lookup_insert_eq in Hl. injection Hl as <-.
              exists s. split_and!; try done. apply elem_of_app. right. by left.
           ++ rewrite lookup_insert_ne in Hl by done.
              destruct (Hseen _ _ Hl) as (s' & ? & ? & ?).
              exists s'. split_and!; try done. apply elem_of_app. by left.
        -- intros n' s'. rewrite <- Hassoc. apply Hmap.
        -- intros n' s' Hin. apply (Hval n'). by right.
    + intros Hloop.
      eapply (IH (done ++ [(n, s)])); [| | | |exact Hloop].
      * by rewrite <- Hassoc.
      * intros maj n' Hl. destruct (Hseen _ _ Hl) as (s' & ? & ? & ?).
        exists s'. split_and!; try done. apply elem_of_app. by left.
      * intros n' s'. rewrite <- Hassoc. apply Hmap.
      * intros n' s' Hin. apply (Hval n'). by right.
Qed.

Lemma versionsLoop_None v todo : ∀ (done : list (string * ModuleSet)) seen,
  (∀ n s, (n, s) ∈ done → stable (Version s) = true →
          is_Some (seen !! major (Version s))) →
  loop v todo seen = None →
  ∀ before n2 s2 after n1 s1,
    todo = before ++ (n2, s2) :: after →
    (n1, s1) ∈ done ++ before →
    stable (Version s1) = true → stable (Version s2) = true →
    major (Version s1) ≠ major (Version s2).
Proof.
  induction todo as [|[n s] rest IH]; intros done seen Hseen Hloop
    before n2 s2 after n1 s1 Hsplit Hin H1 H2 Hmaj.
  - by destruct before.
  - simpl in Hloop.
    destruct (valid (Version s)); simpl in Hloop; [|done].
    destruct before as [|b before]; simpl in Hsplit.
    + injection Hsplit as -> -> <-. rewrite H2 in Hloop.
      rewrite app_nil_r in Hin.
      destruct (Hseen _ _ Hin H1) as [prev Hprev].
      rewrite <- Hmaj, Hprev in Hloop. done.
    + injection Hsplit as <- ->.
      assert ((n1, s1) ∈ (done ++ [(n, s)]) ++ before) as Hin'
          by (rewrite <- app_assoc; done).
      destruct (stable (Version s)) eqn:Hst.
      * destruct (seen !! major (Version s)) as [prev|] eqn:Hprev; [done|].
        refine (IH (done ++ [(n, s)]) _ _ Hloop before n2 s2 after n1 s1
                   eq_refl Hin' H1 H2 Hmaj).
        intros n' s' Hd Hs'.
        apply elem_of_app in Hd as [Hd|Hd].
        -- destruct (decide (major (Version s) = major (Version s'))) as [->|Hne].
           ++ rewrite lookup_insert_eq. eauto.
           ++ rewrite lookup_insert_ne by done. eauto.
        -- apply list_elem_of_singleton in Hd as [= -> ->].
           rewrite lookup_insert_eq. eauto.
      * refine (IH (done ++ [(n, s)]) _ _ Hloop before n2 s2 after n1 s1
                   eq_refl Hin' H1 H2 Hmaj).
        intros n' s' Hd Hs'.
        apply elem_of_app in Hd as [Hd|Hd]; [eauto|].
        apply list_elem_of_singleton in Hd as [= -> ->]. congruence.
Qed.

(** C7. Whatever the order of the loop: [verifyVersions] fails whenever
    the version of some set is not valid semver; and when the versions of
    all sets are valid, it fails exactly when two distinct sets at stable
    versions have the same major version, and its error then names two
    such sets, each with its version. *)
Theorem verifyVersions_conflicts v visit :
  ranges visit (ModSetMap v) →
  ((∃ n s, ModSetMap v !! n = Some s ∧ valid (Version s) = false) →
   is_Some (verifyVersions stable valid major v visit).2) ∧
  ((∀ n s, ModSetMap v !! n = Some s → valid (Version s) = true) →
   (is_Some (verifyVersions stable valid major v visit).2 ↔
    ∃ n1 s1 n2 s2, conflict (ModSetMap v) n1 s1 n2 s2) ∧
   (∀ e, (verifyVersions stable valid major v visit).2 = Some e →
      ∃ n1 s1 n2 s2,
        e = ErrSameMajor (major (Version s2)) n1 (Version s1) n2 (Version s2) ∧
        conflict (ModSetMap v) n1 s1 n2 s2)).
Proof.
  intros Hr. unfold verifyVersions. split.
  - intros (n & s & Hl & Hbad).
    apply (ranges_elem _ _ _ _ Hr) in Hl.
    destruct (versionsLoop_invalid v visit ∅ n s Hl Hbad) as [e ->]. simpl. eauto.
  - intros Hval.
    assert (∀ e, loop v visit ∅ = Some e →
              ∃ n1 s1 n2 s2,
                e = ErrSameMajor (major (Version s2)) n1 (Version s1) n2 (Version s2) ∧
                conflict (ModSetMap v) n1 s1 n2 s2) as Hsome.
    { intros e He. apply (versionsLoop_Some v visit [] ∅ e); try done.
      - simpl. by apply (ranges_NoDup_keys _ _ Hr).
      - intros n s Hin. by apply (ranges_elem _ _ _ _ Hr).
      - intros n s Hin. apply (Hval n). by apply (ranges_elem _ _ _ _ Hr). }
    split.
    + split.
      * destruct (loop v visit ∅) as [e|] eqn:E; simpl; [|by intros [? ?]].
        intros _. destruct (Hsome e eq_refl) as (n1 & s1 & n2 & s2 & _ & Hc).
        eauto 6.
      * intros (n1 & s1 & n2 & s2 & Hne & Hl1 & Hl2 & Hs1 & Hs2 & Hmaj).
        destruct (loop v visit ∅) as [e|] eqn:E; simpl; [eauto|]. exfalso.
        apply (ranges_elem _ _ _ _ Hr) in Hl1, Hl2.
        apply list_elem_of_split in Hl2 as (before & after & Hsplit).
        rewrite Hsplit in Hl1.
        apply elem_of_app in Hl1 as [Hb|Ha].
        -- exact (versionsLoop_None v visit [] ∅ ltac:(intros ? ? H; inversion H)
                    E before n2 s2 after n1 s1 Hsplit Hb Hs1 Hs2 Hmaj).
        -- apply elem_of_cons in Ha as [[= ? ?]|Ha]; [done|].
           apply list_elem_of_split in Ha as (mid & after' & ->).
           refine (versionsLoop_None v visit [] ∅ ltac:(intros ? ? H; inversion H)
                     E (before ++ (n2, s2) :: mid) n1 s1 after' n2 s2
                     _ _ Hs2 Hs1 (eq_sym Hmaj)).
           ++ rewrite Hsplit, <- app_assoc. done.
           ++ simpl. apply elem_of_app. right. by left.
    + intros e. destruct (loop v visit ∅) as [e'|] eqn:E; simpl; [|done].
      intros [= <-]. by apply Hsome.
Qed.

End VersionFacts.

(** ** Dependency stability *)

(** The data [verifyDependencies] parses for a module: the content of the
    manifest [ModPathMap] gives for it, or no data when there is no such
    file. *)
Definition manifestOf (v : ModuleVersioningInfo) (fs : gmap string (list ascii))
           (modPath : ModulePath) : bytes :=
  default [] (fs !! default "" (ModPathMap v !! modPath)).

Section DependencyFacts.

Variable stable : string → bool.
Variable parse : bytes → string + list Require.

Local Abbreviation loop := (dependenciesLoop stable parse).
Local Abbreviation warn := (warnUnstable stable).

Lemma warnUnstable_elem infos modPath deps w :
  w ∈ warn infos modPath deps ↔
  ∃ dep depInfo,
    dep ∈ deps ∧ infos !! Path dep = Some depInfo ∧
    stable (InfoVersion depInfo) = false ∧
    w = WarnUnstableDependency
          modPath (InfoVersion (default zeroModuleInfo (infos !! modPath)))
          (Path dep) (InfoVersion depInfo).
Proof.
  induction deps as [|d rest IH]; simpl.
  - split; [intros H; inversion H|]. intros (? & ? & H & _). inversion H.
  - destruct (infos !! Path d) as [di|] eqn:E; [destruct (stable (InfoVersion di)) eqn:S|];
      simpl; rewrite ?elem_of_cons, IH; split.
    + intros (dep & depInfo & ? & ?). exists dep, depInfo. split; [by right|done].
    + intros (dep & depInfo & Hin & Hl & Hs & ->).
      apply elem_of_cons in Hin as [->|Hin]; [congruence|]. eauto 8.
    + intros [->|(dep & depInfo & ? & ?)].
      * exists d, di. split_and!; try done. by left.
      * exists dep, depInfo. split; [by right|done].
    + intros (dep & depInfo & Hin & Hl & Hs & ->).
      apply elem_of_cons in Hin as [->|Hin]; [left; congruence|]. right. eauto 8.
    + intros (dep & depInfo & ? & ?). exists dep, depInfo. split; [by right|done].
    + intros (dep & depInfo & Hin & Hl & Hs & ->).
      apply elem_of_cons in Hin as [->|Hin]; [congruence|]. eauto 8.
Qed.

Lemma dependenciesLoop_fails v fs visit :
  is_Some (loop v fs visit).2 ↔
  ∃ modPath modInfo err,
    (modPath, modInfo) ∈ visit ∧ stable (InfoVersion modInfo) = true ∧
    parse (manifestOf v fs modPath) = inl err.
Proof.
  induction visit as [|[m i] rest IH]; simpl.
  - split; [by intros [? ?]|]. intros (? & ? & ? & H & _). inversion H.
  - destruct (stable (InfoVersion i)) eqn:S.
    + fold (manifestOf v fs m).
      destruct (parse (manifestOf v fs m)) as [err|deps] eqn:P; simpl.
      * split; [|eauto]. intros _. exists m, i, err. split_and!; try done. by left.
      * destruct (loop v fs rest) as [more e] eqn:L. simpl in *. rewrite IH.
        split.
        -- intros (m' & i' & err & ? & ?). exists m', i', err. split; [by right|done].
        -- intros (m' & i' & err & Hin & Hs & Hp).
           apply elem_of_cons in Hin as [[= -> ->]|Hin]; [congruence|]. eauto 8.
    + rewrite IH. split.
      * intros (m' & i' & err & ? & ?). exists m', i', err. split; [by right|done].
      * intros (m' & i' & err & Hin & Hs & Hp).
        apply elem_of_cons in Hin as [[= -> ->]|Hin]; [congruence|]. eauto 8.
Qed.

Lemma dependenciesLoop_sound v fs visit w :
  w ∈ (loop v fs visit).1 →
  ∃ modPath modInfo deps,
    (modPath, modInfo) ∈ visit ∧ stable (InfoVersion modInfo) = true ∧
    parse (manifestOf v fs modPath) = inr deps ∧
    w ∈ warn (ModInfoMap v) modPath deps.
Proof.
  induction visit as [|[m i] rest IH]; simpl.
  - intros H. inversion H.
  - destruct (stable (InfoVersion i)) eqn:S.
    + fold (manifestOf v fs m).
      destruct (parse (manifestOf v fs m)) as [err|deps] eqn:P; simpl.
      * intros H. inversion H.
      * destruct (loop v fs rest) as [more e] eqn:L. simpl in *.
        intros [Hw|Hw]%elem_of_app.
        -- exists m, i, deps. split_and!; try done. by left.
        -- destruct (IH Hw) as (m' & i' & deps' & ? & ?).
           exists m', i', deps'. split; [by right|done].
    + intros Hw. destruct (IH Hw) as (m' & i' & deps' & ? & ?).
      exists m', i', deps'. split; [by right|done].
Qed.

Lemma dependenciesLoop_complete v fs visit modPath modInfo deps w :
  (loop v fs visit).2 = None →
  (modPath, modInfo) ∈ visit → stable (InfoVersion modInfo) = true →
  parse (manifestOf v fs modPath) = inr deps →
  w ∈ warn (ModInfoMap v) modPath deps →
  w ∈ (loop v fs visit).1.
Proof.
  induction visit as [|[m i] rest IH]; simpl; intros Hok Hin Hs Hp Hw.
  - inversion Hin.
  - destruct (stable (InfoVersion i)) eqn:S.
    + fold (manifestOf v fs m) in *.
      destruct (parse (manifestOf v fs m)) as [err|deps'] eqn:P; simpl in *; [done|].
      destruct (loop v fs rest) as [more e] eqn:L. simpl in *.
      apply elem_of_app.
      apply elem_of_cons in Hin as [[= -> ->]|Hin].
      * left. congruence.
      * right. by apply IH.
    + apply elem_of_cons in Hin as [[= -> ->]|Hin]; [congruence|]. by apply IH.
Qed.

(** A module whose manifest cannot be read counts for nothing in the
    loop, provided the parser accepts no data as a manifest without
    requirements. *)
Lemma dependenciesLoop_unreadable v fs before modPath modInfo after :
  parse [] = inr [] →
  fs !! default "" (ModPathMap v !! modPath) = None →
  loop v fs (before ++ (modPath, modInfo) :: after) = loop v fs (before ++ after).
Proof.
  intros Hempty Hnone. induction before as [|[m i] rest IH]; simpl.
  - destruct (stable (InfoVersion modInfo)); [|done].
    rewrite Hnone. simpl. rewrite Hempty. simpl.
    by destruct (loop v fs after).
  - by rewrite IH.
Qed.

End DependencyFacts.

Section VerifyFacts.

Variable stable valid : string → bool.
Variable major : string → string.
Variable parse : bytes → string + list Require.

Lemma verifyDependencies_result v fs visit :
  (verifyDependencies stable parse v fs visit).2 = (dependenciesLoop stable parse v fs visit).2.
Proof.
  unfold verifyDependencies.
  by destruct (dependenciesLoop stable parse v fs visit) as [ws [e|]].
Qed.

Lemma verifyDependencies_output v fs visit w :
  w ∈ (verifyDependencies stable parse v fs visit).1 ↔
  w ∈ (dependenciesLoop stable parse v fs visit).1 ∨
  (w = FinishedDependencies ∧ (dependenciesLoop stable parse v fs visit).2 = None).
Proof.
  unfold verifyDependencies.
  destruct (dependenciesLoop stable parse v fs visit) as [ws [e|]]; simpl.
  - split; [by left|]. by intros [?|[_ ?]].
  - rewrite elem_of_app, list_elem_of_singleton.
    split; (intros [?|?]; [by left|right]); [done|tauto].
Qed.

(** C5, as the code has it. Whatever the order of the loop,
    [verifyDependencies] returns an error exactly when the manifest of a
    module at a stable version cannot be parsed.  When it returns none,
    it has printed a warning for every requirement of a stable module on
    a tracked module at an unstable version, naming both modules and both
    versions; and it never prints anything but such warnings and its
    closing line. *)
Theorem verifyDependencies_advisory v fs visit :
  ranges visit (ModInfoMap v) →
  (is_Some (verifyDependencies stable parse v fs visit).2 ↔
   ∃ modPath modInfo err,
     ModInfoMap v !! modPath = Some modInfo ∧
     stable (InfoVersion modInfo) = true ∧
     parse (manifestOf v fs modPath) = inl err) ∧
  ((verifyDependencies stable parse v fs visit).2 = None →
   ∀ modPath modInfo deps dep depInfo,
     ModInfoMap v !! modPath = Some modInfo →
     stable (InfoVersion modInfo) = true →
     parse (manifestOf v fs modPath) = inr deps →
     dep ∈ deps →
     ModInfoMap v !! Path dep = Some depInfo →
     stable (InfoVersion depInfo) = false →
     WarnUnstableDependency modPath (InfoVersion modInfo)
                            (Path dep) (InfoVersion depInfo)
     ∈ (verifyDependencies stable parse v fs visit).1) ∧
  (∀ w, w ∈ (verifyDependencies stable parse v fs visit).1 →
     w = FinishedDependencies ∨
     ∃ modPath modInfo deps dep depInfo,
       ModInfoMap v !! modPath = Some modInfo ∧
       stable (InfoVersion modInfo) = true ∧
       parse (manifestOf v fs modPath) = inr deps ∧
       dep ∈ deps ∧
       ModInfoMap v !! Path dep = Some depInfo ∧
       stable (InfoVersion depInfo) = false ∧
       w = WarnUnstableDependency modPath (InfoVersion modInfo)
                                  (Path dep) (InfoVersion depInfo)).
Proof.
  intros Hr. split_and!.
  - rewrite verifyDependencies_result, dependenciesLoop_fails.
    split; intros (m & i & err & Hin & ?); exists m, i, err; split; try done;
      by apply (ranges_elem _ _ _ _ Hr).
  - rewrite verifyDependencies_result.
    intros Hok m i deps dep di Hm Hs Hp Hdep Hdi Hun.
    apply verifyDependencies_output. left.
    apply (dependenciesLoop_complete stable parse v fs visit m i deps); try done.
    + by apply (ranges_elem _ _ _ _ Hr).
    + apply warnUnstable_elem. exists dep, di. split_and!; try done.
      by rewrite Hm.
  - intros w [Hw|[-> _]]%verifyDependencies_output; [right|by left].
    apply dependenciesLoop_sound in Hw as (m & i & deps & Hin & Hs & Hp & Hw).
    apply (ranges_elem _ _ _ _ Hr) in Hin.
    apply warnUnstable_elem in Hw as (dep & di & Hdep & Hdi & Hun & ->).
    exists m, i, deps, dep, di. split_and!; try done. by rewrite Hin.
Qed.

(** C10. A module whose manifest cannot be read counts for nothing in
    [verifyDependencies], given that the parser takes no data for a
    manifest without requirements: the check prints and returns what it
    does without that module, and on that module alone it prints no
    warning and returns no error. *)
Theorem verifyDependencies_unreadable v fs before modPath modInfo after :
  parse [] = inr [] →
  fs !! default "" (ModPathMap v !! modPath) = None →
  verifyDependencies stable parse v fs (before ++ (modPath, modInfo) :: after)
  = verifyDependencies stable parse v fs (before ++ after) ∧
  verifyDependencies stable parse v fs [(modPath, modInfo)]
  = ([FinishedDependencies], None).
Proof.
  intros Hempty Hnone. split.
  - unfold verifyDependencies. by rewrite dependenciesLoop_unreadable.
  - unfold verifyDependencies.
    simpl. destruct (stable (InfoVersion modInfo)); [|done].
    rewrite Hnone. simpl. by rewrite Hempty.
Qed.

(** The checks of one run of [verify], each on its own. *)
Definition check1 v (o : visits) :=
  verifyAllModulesInSet v (visitPaths o) (visitInfos o).
Definition check2 v (o : visits) :=
  verifyVersions stable valid major v (visitSets o).
Definition check3 v fs (o : visits) :=
  verifyDependencies stable parse v fs (visitDeps o).

(** C4, as the code has it. [verify] runs its checks in the order
    completeness, versions, dependencies and stops at the first that
    fails: it ends through [log.Fatalf] with the error of that check
    alone, after the output of the checks up to it, and it ends normally
    exactly when the three checks pass. *)
Theorem verifyCmd_Run_fail_fast v fs o :
  verifyCmd_Run stable valid major parse (Some v) fs o =
  match (check1 v o).2, (check2 v o).2, (check3 v fs o).2 with
  | Some e, _, _ =>
    ((check1 v o).1, Fatal "verifyAllModulesInSet" e)
  | None, Some e, _ =>
    ((check1 v o).1 ++ (check2 v o).1, Fatal "verifyVersions" e)
  | None, None, Some e =>
    ((check1 v o).1 ++ (check2 v o).1 ++ (check3 v fs o).1,
     Fatal "verifyDependencies" e)
  | None, None, None =>
    ((check1 v o).1 ++ (check2 v o).1 ++ (check3 v fs o).1 ++ [PassVerified],
     Exit0)
  end.
Proof.
  unfold verifyCmd_Run, check1, check2, check3.
  destruct (verifyAllModulesInSet _ _ _) as [o1 [e1|]]; simpl; [done|].
  destruct (verifyVersions _ _ _ _ _) as [o2 [e2|]]; simpl; [done|].
  by destruct (verifyDependencies _ _ _ _ _) as [o3 [e3|]].
Qed.

(** The claim that every failing check is reported by the run. *)
Definition reports_all_failures v fs o : Prop :=
  let run := verifyCmd_Run stable valid major parse (Some v) fs o in
  (∀ e, (check1 v o).2 = Some e → run.2 = Fatal "verifyAllModulesInSet" e) ∧
  (∀ e, (check2 v o).2 = Some e → run.2 = Fatal "verifyVersions" e) ∧
  (∀ e, (check3 v fs o).2 = Some e → run.2 = Fatal "verifyDependencies" e).

End VerifyFacts.

(** ** Commands on the repository *)

Ltac io_unfold :=
  cbv beta delta [check mbind io_mbind io_bind mret io_mret io_ret] in *.

Lemma exec_history c w : history (exec c w).2 = history w ++ [c].
Proof.
  unfold exec. destruct (faults w) as [|[] fl]; simpl; try done;
    destruct c; simpl; repeat case_decide; simpl; try done;
      repeat case_match; simpl; done.
Qed.

(** Only the creation of a branch changes the branches. *)
Lemma exec_branches c w :
  (∀ branch from, c ≠ GitCheckoutNew branch from) →
  branches (exec c w).2 = branches w.
Proof.
  intros Hc. destruct c; try (exfalso; eapply Hc; reflexivity);
    unfold exec; destruct (faults w) as [|[] fl]; simpl; try done;
      repeat case_decide; simpl; try done; repeat case_match; simpl; done.
Qed.

(** Only the creation and the deletion of a tag change the tags. *)
Lemma exec_tags c w :
  (∀ tag message commit, c ≠ GitTagCreate tag message commit) →
  (∀ tag, c ≠ GitTagDelete tag) →
  tags (exec c w).2 = tags w.
Proof.
  intros Hc Hd. destruct c;
    try (exfalso; eapply Hc; reflexivity); try (exfalso; eapply Hd; reflexivity);
    unfold exec; destruct (faults w) as [|[] fl]; simpl; try done;
      repeat case_decide; simpl; try done; repeat case_match; simpl; done.
Qed.

(** Listing a tag changes nothing; unless it fails it prints the tag
    exactly when the tag exists. *)
Lemma exec_GitTagList tag w :
  (exec (GitTagList tag) w).2 = started (GitTagList tag) w ∧
  (failed (exec (GitTagList tag) w).1 = false →
   output (exec (GitTagList tag) w).1 = if decide (tag ∈ tags w) then tag else "").
Proof.
  unfold exec. destruct (faults w) as [|[] fl]; simpl; done.
Qed.


Section PrereleaseFacts.

Variable combine : list ModuleTagName → string → list string.

Lemma tagsDoNotExist_spec modFullTags : ∀ w,
  tags (tagsDoNotExist modFullTags w).2 = tags w ∧
  branches (tagsDoNotExist modFullTags w).2 = branches w ∧
  worktree (tagsDoNotExist modFullTags w).2 = worktree w ∧
  index (tagsDoNotExist modFullTags w).2 = index w ∧
  ((tagsDoNotExist modFullTags w).1 = None →
   history (tagsDoNotExist modFullTags w).2
   = history w ++ (GitTagList <$> modFullTags) ∧
   ∀ tag, tag ∈ modFullTags → tag ∉ tags w) ∧
  (is_Some (tagsDoNotExist modFullTags w).1 →
   ∃ k, history (tagsDoNotExist modFullTags w).2
        = history w ++ (GitTagList <$> take k modFullTags)) ∧
  ((∃ tag, tag ∈ modFullTags ∧ tag ∈ tags w) →
   is_Some (tagsDoNotExist modFullTags w).1).
Proof.
  induction modFullTags as [|t rest IH]; intros w; simpl.
  - io_unfold. simpl. split_and!; try done.
    + intros _. split; [by rewrite app_nil_r|]. intros ? H. inversion H.
    + intros (? & H & _). inversion H.
  - io_unfold.
    destruct (exec_GitTagList t w) as [Hw Hout].
    destruct (exec (GitTagList t) w) as [r w1] eqn:E. simpl in Hw, Hout. subst w1.
    destruct (failed r) eqn:F; simpl.
    + split_and!; try done.
      intros _. exists 1. simpl. by rewrite ?take_0.
    + specialize (Hout eq_refl).
      destruct (decide (output r = t)) as [Heq|Heq]; simpl.
      * split_and!; try done.
        intros _. exists 1. simpl. by rewrite ?take_0.
      * destruct (IH (started (GitTagList t) w))
          as (Ht & Hb & Hwt & Hi & Hnone & Hsome & Hex).
        simpl in *.
        assert (t ∉ tags w) as Hfresh.
        { intros Hin. rewrite decide_True in Hout by done. done. }
        split_and!; try done.
        -- intros Hn. destruct (Hnone Hn) as [Hh Hall]. split.
           ++ rewrite Hh, <- app_assoc. done.
           ++ intros tag [->|Hin]%elem_of_cons; eauto.
        -- intros Hs. destruct (Hsome Hs) as [k Hk].
           exists (S k). rewrite Hk, <- app_assoc. done.
        -- intros (tag & [->|Hin]%elem_of_cons & Hex'); [done|].
           apply Hex. eauto.
Qed.

(** ** The order of the first steps of [prerelease] *)


(** Code that never ends through [log.Fatalf] at the step [s]. *)
Definition avoids (s : string) (c : io exit) : Prop :=
  ∀ w e, (c w).1 ≠ Fatal s e.





Lemma avoids_check s step c k :
  s ≠ step → avoids s k → avoids s (check step c k).
Proof.
  intros Hne Hk w e. io_unfold. destruct (c w) as [[err|] w1]; simpl.
  - congruence.
  - apply Hk.
Qed.



(** What [prereleaseCmd.Run] does once the tree was found clean. *)
Definition afterChecks (p : prerelease)
           (visit : list (ModulePath * ModuleFilePath))
           (fromExistingBranch : string) (skipMake : bool) : io exit :=
  check "createPrereleaseBranch" (createPrereleaseBranch p fromExistingBranch) (
  check "updateVersionGo" (updateVersionGo p) (
  λ w,
    let '(fs, r) := updateAllGoModFiles p visit (worktree w) in
    match r with
    | Panicked => (Panic, set_worktree fs w)
    | Failed e => (Fatal "updateAllGoModFiles" e, set_worktree fs w)
    | Done _ =>
      check "runMakeLint"
            (if skipMake then mret None else runMakeLint p) (
      check "commitChanges" (commitChanges p skipMake) (
      mret Exit0)) (set_worktree fs w)
    end)).

Lemma prereleaseCmd_Run_unfold p visit from skipMake :
  prereleaseCmd_Run combine (Some p) visit from skipMake =
  check "verifyGitTagsDoNotAlreadyExist" (verifyGitTagsDoNotAlreadyExist combine p) (
  check "verifyWorkingTreeClean" (verifyWorkingTreeClean p) (
  afterChecks p visit from skipMake)).
Proof. reflexivity. Qed.




End PrereleaseFacts.

(** ** Tagging *)

(** Deleting a tag: a failure changes no tag, a success removes the tag. *)
Lemma exec_GitTagDelete tag w :
  history (exec (GitTagDelete tag) w).2 = history w ++ [GitTagDelete tag] ∧
  branches (exec (GitTagDelete tag) w).2 = branches w ∧
  (failed (exec (GitTagDelete tag) w).1 = true →
   tags (exec (GitTagDelete tag) w).2 = tags w) ∧
  (failed (exec (GitTagDelete tag) w).1 = false →
   tags (exec (GitTagDelete tag) w).2 = tags w ∖ {[tag]}).
Proof.
  unfold exec. destruct (faults w) as [|[] fl]; simpl; try done;
    destruct (decide (tag ∈ tags w)); simpl; done.
Qed.

(** Creating a tag: a failure changes no tag, a success adds the tag, which
    did not exist. *)
Lemma exec_GitTagCreate tag message commit w :
  history (exec (GitTagCreate tag message commit) w).2
  = history w ++ [GitTagCreate tag message commit] ∧
  branches (exec (GitTagCreate tag message commit) w).2 = branches w ∧
  (failed (exec (GitTagCreate tag message commit) w).1 = true →
   tags (exec (GitTagCreate tag message commit) w).2 = tags w) ∧
  (failed (exec (GitTagCreate tag message commit) w).1 = false →
   tag ∉ tags w ∧
   tags (exec (GitTagCreate tag message commit) w).2 = {[tag]} ∪ tags w).
Proof.
  unfold exec. destruct (faults w) as [|[] fl]; simpl; try done;
    destruct (decide (tag ∈ tags w)); simpl; done.
Qed.

(** Removing the first [k] of the fresh tags [l] leaves the others. *)
Lemma rollback_remainder (T : gset string) (l : list string) (k : nat) :
  NoDup l → (∀ t, t ∈ l → t ∉ T) →
  (T ∪ list_to_set l) ∖ list_to_set (take k l) = T ∪ list_to_set (drop k l).
Proof.
  intros Hnd Hfresh.
  rewrite <- (take_drop k l) in Hnd, Hfresh.
  apply NoDup_app in Hnd as (_ & Hdis & _).
  apply set_eq. intros x.
  rewrite elem_of_difference, !elem_of_union, !elem_of_list_to_set.
  rewrite <- (take_drop k l) at 1. rewrite elem_of_app.
  split.
  - intros [[?|[?|?]] ?]; tauto.
  - intros [Hx|Hx].
    + split; [by left|]. intros Hin. apply (Hfresh x); [|done].
      apply elem_of_app. by left.
    + split; [right; by right|]. intros Hin. by apply (Hdis x).
Qed.

Section TagFacts.

Variable combine : list ModuleTagName → string → list string.

Lemma deleteTags_spec modFullTags : ∀ w,
  branches (deleteTags modFullTags w).2 = branches w ∧
  ((deleteTags modFullTags w).1 = None →
   tags (deleteTags modFullTags w).2 = tags w ∖ list_to_set modFullTags ∧
   history (deleteTags modFullTags w).2
   = history w ++ (GitTagDelete <$> modFullTags)) ∧
  (∀ e, (deleteTags modFullTags w).1 = Some e →
     ∃ k tag out,
       e = ErrDeleteTag tag out ∧ modFullTags !! k = Some tag ∧
       history (deleteTags modFullTags w).2
       = history w ++ (GitTagDelete <$> take (S k) modFullTags) ∧
       tags (deleteTags modFullTags w).2
       = tags w ∖ list_to_set (take k modFullTags)).
Proof.
  induction modFullTags as [|t rest IH]; intros w; simpl.
  - io_unfold. simpl. split_and!; try done.
    intros _. split; [set_solver|by rewrite app_nil_r].
  - io_unfold.
    destruct (exec_GitTagDelete t w) as (Hh & Hb & Hfail & Hok).
    destruct (exec (GitTagDelete t) w) as [r w1]. simpl in *.
    destruct (failed r) eqn:F; simpl.
    + split_and!; try done.
      intros e [= <-]. exists 0, t, (output r). split_and!; try done.
      rewrite Hfail by done. set_solver.
    + destruct (IH w1) as (Hb' & Hnone & Hsome).
      split_and!.
      * congruence.
      * intros Hn. destruct (Hnone Hn) as [Ht' Hh']. split.
        -- rewrite Ht', Hok by done. set_solver.
        -- rewrite Hh', Hh, <- app_assoc. done.
      * intros e He.
        destruct (Hsome e He) as (k & tag & out & -> & Hk & Hh' & Ht').
        exists (S k), tag, out. split_and!; try done.
        -- rewrite Hh', Hh, <- app_assoc. done.
        -- rewrite Ht', Hok by done. simpl. set_solver.
Qed.

(** The commands that create the tags [l] at [commit]. *)
Definition creates (commit : string) (l : list string) : list command :=
  (λ tag, GitTagCreate tag ("Version " +:+ tag) commit) <$> l.

Lemma tagEach_spec commit modFullTags : ∀ added w0 w,
  tags w = tags w0 ∪ list_to_set added →
  (∀ t, t ∈ added → t ∉ tags w0) →
  NoDup added →
  ((tagEach commit modFullTags added w).1 = None →
   tags (tagEach commit modFullTags added w).2
   = tags w0 ∪ list_to_set (added ++ modFullTags) ∧
   history (tagEach commit modFullTags added w).2
   = history w ++ creates commit modFullTags) ∧
  (∀ tag out, (tagEach commit modFullTags added w).1 = Some (ErrTagFailed tag out) →
     ∃ n, modFullTags !! n = Some tag ∧
          history (tagEach commit modFullTags added w).2
          = history w ++ creates commit (take (S n) modFullTags)
            ++ (GitTagDelete <$> (added ++ take n modFullTags)) ∧
          tags (tagEach commit modFullTags added w).2 = tags w0) ∧
  (∀ tag out e,
     (tagEach commit modFullTags added w).1 = Some (ErrTagFailedRollback tag out e) →
     ∃ n k kept out',
       e = ErrDeleteTag kept out' ∧
       modFullTags !! n = Some tag ∧
       (added ++ take n modFullTags) !! k = Some kept ∧
       history (tagEach commit modFullTags added w).2
       = history w ++ creates commit (take (S n) modFullTags)
         ++ (GitTagDelete <$> take (S k) (added ++ take n modFullTags)) ∧
       tags (tagEach commit modFullTags added w).2
       = tags w0 ∪ list_to_set (drop k (added ++ take n modFullTags))) ∧
  ((tagEach commit modFullTags added w).1 = None ∨
   (∃ tag out, (tagEach commit modFullTags added w).1 = Some (ErrTagFailed tag out)) ∨
   (∃ tag out e,
      (tagEach commit modFullTags added w).1 = Some (ErrTagFailedRollback tag out e))).
Proof.
  induction modFullTags as [|t rest IH]; intros added w0 w Htags Hfresh Hnd; simpl.
  - io_unfold. simpl. split_and!; try done; [|by left].
    intros _. by rewrite !app_nil_r.
  - io_unfold.
    destruct (exec_GitTagCreate t ("Version " +:+ t) commit w)
      as (Hh & Hb & Hfail & Hok).
    destruct (exec (GitTagCreate t ("Version " +:+ t) commit) w) as [r w1].
    simpl in *. destruct (failed r) eqn:F; simpl.
    + destruct (deleteTags_spec added w1) as (_ & Hnone & Hsome).
      destruct (deleteTags added w1) as [[e|] w2]; simpl in *.
      * destruct (Hsome e eq_refl) as (k & kept & out' & -> & Hk & Hh' & Ht').
        split_and!; try done; [|right; right; eauto].
        intros tag out e [= <- <- <-].
        exists 0, k, kept, out'. rewrite take_0, app_nil_r.
        split_and!; try done.
        -- rewrite Hh', Hh, <- app_assoc. done.
        -- rewrite Ht', Hfail, Htags by done. by apply rollback_remainder.
      * destruct (Hnone eq_refl) as [Ht' Hh'].
        split_and!; try done; [|right; left; eauto].
        intros tag out [= <- <-]. exists 0. rewrite take_0, app_nil_r.
        split_and!; try done.
        -- rewrite Hh', Hh, <- app_assoc. done.
        -- rewrite Ht', Hfail, Htags by done.
           rewrite <- (firstn_all added) at 2.
           rewrite rollback_remainder by done.
           rewrite drop_all. set_solver.
    + destruct (Hok eq_refl) as [Hnew Ht1].
      assert (t ∉ tags w0 ∧ t ∉ added) as [Hnew0 Hnewa].
      { rewrite Htags in Hnew. split; intros ?; apply Hnew; set_solver. }
      destruct (IH (added ++ [t]) w0 w1) as (Hnone & Hfailed & Hroll & Hcases).
      { rewrite Ht1, Htags, list_to_set_app_L. set_solver. }
      { intros x [?|Hx]%elem_of_app; [eauto|].
        apply list_elem_of_singleton in Hx as ->. done. }
      { apply NoDup_app. split_and!; [done| |apply NoDup_singleton].
        intros x ? Hx. apply list_elem_of_singleton in Hx as ->. done. }
      split_and!.
      * intros Hn. destruct (Hnone Hn) as [Ht' Hh']. split.
        -- rewrite Ht', <- app_assoc. done.
        -- rewrite Hh', Hh, <- app_assoc. done.
      * intros tag out He.
        destruct (Hfailed tag out He) as (n & Hn & Hh' & Ht').
        exists (S n). split_and!; try done.
        rewrite Hh', Hh, <- !app_assoc. done.
      * intros tag out e He.
        destruct (Hroll tag out e He) as (n & k & kept & out' & -> & Hn & Hk & Hh' & Ht').
        exists (S n), k, kept, out'. simpl.
        rewrite <- app_assoc in Hk, Hh', Ht'. simpl in Hk, Hh', Ht'.
        split_and!; try done.
        rewrite Hh', Hh, <- !app_assoc. done.
      * done.
Qed.

(** C1, as the code has it. When the creation of the tag of the [n]th
    module fails, [tagAllModules] deletes the tags it created, in the
    order of their creation, up to the first deletion that fails, and it
    returns an error in every case.  When no deletion fails, the tags of
    the repository are the ones from before the call; when the deletion
    of the [k]th tag fails, the tags created from the [k]th on remain.
    When no creation fails, all the tags are there. *)
Theorem tagAllModules_rollback (t : tagger) (w : world) :
  let modFullTags := combine (modTagNames (base t)) (newVersion (base t)) in
  let r := (tagAllModules combine t w).1 in
  let w' := (tagAllModules combine t w).2 in
  (r = None →
   tags w' = tags w ∪ list_to_set modFullTags ∧
   history w' = history w ++ creates (commitHash t) modFullTags) ∧
  (∀ tag out, r = Some (ErrTagFailed tag out) →
     ∃ n, modFullTags !! n = Some tag ∧
          history w'
          = history w ++ creates (commitHash t) (take (S n) modFullTags)
            ++ (GitTagDelete <$> take n modFullTags) ∧
          tags w' = tags w) ∧
  (∀ tag out e, r = Some (ErrTagFailedRollback tag out e) →
     ∃ n k kept out',
       e = ErrDeleteTag kept out' ∧
       modFullTags !! n = Some tag ∧
       take n modFullTags !! k = Some kept ∧
       history w'
       = history w ++ creates (commitHash t) (take (S n) modFullTags)
         ++ (GitTagDelete <$> take (S k) (take n modFullTags)) ∧
       tags w' = tags w ∪ list_to_set (drop k (take n modFullTags))) ∧
  (r = None ∨
   (∃ tag out, r = Some (ErrTagFailed tag out)) ∨
   (∃ tag out e, r = Some (ErrTagFailedRollback tag out e))) ∧
  (check "tagAllModules" (tagAllModules combine t) (mret Exit0) w).1
  = match r with
    | Some e => Fatal "tagAllModules" e
    | None => Exit0
    end.
Proof.
  intros modFullTags r w'. subst r w'. unfold tagAllModules. fold modFullTags.
  destruct (tagEach_spec (commitHash t) modFullTags [] w w)
    as (Hnone & Hfailed & Hroll & Hcases).
  { set_solver. }
  { intros ? H. inversion H. }
  { apply NoDup_nil_2. }
  split_and!; try done.
  io_unfold.
  by destruct (tagEach (commitHash t) modFullTags [] w) as [[e|] w1].
Qed.

(** The claim that a failed [tagAllModules] leaves none of the tags it
    created. *)
Definition all_or_nothing (t : tagger) (w : world) : Prop :=
  is_Some (tagAllModules combine t w).1 →
  ∀ tag, tag ∈ combine (modTagNames (base t)) (newVersion (base t)) →
         tag ∉ tags w → tag ∉ tags (tagAllModules combine t w).2.

(** A commit that [git rev-parse] does not resolve ends [tag] before any
    tag is touched, with or without [--delete-module-set-tags]. *)
Lemma tagCmd_Run_unresolved p hash deleting w :
  revs w !! hash = None →
  tagCmd_Run combine (Some p) hash deleting w
  = (Fatal "newTagger" (ErrFullCommitHash hash (ErrRevParse hash)),
     started (GitRevParseVerify hash) w).
Proof.
  intros Hnone. unfold tagCmd_Run, newTagger, getFullCommitHash. io_unfold.
  unfold exec. destruct (faults w) as [|[] fl]; simpl; rewrite ?Hnone; done.
Qed.

(** The deletions of [deleteModuleSetTags] depend on the tags alone: with
    all the tags of the set there and no failure from outside, they
    succeed and remove them, whatever commit the tagger holds. *)
Lemma deleteModuleSetTags_succeeds (t : tagger) (w : world) :
  let modFullTags := combine (modTagNames (base t)) (newVersion (base t)) in
  NoDup modFullTags →
  (∀ tag, tag ∈ modFullTags → tag ∈ tags w) →
  faults w = [] →
  (deleteModuleSetTags combine t w).1 = None ∧
  tags (deleteModuleSetTags combine t w).2 = tags w ∖ list_to_set modFullTags.
Proof.
  intros modFullTags. unfold deleteModuleSetTags. fold modFullTags.
  generalize modFullTags. clear modFullTags. intros l. io_unfold.
  revert w. induction l as [|tag rest IH]; intros w Hnd Hall Hf; simpl.
  - split; [done|set_solver].
  - io_unfold. unfold exec. rewrite Hf. simpl.
    rewrite decide_True by (apply Hall; by left). simpl.
    apply NoDup_cons in Hnd as [Hnotin Hnd].
    destruct (IH (set_tags (tags w ∖ {[tag]}) (started (GitTagDelete tag) w)))
      as [Hr Ht]; try done.
    + intros x Hx. simpl. apply elem_of_difference. split.
      * apply Hall. by right.
      * intros ->%elem_of_singleton. done.
    + simpl. by rewrite Hf.
    + split; [done|].
      destruct (deleteTags rest _) as [[e|] w2]; simpl in *; [done|].
      rewrite Ht. set_solver.
Qed.

End TagFacts.

(** ** The matcher *)

Arguments Regexp.match_len : simpl never.

Ltac app_norm := repeat first [rewrite <- app_assoc | progress simpl].

Import Regexp.

Lemma match_len_nil s : match_len [] s = Some 0.
Proof. by destruct s. Qed.

Lemma match_len_one a re c s :
  match_len (One a :: re) (c :: s)
  = if atom_ok a c then S <$> match_len re s else None.
Proof. reflexivity. Qed.

Lemma match_len_one_nil a re : match_len (One a :: re) [] = None.
Proof. reflexivity. Qed.

Lemma match_len_many a re c s :
  match_len (Many a :: re) (c :: s)
  = if atom_ok a c then
      match match_len (Many a :: re) s with
      | Some n => Some (S n)
      | None => match_len re (c :: s)
      end
    else match_len re (c :: s).
Proof. reflexivity. Qed.

Lemma match_len_many_nil a re : match_len (Many a :: re) [] = match_len re [].
Proof. reflexivity. Qed.

(** A match is no longer than the text. *)
Lemma match_len_bound re : ∀ s n, match_len re s = Some n → n ≤ length s.
Proof.
  induction re as [|[a|a] re IH]; intros s n.
  - rewrite match_len_nil. intros [= <-]. lia.
  - destruct s as [|c s]; [by rewrite match_len_one_nil|].
    rewrite match_len_one. destruct (atom_ok a c); [|done].
    destruct (match_len re s) as [m|] eqn:E; simpl; [|done].
    intros [= <-]. apply IH in E. simpl. lia.
  - revert n. induction s as [|c s IHs]; intros n.
    + rewrite match_len_many_nil. apply IH.
    + rewrite match_len_many. destruct (atom_ok a c).
      * destruct (match_len (Many a :: re) s) as [m|] eqn:E.
        -- intros [= <-]. specialize (IHs m eq_refl). simpl. lia.
        -- apply IH.
      * apply IH.
Qed.

(** The items of a pattern that take exactly one byte. *)
Fixpoint ones (re : regex) : nat :=
  match re with
  | [] => 0
  | One _ :: re' => S (ones re')
  | Many _ :: re' => ones re'
  end.

(** A match is no shorter than the bytes the pattern asks for. *)
Lemma match_len_ones re : ∀ s n, match_len re s = Some n → ones re ≤ n.
Proof.
  induction re as [|[a|a] re IH]; intros s n.
  - rewrite match_len_nil. intros [= <-]. done.
  - destruct s as [|c s]; [by rewrite match_len_one_nil|].
    rewrite match_len_one. destruct (atom_ok a c); [|done].
    destruct (match_len re s) as [m|] eqn:E; simpl; [|done].
    intros [= <-]. apply IH in E. simpl. lia.
  - revert n. induction s as [|c s IHs]; intros n.
    + rewrite match_len_many_nil. apply IH.
    + rewrite match_len_many. destruct (atom_ok a c).
      * destruct (match_len (Many a :: re) s) as [m|] eqn:E.
        -- intros [= <-]. specialize (IHs m eq_refl). simpl in *. lia.
        -- apply IH.
      * apply IH.
Qed.

Definition atom_of (it : item) : atom :=
  match it with
  | One a | Many a => a
  end.

(** No item of the pattern takes the byte [z]. *)
Definition rejects (z : ascii) (re : regex) : bool :=
  forallb (λ it, negb (atom_ok (atom_of it) z)) re.

(** A byte that the pattern rejects ends the text for the matcher. *)
Lemma match_len_cut re z :
  rejects z re = true → ∀ a b, match_len re (a ++ z :: b) = match_len re a.
Proof.
  induction re as [|[x|x] re IH]; simpl; intros Hr a b.
  - by rewrite !match_len_nil.
  - apply andb_true_iff in Hr as [Hx Hr]. apply negb_true_iff in Hx.
    destruct a as [|c a]; simpl.
    + by rewrite match_len_one, Hx.
    + rewrite !match_len_one. by rewrite IH.
  - apply andb_true_iff in Hr as [Hx Hr]. apply negb_true_iff in Hx.
    induction a as [|c a IHa]; simpl.
    + rewrite match_len_many, Hx, match_len_many_nil. apply (IH Hr []).
    + rewrite !match_len_many, IHa.
      pose proof (IH Hr (c :: a) b) as H. simpl in H. by rewrite H.
Qed.

(** The pattern of a literal text. *)
Definition lits (p : bytes) : regex := (λ c, One (Lit c)) <$> p.

Lemma match_len_lits p re s :
  match_len (lits p ++ re) (p ++ s) = (λ n, length p + n) <$> match_len re s.
Proof.
  induction p as [|c p IH]; simpl.
  - by destruct (match_len re s).
  - rewrite match_len_one. simpl. rewrite Ascii.eqb_refl, IH.
    by destruct (match_len re s).
Qed.

Lemma match_len_lits_inv p re : ∀ s n,
  match_len (lits p ++ re) s = Some n →
  ∃ s' m, s = p ++ s' ∧ match_len re s' = Some m ∧ n = length p + m.
Proof.
  induction p as [|c p IH]; simpl; intros s n H.
  - exists s, n. done.
  - destruct s as [|c' s]; [by rewrite match_len_one_nil in H|].
    rewrite match_len_one in H. simpl in H.
    destruct (Ascii.eqb c c') eqn:E; [|done]. apply Ascii.eqb_eq in E as <-.
    destruct (match_len (lits p ++ re) s) as [k|] eqn:Hk; [|done].
    injection H as <-. destruct (IH s k Hk) as (s' & m & -> & Hm & ->).
    exists s', m. done.
Qed.

(** The longest head of digits. *)
Abbreviation digits_of := (Semver.span is_digit).

Lemma span_app (f : ascii → bool) s :
  s = (Semver.span f s).1 ++ (Semver.span f s).2 ∧
  Forall (λ c, f c = true) (Semver.span f s).1 ∧
  (∀ c t, (Semver.span f s).2 = c :: t → f c = false).
Proof.
  induction s as [|c s IH]; simpl.
  - split_and!; [done|constructor|done].
  - destruct (f c) eqn:E.
    + destruct (Semver.span f s) as [t rest]. simpl in *.
      destruct IH as (-> & Hall & Hrest). split_and!; [done| |done].
      by constructor.
    + simpl. split_and!; [done|constructor|]. by intros ? ? [= <- <-].
Qed.

Lemma span_exact (f : ascii → bool) ds rest :
  Forall (λ c, f c = true) ds → (∀ c t, rest = c :: t → f c = false) →
  Semver.span f (ds ++ rest) = (ds, rest).
Proof.
  intros Hall Hrest. induction Hall as [|c ds Hc Hall IH]; simpl.
  - destruct rest as [|c t]; [done|]. simpl. by rewrite (Hrest c t).
  - by rewrite Hc, IH.
Qed.

(** The class of digits of the patterns. *)
Definition D : atom := Range "0" "9".

(** Under a star followed by something that takes no digit, the digits
    are all taken. *)
Lemma match_len_digits re s :
  (∀ c t, is_digit c = true → match_len re (c :: t) = None) →
  match_len (Many D :: re) s
  = (λ n, length (digits_of s).1 + n) <$> match_len re (digits_of s).2.
Proof.
  intros Hre. induction s as [|c s IH]; simpl.
  - rewrite match_len_many_nil. by destruct (match_len re []).
  - rewrite match_len_many. change (atom_ok D c) with (is_digit c).
    destruct (is_digit c) eqn:E.
    + rewrite IH. destruct (digits_of s) as [ds rest]. simpl.
      destruct (match_len re rest); simpl; [done|]. by apply Hre.
    + simpl. by destruct (match_len re (c :: s)).
Qed.

(** ** The pattern of a version requirement *)

(** The compiled form of [ v[0-9]*\.[0-9]*\.[0-9]], without its space. *)
Definition version_re : regex :=
  [One (Lit "v"); Many D; One (Lit "."); Many D; One (Lit "."); One D].

(** The compiled form of the pattern [updateGoModVersions] builds for the
    module path [p]. *)
Definition pattern_of (p : bytes) : regex :=
  lits p ++ One (Lit " ") :: version_re.

Definition all_digits (ds : bytes) : Prop := Forall (λ c, is_digit c = true) ds.

(** What the version part of the pattern matches: [v], digits, a dot,
    digits, a dot, one digit. *)
Definition version_shape (d1 d2 : bytes) (c : ascii) : bytes :=
  "v"%char :: d1 ++ "."%char :: d2 ++ ["."%char; c].

Ltac len_norm :=
  unfold version_shape in *;
  repeat first [rewrite length_app | progress cbn [length]].

Lemma dot_takes_no_digit re c t :
  is_digit c = true → match_len (One (Lit ".") :: re) (c :: t) = None.
Proof.
  intros Hc. rewrite match_len_one. unfold atom_ok.
  destruct (Ascii.eqb "." c) eqn:E; [|done].
  apply Ascii.eqb_eq in E as <-. by vm_compute in Hc.
Qed.

Lemma version_match s n :
  match_len version_re s = Some n ↔
  ∃ d1 d2 c post,
    s = version_shape d1 d2 c ++ post ∧ all_digits d1 ∧ all_digits d2 ∧
    is_digit c = true ∧ n = length (version_shape d1 d2 c).
Proof.
  unfold version_re, version_shape. split.
  - destruct s as [|c0 s]; [done|]. rewrite match_len_one. unfold atom_ok.
    destruct (Ascii.eqb "v" c0) eqn:E0; [|done]. apply Ascii.eqb_eq in E0 as <-.
    rewrite match_len_digits by apply dot_takes_no_digit.
    destruct (span_app is_digit s) as (Hs & Hd1 & _).
    destruct (digits_of s) as [d1 r1]. simpl in *. subst s.
    destruct r1 as [|c1 r1]; [done|]. rewrite match_len_one. unfold atom_ok.
    destruct (Ascii.eqb "." c1) eqn:E1; [|done]. apply Ascii.eqb_eq in E1 as <-.
    rewrite match_len_digits by apply dot_takes_no_digit.
    destruct (span_app is_digit r1) as (Hs & Hd2 & _).
    destruct (digits_of r1) as [d2 r2]. simpl in *. subst r1.
    destruct r2 as [|c2 r2]; [done|]. rewrite match_len_one. unfold atom_ok.
    destruct (Ascii.eqb "." c2) eqn:E2; [|done]. apply Ascii.eqb_eq in E2 as <-.
    destruct r2 as [|c r2]; [done|]. rewrite match_len_one.
    change (atom_ok D c) with (is_digit c).
    destruct (is_digit c) eqn:Ec; [|done]. rewrite match_len_nil. simpl.
    intros [= <-]. exists d1, d2, c, r2. split_and!; try done.
    + by app_norm.
    + app_norm. rewrite !length_app. simpl. rewrite !length_app. simpl. lia.
  - intros (d1 & d2 & c & post & -> & Hd1 & Hd2 & Hc & ->). simpl.
    rewrite match_len_one. simpl. rewrite <- !app_assoc. simpl.
    rewrite match_len_digits by apply dot_takes_no_digit.
    rewrite span_exact by (try done; by intros ? ? [= <- <-]). simpl.
    rewrite match_len_one. simpl. rewrite <- !app_assoc. simpl.
    rewrite match_len_digits by apply dot_takes_no_digit.
    rewrite span_exact by (try done; by intros ? ? [= <- <-]). simpl.
    rewrite !match_len_one. simpl. change (between "0" "9" c) with (is_digit c).
    rewrite Hc. simpl. f_equal.
    rewrite !length_app. simpl. rewrite !length_app. simpl. lia.
Qed.

(** What the pattern of [p] matches at the head of a text. *)
Lemma pattern_match p s n :
  match_len (pattern_of p) s = Some n ↔
  ∃ d1 d2 c post,
    s = p ++ " "%char :: version_shape d1 d2 c ++ post ∧
    all_digits d1 ∧ all_digits d2 ∧ is_digit c = true ∧
    n = length (p ++ " "%char :: version_shape d1 d2 c).
Proof.
  unfold pattern_of. split.
  - intros H. apply match_len_lits_inv in H as (s' & m & -> & Hm & ->).
    destruct s' as [|c0 s']; [done|]. rewrite match_len_one in Hm. unfold atom_ok in Hm.
    destruct (Ascii.eqb " " c0) eqn:E0; [|done]. apply Ascii.eqb_eq in E0 as <-.
    destruct (match_len version_re s') as [k|] eqn:Hk; [|done].
    injection Hm as <-.
    apply version_match in Hk as (d1 & d2 & c & post & -> & ? & ? & ? & ->).
    exists d1, d2, c, post. split_and!; try done.
    len_norm. lia.
  - intros (d1 & d2 & c & post & -> & Hd1 & Hd2 & Hc & ->).
    rewrite match_len_lits.
    change (version_shape d1 d2 c ++ post)
      with ("v"%char :: (d1 ++ "."%char :: d2 ++ ["."%char; c]) ++ post).
    rewrite match_len_one. unfold atom_ok. rewrite Ascii.eqb_refl.
    change ("v"%char :: (d1 ++ "."%char :: d2 ++ ["."%char; c]) ++ post)
      with (version_shape d1 d2 c ++ post).
    assert (match_len version_re (version_shape d1 d2 c ++ post)
            = Some (length (version_shape d1 d2 c))) as ->.
    { apply version_match. exists d1, d2, c, post. done. }
    simpl. f_equal. len_norm. lia.
Qed.


(** ** The scan of [ReplaceAll] *)

Section ScanFacts.

Variable re : regex.
Variable repl : bytes.

(** The pattern takes at least one byte: it has no empty match. *)
Hypothesis Hone : 1 ≤ ones re.

Lemma no_empty_match s : match_len re s ≠ Some 0.
Proof. intros H. apply match_len_ones in H. lia. Qed.

Lemma no_match_nil : match_len re [] = None.
Proof.
  destruct (match_len re []) as [n|] eqn:E; [|done].
  pose proof (match_len_bound _ _ _ E). pose proof (match_len_ones _ _ _ E).
  simpl in *. lia.
Qed.

Lemma replace_from_flag s b :
  replace_from re repl 0 b s = replace_from re repl 0 true s.
Proof.
  destruct s as [|c s]; simpl.
  - by rewrite no_match_nil.
  - destruct (match_len re (c :: s)) as [[|n]|] eqn:E; try done.
    by apply no_empty_match in E.
Qed.

Lemma replace_from_skip n : ∀ s b,
  n ≤ length s →
  replace_from re repl n b s = replace_from re repl 0 true (drop n s).
Proof.
  induction n as [|n IH]; intros s b Hn.
  - rewrite drop_0. apply replace_from_flag.
  - destruct s as [|c s]; simpl in *; [lia|]. apply IH. lia.
Qed.

Lemma ReplaceAll_nil : ReplaceAll re [] repl = [].
Proof. unfold ReplaceAll. simpl. by rewrite no_match_nil. Qed.

Lemma ReplaceAll_miss c s :
  match_len re (c :: s) = None →
  ReplaceAll re (c :: s) repl = c :: ReplaceAll re s repl.
Proof. unfold ReplaceAll. simpl. by intros ->. Qed.

Lemma ReplaceAll_hit s n :
  match_len re s = Some n →
  ReplaceAll re s repl = repl ++ ReplaceAll re (drop n s) repl.
Proof.
  intros H. pose proof (match_len_bound _ _ _ H) as Hb.
  destruct n as [|n]; [by apply no_empty_match in H|].
  destruct s as [|c s]; simpl in Hb; [lia|].
  unfold ReplaceAll. simpl. rewrite H. f_equal.
  apply replace_from_skip. lia.
Qed.

(** Induction along the scan: at each position either nothing matches and
    the scan moves on by one byte, or the match is skipped. *)
Lemma scan_ind (P : bytes → Prop) :
  P [] →
  (∀ c s, match_len re (c :: s) = None → P s → P (c :: s)) →
  (∀ s n, match_len re s = Some (S n) → P (drop (S n) s) → P s) →
  ∀ s, P s.
Proof.
  intros Hnil Hmiss Hhit s.
  remember (length s) as k eqn:Hk.
  revert s Hk. induction k as [k IH] using lt_wf_ind. intros s ->.
  destruct s as [|c s]; [done|].
  destruct (match_len re (c :: s)) as [[|n]|] eqn:E.
  - by apply no_empty_match in E.
  - apply (Hhit _ n E). apply (IH (length (drop (S n) (c :: s)))); [|done].
    rewrite length_drop. simpl. lia.
  - apply Hmiss; [done|]. apply (IH (length s)); [simpl; lia|done].
Qed.

(** A text without a match, at any position, is left as it is. *)
Lemma ReplaceAll_no_match s :
  (∀ pre post, s = pre ++ post → match_len re post = None) →
  ReplaceAll re s repl = s.
Proof.
  induction s as [|c s IH]; intros Hno.
  - apply ReplaceAll_nil.
  - rewrite ReplaceAll_miss by (by apply (Hno [])).
    f_equal. apply IH. intros pre post ->. by apply (Hno (c :: pre)).
Qed.

(** A byte the pattern rejects splits the text: the two sides are
    rewritten on their own. *)
Lemma ReplaceAll_cut z a b :
  rejects z re = true →
  ReplaceAll re (a ++ z :: b) repl
  = ReplaceAll re a repl ++ z :: ReplaceAll re b repl.
Proof.
  intros Hz. revert a. apply scan_ind.
  - rewrite ReplaceAll_nil. simpl. apply ReplaceAll_miss.
    pose proof (match_len_cut re z Hz [] b) as H. simpl in H.
    rewrite H. apply no_match_nil.
  - intros c s Hmiss IH.
    pose proof (match_len_cut re z Hz (c :: s) b) as H. simpl in *.
    rewrite !ReplaceAll_miss, IH; try done. by rewrite H.
  - intros s n Hhit IH.
    pose proof (match_len_bound _ _ _ Hhit) as Hb.
    rewrite (ReplaceAll_hit s (S n)) by done.
    rewrite (ReplaceAll_hit (s ++ z :: b) (S n))
      by (by rewrite match_len_cut).
    rewrite drop_app_le by done. rewrite IH. by rewrite <- app_assoc.
Qed.

End ScanFacts.

(** ** The patterns of module paths *)

(** The bytes of a module path (package [module] of golang.org/x/mod):
    letters, digits and the punctuation [-._~/]. *)
Definition path_byte (c : ascii) : bool :=
  is_alnum c || existsb (Ascii.eqb c) (bytes_of "-._~/").

Definition module_path (p : string) : bool := forallb path_byte (bytes_of p).

(** A version without [$]: as a replacement it is taken as it is written
    (in a replacement, [$] starts a reference to a group of the match). *)
Definition template_free (version : string) : bool :=
  forallb (λ c, negb (Ascii.eqb c "$")) (bytes_of version).

Lemma bytes_of_app a b : bytes_of (a +:+ b) = bytes_of a ++ bytes_of b.
Proof.
  induction a as [|c a IH]; [done|].
  change (c :: bytes_of (a +:+ b) = c :: bytes_of a ++ bytes_of b).
  by rewrite IH.
Qed.

Lemma append_assoc' (a b c : string) : (a +:+ b) +:+ c = a +:+ (b +:+ c).
Proof.
  induction a as [|x a IH]; [done|].
  change (String x ((a +:+ b) +:+ c) = String x (a +:+ (b +:+ c))).
  by rewrite IH.
Qed.

Lemma strings_Replace_app a b old new :
  strings_Replace (a +:+ b) old new
  = strings_Replace a old new +:+ strings_Replace b old new.
Proof.
  induction a as [|c a IH]; [done|].
  change (String c a +:+ b) with (String c (a +:+ b)).
  cbn [strings_Replace].
  destruct (Ascii.eqb c old); rewrite IH; [by rewrite append_assoc'|done].
Qed.

(** [filePathToRegex] escapes the slashes and the periods, byte by byte. *)
Lemma filePathToRegex_cons c p :
  filePathToRegex (String c p)
  = (if Ascii.eqb c "/" then "\/"
     else if Ascii.eqb c "." then "\."
          else String c "") +:+ filePathToRegex p.
Proof.
  unfold filePathToRegex, filepath_Separator.
  cbn [strings_Replace].
  destruct (Ascii.eqb c "/") eqn:E1.
  - by rewrite strings_Replace_app.
  - cbn [strings_Replace]. by destruct (Ascii.eqb c ".").
Qed.

(** The bytes of a module path other than the slash and the period stand
    for themselves in a pattern. *)
Lemma path_byte_literal c :
  path_byte c = true → Ascii.eqb c "/" = false → Ascii.eqb c "." = false →
  Ascii.eqb c "*" = false ∧ Ascii.eqb c "\" = false ∧
  Ascii.eqb c "[" = false ∧ is_literal c = true.
Proof.
  destruct c as [[] [] [] [] [] [] [] []]; vm_compute; intros; done.
Qed.

(** No byte of a module path is a space or a line break. *)
Lemma path_byte_solid c :
  path_byte c = true → Ascii.eqb c " " = false ∧ Ascii.eqb c "010" = false.
Proof.
  destruct c as [[] [] [] [] [] [] [] []]; vm_compute; intros; done.
Qed.

Lemma parse_path p : module_path p = true → ∀ acc rest,
  parse acc (bytes_of (filePathToRegex p) ++ rest)
  = parse (rev (lits (bytes_of p)) ++ acc) rest.
Proof.
  unfold module_path. induction p as [|c p IH]; intros Hp acc rest; [done|].
  simpl in Hp. apply andb_true_iff in Hp as [Hc Hp].
  rewrite filePathToRegex_cons, bytes_of_app, <- app_assoc.
  cbn [bytes_of list_ascii_of_string lits fmap list_fmap rev].
  rewrite <- app_assoc. cbn [app].
  destruct (Ascii.eqb c "/") eqn:E1.
  - apply Ascii.eqb_eq in E1 as ->. by rewrite <- IH.
  - destruct (Ascii.eqb c ".") eqn:E2.
    + apply Ascii.eqb_eq in E2 as ->. by rewrite <- IH.
    + destruct (path_byte_literal c Hc E1 E2) as (H1 & H2 & H3 & H4).
      rewrite <- IH by done. cbn [bytes_of list_ascii_of_string app parse].
      by rewrite H1, H2, H3, H4.
Qed.

Lemma parse_version_suffix acc :
  parse acc (bytes_of " v[0-9]*\.[0-9]*\.[0-9]")
  = Some (rev acc ++ One (Lit " ") :: version_re).
Proof.
  cbn -[rev]. cbn [rev]. by rewrite <- !app_assoc.
Qed.

(** The pattern [updateGoModVersions] compiles for a module path. *)
Lemma Compile_module_path p :
  module_path p = true →
  Compile (filePathToRegex p +:+ " v[0-9]*\.[0-9]*\.[0-9]")
  = Some (pattern_of (bytes_of p)).
Proof.
  intros Hp. unfold Compile. rewrite bytes_of_app, parse_path by done.
  rewrite parse_version_suffix. unfold pattern_of.
  by rewrite app_nil_r, rev_involutive.
Qed.

(** ** The manifest rewrite *)

(** The passes of [updateGoModVersions] over a content, one per module
    path, when every pattern compiles. *)
Definition rewrites (version : string) (paths : list ModulePath) (s : bytes) : bytes :=
  foldl (λ s path,
         ReplaceAll (pattern_of (bytes_of path)) s
                    (bytes_of (path +:+ " " +:+ version)))
        s paths.

Lemma replaceVersions_rewrites version paths : ∀ s,
  forallb module_path paths = true →
  replaceVersions version paths s = inr (rewrites version paths s).
Proof.
  induction paths as [|path rest IH]; intros s Hp; simpl; [done|].
  simpl in Hp. apply andb_true_iff in Hp as [Hpath Hrest].
  rewrite Compile_module_path by done. by apply IH.
Qed.

Lemma ones_pattern p : 1 ≤ ones (pattern_of p).
Proof. unfold pattern_of. induction p; simpl; lia. Qed.

Lemma rejects_lits z p re :
  rejects z (lits p ++ re)
  = forallb (λ c, negb (Ascii.eqb c z)) p && rejects z re.
Proof.
  unfold rejects. induction p as [|c p IH]; simpl; [done|].
  by rewrite IH, andb_assoc.
Qed.

(** The pattern of a module path takes no line break. *)
Lemma rejects_line_break p :
  module_path p = true → rejects "010" (pattern_of (bytes_of p)) = true.
Proof.
  unfold module_path, pattern_of. intros Hp. rewrite rejects_lits.
  apply andb_true_iff. split; [|done].
  apply forallb_forall. intros c Hc.
  rewrite forallb_forall in Hp.
  destruct (path_byte_solid c (Hp c Hc)) as [_ ->]. done.
Qed.

(** The line break. *)
Definition nl : ascii := "010".

(** The content made of the lines [ls]. *)
Fixpoint join_lines (ls : list bytes) : bytes :=
  match ls with
  | [] => []
  | l :: rest =>
    match rest with
    | [] => l
    | _ :: _ => l ++ nl :: join_lines rest
    end
  end.

(** The text [l] has, somewhere, the path [p] followed by a space and a
    version: [v], digits, a dot, digits, a dot, a digit. *)
Definition occurs (p : ModulePath) (l : bytes) : Prop :=
  ∃ pre d1 d2 c post,
    l = pre ++ bytes_of p ++ " "%char :: version_shape d1 d2 c ++ post ∧
    all_digits d1 ∧ all_digits d2 ∧ is_digit c = true.

Lemma rewrites_cut version paths : ∀ a b,
  forallb module_path paths = true →
  rewrites version paths (a ++ nl :: b)
  = rewrites version paths a ++ nl :: rewrites version paths b.
Proof.
  induction paths as [|path rest IH]; intros a b Hp; simpl; [done|].
  simpl in Hp. apply andb_true_iff in Hp as [Hpath Hrest].
  rewrite ReplaceAll_cut;
    [by apply IH|apply ones_pattern|by apply rejects_line_break].
Qed.

(** The rewrite works line by line. *)
Lemma rewrites_lines version paths ls :
  forallb module_path paths = true →
  rewrites version paths (join_lines ls)
  = join_lines (rewrites version paths <$> ls).
Proof.
  intros Hp. induction ls as [|l rest IH]; simpl.
  - clear Hp. induction paths as [|path paths IH]; simpl; [done|].
    rewrite ReplaceAll_nil; [done|apply ones_pattern].
  - destruct rest as [|l' rest]; [done|].
    rewrite rewrites_cut by done. rewrite IH. done.
Qed.

(** A text in which no bumped path occurs before a version stays as it
    is. *)
Lemma rewrites_no_occurrence version paths l :
  (∀ path, path ∈ paths → ¬ occurs path l) →
  rewrites version paths l = l.
Proof.
  induction paths as [|path rest IH]; intros Hno; simpl; [done|].
  rewrite ReplaceAll_no_match.
  - apply IH. intros p Hp. apply Hno. by right.
  - apply ones_pattern.
  - intros pre post ->.
    destruct (match_len (pattern_of (bytes_of path)) post) as [n|] eqn:E; [|done].
    exfalso. apply (Hno path); [by left|].
    apply pattern_match in E as (d1 & d2 & c & post' & -> & ? & ? & ? & _).
    exists pre, d1, d2, c, post'. done.
Qed.


(** ** Running the rewrite again *)

(** Two texts that agree up to their first space. *)
Lemma app_space_inj (P Q X Y : bytes) :
  " "%char ∉ P → " "%char ∉ Q →
  P ++ " "%char :: X = Q ++ " "%char :: Y → P = Q ∧ X = Y.
Proof.
  revert Q. induction P as [|c P IH]; intros [|d Q] HP HQ H; simpl in *.
  - by injection H as ->.
  - injection H as <- _. exfalso. apply HQ. by left.
  - injection H as -> _. exfalso. apply HP. by left.
  - injection H as -> H. destruct (IH Q) as [-> ->]; try done.
    + intros ?. apply HP. by right.
    + intros ?. apply HQ. by right.
Qed.

(** A text without a space that is followed by a space in a longer text:
    whatever starts the longer text without a space is a head of it. *)
Lemma app_space_prefix (P S X Y : bytes) :
  " "%char ∉ S → P ++ " "%char :: X = S ++ Y → S `prefix_of` P.
Proof.
  revert P. induction S as [|c S IH]; intros P HS H.
  - apply prefix_nil.
  - destruct P as [|d P]; simpl in H.
    + injection H as <- _. exfalso. apply HS. by left.
    + injection H as -> H. apply prefix_cons. apply (IH P); [|done].
      intros ?. apply HS. by right.
Qed.

Lemma digit_not_space c : is_digit c = true → c ≠ " "%char.
Proof. intros Hc ->. by vm_compute in Hc. Qed.

Lemma version_shape_solid d1 d2 c :
  all_digits d1 → all_digits d2 → is_digit c = true →
  " "%char ∉ version_shape d1 d2 c.
Proof.
  intros H1 H2 Hc. unfold version_shape.
  assert (∀ ds, all_digits ds → " "%char ∉ ds) as Hds.
  { intros ds Hall Hin. unfold all_digits in Hall.
    rewrite Forall_forall in Hall. by apply (digit_not_space _ (Hall _ Hin)). }
  intros Hin.
  apply elem_of_cons in Hin as [Hin|Hin]; [done|].
  apply elem_of_app in Hin as [Hin|Hin]; [by apply (Hds d1)|].
  apply elem_of_cons in Hin as [Hin|Hin]; [done|].
  apply elem_of_app in Hin as [Hin|Hin]; [by apply (Hds d2)|].
  apply elem_of_cons in Hin as [Hin|Hin]; [done|].
  apply list_elem_of_singleton in Hin. by apply (digit_not_space c).
Qed.

Lemma module_path_solid p : module_path p = true → " "%char ∉ bytes_of p.
Proof.
  unfold module_path. rewrite forallb_forall. intros Hp Hin.
  apply list_elem_of_In in Hin.
  destruct (path_byte_solid _ (Hp _ Hin)) as [H _]. done.
Qed.

(** The pattern of [P] on a text whose first space comes after something
    else than [P]: the space ends the text for the matcher. *)
Lemma match_len_pattern_cut P : ∀ W X,
  " "%char ∉ P → W ≠ P →
  match_len (pattern_of P) (W ++ " "%char :: X) = match_len (pattern_of P) W.
Proof.
  unfold pattern_of. induction P as [|c P IH]; intros W X HP HW; simpl.
  - destruct W as [|w W]; [done|]. simpl. rewrite !match_len_one.
    destruct (atom_ok (Lit " ") w); [|done].
    by rewrite (match_len_cut version_re " ").
  - destruct W as [|w W]; simpl.
    + rewrite match_len_one, match_len_one_nil. unfold atom_ok.
      destruct (Ascii.eqb c " ") eqn:E; [|done].
      apply Ascii.eqb_eq in E as ->. exfalso. apply HP. by left.
    + rewrite !match_len_one. unfold atom_ok.
      destruct (Ascii.eqb c w) eqn:E; [|done].
      apply Ascii.eqb_eq in E as ->. rewrite IH; [done| |congruence].
      intros ?. apply HP. by right.
Qed.

Section Again.

(** The new version, whole, is what the version part of the patterns
    matches. *)
Variable version : bytes.
Hypothesis Hversion : match_len version_re version = Some (length version).

Lemma version_is_shape :
  ∃ d1 d2 c, version = version_shape d1 d2 c ∧
             all_digits d1 ∧ all_digits d2 ∧ is_digit c = true.
Proof.
  apply version_match in Hversion as (d1 & d2 & c & post & Hv & ? & ? & ? & Hlen).
  exists d1, d2, c. split_and!; try done.
  rewrite Hv in Hlen. rewrite length_app in Hlen.
  destruct post; simpl in Hlen; [by rewrite app_nil_r in Hv|lia].
Qed.

Lemma version_solid : " "%char ∉ version.
Proof.
  destruct version_is_shape as (d1 & d2 & c & -> & ? & ? & ?).
  by apply version_shape_solid.
Qed.

(** The requirement written for the path [P]. *)
Definition requirement (P : bytes) : bytes := P ++ " "%char :: version.

(** A requirement at the new version is matched, whole, by the pattern of
    its path, whatever follows. *)
Lemma match_len_requirement P Y :
  match_len (pattern_of P) (requirement P ++ Y) = Some (length (requirement P)).
Proof.
  destruct version_is_shape as (d1 & d2 & c & Hv & ? & ? & ?).
  apply pattern_match. exists d1, d2, c, Y. unfold requirement. rewrite Hv.
  split_and!; try done. by rewrite <- app_assoc.
Qed.

(** Every match of the pattern of [P] in [t], at any position, is the
    requirement of [P] at the new version. *)
Definition saturated (P : bytes) (t : bytes) : Prop :=
  ∀ pre post n,
    t = pre ++ post → match_len (pattern_of P) post = Some n →
    take n post = requirement P.

Lemma saturated_suffix P pre t : saturated P (pre ++ t) → saturated P t.
Proof.
  intros H pre' post n Ht Hm. apply (H (pre ++ pre')); [|done].
  by rewrite Ht, <- app_assoc.
Qed.


(** Rewriting for [Pk] what follows a text [W] does not change what the
    pattern of [Pj] finds at the head of the whole, unless it finds a
    requirement at the new version. *)
Lemma head_stable Pj Pk t :
  " "%char ∉ Pj → ∀ W n,
  W ≠ [] →
  match_len (pattern_of Pj)
            (W ++ ReplaceAll (pattern_of Pk) t (requirement Pk)) = Some n →
  take n (W ++ ReplaceAll (pattern_of Pk) t (requirement Pk)) = requirement Pj ∨
  (match_len (pattern_of Pj) (W ++ t) = Some n ∧
   take n (W ++ t)
   = take n (W ++ ReplaceAll (pattern_of Pk) t (requirement Pk))).
Proof.
  intros HPj.
  induction t as [|c s Hmiss IH|s m Hhit IH]
    using (scan_ind (pattern_of Pk) (ones_pattern Pk)); intros W n HW Hm.
  - rewrite ReplaceAll_nil in * by apply ones_pattern. by right.
  - rewrite ReplaceAll_miss in * by done.
    replace (W ++ c :: s) with ((W ++ [c]) ++ s) by (by rewrite <- app_assoc).
    replace (W ++ c :: ReplaceAll (pattern_of Pk) s (requirement Pk))
      with ((W ++ [c]) ++ ReplaceAll (pattern_of Pk) s (requirement Pk)) in *
      by (by rewrite <- app_assoc).
    apply IH; [|done]. by destruct W.
  - rewrite (ReplaceAll_hit _ _ (ones_pattern Pk) s (S m)) in * by done.
    apply pattern_match in Hhit as (d1 & d2 & c & post & -> & ? & ? & ? & Hlen).
    rewrite Hlen in *. clear Hlen IH.
    replace ((Pk ++ " "%char :: version_shape d1 d2 c ++ post))
      with ((Pk ++ " "%char :: version_shape d1 d2 c) ++ post) in *
      by (by rewrite <- app_assoc).
    rewrite drop_app_length in *.
    set (F := ReplaceAll (pattern_of Pk) post (requirement Pk)) in *.
    unfold requirement in Hm at 1. unfold requirement at 1 3.
    replace (W ++ (Pk ++ " "%char :: version) ++ F)
      with ((W ++ Pk) ++ " "%char :: version ++ F) in *
      by (by rewrite <- !app_assoc).
    replace (W ++ (Pk ++ " "%char :: version_shape d1 d2 c) ++ post)
      with ((W ++ Pk) ++ " "%char :: version_shape d1 d2 c ++ post)
      by (by rewrite <- !app_assoc).
    destruct (decide (W ++ Pk = Pj)) as [Heq|Hne].
    + left. rewrite Heq in *.
      change (Pj ++ " "%char :: version ++ F) with (Pj ++ (" "%char :: version) ++ F) in *.
      rewrite app_assoc in *. fold (requirement Pj) in *.
      rewrite match_len_requirement in Hm. injection Hm as <-.
      apply take_app_length.
    + right. rewrite match_len_pattern_cut in Hm by done.
      pose proof (match_len_bound _ _ _ Hm) as Hb.
      rewrite match_len_pattern_cut by done. split; [done|].
      rewrite (take_app_le (W ++ Pk) (" "%char :: version_shape d1 d2 c ++ post) n Hb).
      by rewrite (take_app_le (W ++ Pk) (" "%char :: version ++ F) n Hb).
Qed.
(** No tail of the new version, other than the empty one, starts the
    path [P]. *)
Definition clear_of_version (P : bytes) : Prop :=
  ∀ k0 k1, version = k0 ++ k1 → k1 ≠ [] → ¬ k1 `prefix_of` P.

(** The rewrite for [Pk] keeps a text saturated for [Pj], and saturates
    it for [Pk]. *)
Lemma saturated_preserved Pj Pk t :
  " "%char ∉ Pj → " "%char ∉ Pk → clear_of_version Pj →
  Pj = Pk ∨ saturated Pj t →
  saturated Pj (ReplaceAll (pattern_of Pk) t (requirement Pk)).
Proof.
  intros HPj HPk Hclear.
  induction t as [|c s Hmiss IH|s m Hhit IH]
    using (scan_ind (pattern_of Pk) (ones_pattern Pk)); intros Hor.
  - rewrite ReplaceAll_nil by apply ones_pattern.
    intros pre post n Hsplit Hm. symmetry in Hsplit.
    apply app_eq_nil in Hsplit as [_ ->].
    by rewrite (no_match_nil _ (ones_pattern Pj)) in Hm.
  - rewrite ReplaceAll_miss by done.
    assert (Pj = Pk ∨ saturated Pj s) as Hor'.
    { destruct Hor as [?|Hsat]; [by left|right].
      by apply (saturated_suffix Pj [c]). }
    intros pre post n Hsplit Hm. destruct pre as [|x pre]; simpl in Hsplit.
    + subst post.
      destruct (head_stable Pj Pk s HPj [c] n ltac:(done) Hm) as [?|[Hm' Ht]];
        [done|].
      simpl in *. rewrite <- Ht. destruct Hor as [->|Hsat]; [congruence|].
      by apply (Hsat [] (c :: s)).
    + injection Hsplit as _ Hsplit. by apply (IH Hor' pre post).
  - rewrite (ReplaceAll_hit _ _ (ones_pattern Pk) s (S m)) by done.
    apply pattern_match in Hhit as (d1 & d2 & c & post0 & -> & ? & ? & ? & Hlen).
    rewrite Hlen in *. clear Hlen.
    replace ((Pk ++ " "%char :: version_shape d1 d2 c ++ post0))
      with ((Pk ++ " "%char :: version_shape d1 d2 c) ++ post0) in *
      by (by rewrite <- app_assoc).
    rewrite drop_app_length in *.
    assert (saturated Pj (ReplaceAll (pattern_of Pk) post0 (requirement Pk))) as HF.
    { apply IH. destruct Hor as [?|Hsat]; [by left|right].
      by apply (saturated_suffix Pj (Pk ++ " "%char :: version_shape d1 d2 c)). }
    clear IH Hor.
    set (F := ReplaceAll (pattern_of Pk) post0 (requirement Pk)) in *.
    assert (∀ Q post n,
              " "%char ∉ Q → post = Q ++ " "%char :: version ++ F →
              match_len (pattern_of Pj) post = Some n →
              take n post = requirement Pj) as Hhead.
    { intros Q post n HQ -> Hm.
      pose proof Hm as Hm'.
      apply pattern_match in Hm' as (e1 & e2 & e & post' & Heq & _).
      apply app_space_inj in Heq as [-> _]; try done.
      change (Pj ++ " "%char :: version ++ F) with (Pj ++ (" "%char :: version) ++ F) in *.
      rewrite app_assoc in *. fold (requirement Pj) in *.
      rewrite match_len_requirement in Hm. injection Hm as <-.
      apply take_app_length. }
    intros pre post n Hsplit Hm. unfold requirement in Hsplit.
    rewrite <- app_assoc in Hsplit.
    apply app_eq_inv in Hsplit as [(k & HPk' & ->)|(k & -> & Hsplit)].
    + apply (Hhead k); try done.
      intros Hin. apply HPk. rewrite HPk'. apply elem_of_app. by right.
    + destruct k as [|x k]; simpl in Hsplit.
      * subst post. by apply (Hhead []); [apply not_elem_of_nil| |].
      * injection Hsplit as _ Hsplit.
        apply app_eq_inv in Hsplit as [(k' & Hv & ->)|(k' & _ & HF')].
        -- destruct k' as [|y k'].
           ++ by apply (HF [] F).
           ++ exfalso. apply (Hclear k (y :: k') Hv); [done|].
              pose proof Hm as Hm'.
              apply pattern_match in Hm' as (e1 & e2 & e & post' & Heq & _).
              symmetry in Heq. apply app_space_prefix in Heq; [done|].
              intros Hin. apply version_solid. rewrite Hv.
              apply elem_of_app. by right.
        -- by apply (HF k' post).
Qed.
End Again.

(** The new version is matched, whole, by the version part of the
    patterns: it is [v], digits, a dot, digits, a dot and one digit. *)
Definition version_literal (version : string) : bool :=
  bool_decide (match_len version_re (bytes_of version)
               = Some (length (bytes_of version))).

(** No tail of the version, other than the empty one, starts the path. *)
Definition clear_of (version : string) (path : ModulePath) : bool :=
  forallb (λ i, negb (bool_decide
                        (drop i (bytes_of version) `prefix_of` bytes_of path)))
          (seq 0 (length (bytes_of version))).

Lemma clear_of_spec version path :
  clear_of version path = true →
  clear_of_version (bytes_of version) (bytes_of path).
Proof.
  unfold clear_of. rewrite forallb_forall.
  intros H k0 k1 Hv Hne Hpre.
  specialize (H (length k0)). rewrite Hv, drop_app_length in H.
  rewrite bool_decide_eq_true_2 in H by done.
  assert (In (length k0) (seq 0 (length (k0 ++ k1)))) as Hin.
  { apply in_seq. rewrite length_app. destruct k1; [done|]. simpl. lia. }
  by specialize (H Hin).
Qed.

Lemma bytes_of_requirement version path :
  bytes_of (path +:+ " " +:+ version)
  = requirement (bytes_of version) (bytes_of path).
Proof. by rewrite !bytes_of_app. Qed.

Section AgainAll.

Variable version : string.
Hypothesis Hversion : version_literal version = true.

(** A path the rewrite can be run again for. *)
Definition again_ok (path : ModulePath) : Prop :=
  module_path path = true ∧ clear_of version path = true.

Lemma version_literal_match :
  match_len version_re (bytes_of version) = Some (length (bytes_of version)).
Proof. by apply bool_decide_eq_true_1 in Hversion. Qed.

Lemma rewrites_saturated paths : ∀ done s,
  Forall again_ok done → Forall again_ok paths →
  (∀ q, q ∈ done → saturated (bytes_of version) (bytes_of q) s) →
  ∀ q, q ∈ done ++ paths →
       saturated (bytes_of version) (bytes_of q) (rewrites version paths s).
Proof.
  induction paths as [|p rest IH]; intros done s Hdone Hpaths Hsat q Hq; simpl.
  - rewrite app_nil_r in Hq. by apply Hsat.
  - apply Forall_cons in Hpaths as [[Hp Hclear] Hrest].
    rewrite bytes_of_requirement.
    apply (IH (done ++ [p])).
    + apply Forall_app. split; [done|]. by apply Forall_singleton.
    + done.
    + intros q' [Hq'|Hq']%elem_of_app.
      * rewrite Forall_forall in Hdone. destruct (Hdone q' Hq') as [Hm Hc].
        apply (saturated_preserved _ version_literal_match).
        -- by apply module_path_solid.
        -- by apply module_path_solid.
        -- by apply clear_of_spec.
        -- right. by apply Hsat.
      * apply list_elem_of_singleton in Hq' as ->.
        apply (saturated_preserved _ version_literal_match).
        -- by apply module_path_solid.
        -- by apply module_path_solid.
        -- by apply clear_of_spec.
        -- by left.
    + by rewrite <- app_assoc.
Qed.



End AgainAll.


(** * Worked inputs *)

(** The configuration of the scenario: a stable set with two modules and
    an experimental set with one. *)
Definition sampleInfo : ModuleVersioningInfo := {|
  ModSetMap := list_to_map [
    ("stable", {| Version := "v1.2.0";
                  Modules := ["example.com/a"; "example.com/b"] |});
    ("experimental", {| Version := "v0.5.0"; Modules := ["example.com/c"] |})];
  ModPathMap := list_to_map [
    ("example.com/a", "a/go.mod");
    ("example.com/b", "b/go.mod");
    ("example.com/c", "c/go.mod")];
  ModInfoMap := list_to_map [
    ("example.com/a", {| ModuleSetName := "stable"; InfoVersion := "v1.2.0" |});
    ("example.com/b", {| ModuleSetName := "stable"; InfoVersion := "v1.2.0" |});
    ("example.com/c", {| ModuleSetName := "experimental"; InfoVersion := "v0.5.0" |})];
|}.

Definition line (s : string) : string := s +:+ String "010" "".

(** The manifests of the scenario: [b] requires [c]. *)
Definition sampleFiles : gmap string (list ascii) := list_to_map [
  ("a/go.mod", bytes_of (line "module example.com/a" +:+ line "go 1.16"));
  ("b/go.mod", bytes_of (line "module example.com/b" +:+
                         line "require example.com/a v1.2.0" +:+
                         line "require example.com/c v0.5.0"));
  ("c/go.mod", bytes_of (line "module example.com/c"))].

Definition sampleVisits : visits := {|
  visitPaths := map_to_list (ModPathMap sampleInfo);
  visitInfos := map_to_list (ModInfoMap sampleInfo);
  visitSets := map_to_list (ModSetMap sampleInfo);
  visitDeps := map_to_list (ModInfoMap sampleInfo);
|}.

(** The run of [verify] on the scenario: one warning, since [b] requires
    [c]. *)
Example verify_scenario :
  verifyCmd_Run IsStableVersion Semver.IsValid Semver.Major Modfile.Parse
                (Some sampleInfo) sampleFiles sampleVisits
  = ([PassAllModulesInSet; PassVersions;
      WarnUnstableDependency "example.com/b" "v1.2.0" "example.com/c" "v0.5.0";
      FinishedDependencies; PassVerified], Exit0).
Proof. vm_compute. reflexivity. Qed.

Lemma verifyAllModulesInSet_complete_witness :
  ranges (visitPaths sampleVisits) (ModPathMap sampleInfo) ∧
  ranges (visitInfos sampleVisits) (ModInfoMap sampleInfo) ∧
  ((verifyAllModulesInSet sampleInfo (visitPaths sampleVisits)
                          (visitInfos sampleVisits)).2 = None ↔
   dom (ModInfoMap sampleInfo) = dom (ModPathMap sampleInfo)).
Proof.
  assert (ranges (visitPaths sampleVisits) (ModPathMap sampleInfo)) as H1
      by (unfold ranges; reflexivity).
  assert (ranges (visitInfos sampleVisits) (ModInfoMap sampleInfo)) as H2
      by (unfold ranges; reflexivity).
  split; [exact H1|]. split; [exact H2|].
  exact (proj1 (verifyAllModulesInSet_complete sampleInfo _ _ H1 H2)).
Defined.

Lemma sampleInfo_valid n s :
  ModSetMap sampleInfo !! n = Some s → Semver.IsValid (Version s) = true.
Proof.
  unfold sampleInfo. simpl. intros Hl.
  apply lookup_insert_Some in Hl as [[_ <-]|[_ Hl]]; [reflexivity|].
  apply lookup_insert_Some in Hl as [[_ <-]|[_ Hl]]; [reflexivity|].
  by rewrite lookup_empty in Hl.
Qed.

Lemma verifyVersions_conflicts_witness :
  ranges (visitSets sampleVisits) (ModSetMap sampleInfo) ∧
  (∀ n s, ModSetMap sampleInfo !! n = Some s →
          Semver.IsValid (Version s) = true) ∧
  (is_Some (verifyVersions IsStableVersion Semver.IsValid Semver.Major
                           sampleInfo (visitSets sampleVisits)).2 ↔
   ∃ n1 s1 n2 s2,
     conflict IsStableVersion Semver.Major (ModSetMap sampleInfo) n1 s1 n2 s2).
Proof.
  assert (ranges (visitSets sampleVisits) (ModSetMap sampleInfo)) as H
      by (unfold ranges; reflexivity).
  split; [exact H|]. split; [exact sampleInfo_valid|].
  exact (proj1 (proj2 (verifyVersions_conflicts
                         IsStableVersion Semver.IsValid Semver.Major
                         sampleInfo _ H) sampleInfo_valid)).
Defined.

Lemma verifyDependencies_advisory_witness :
  ranges (visitDeps sampleVisits) (ModInfoMap sampleInfo) ∧
  (is_Some (verifyDependencies IsStableVersion Modfile.Parse sampleInfo
                               sampleFiles (visitDeps sampleVisits)).2 ↔
   ∃ modPath modInfo err,
     ModInfoMap sampleInfo !! modPath = Some modInfo ∧
     IsStableVersion (InfoVersion modInfo) = true ∧
     Modfile.Parse (manifestOf sampleInfo sampleFiles modPath) = inl err).
Proof.
  assert (ranges (visitDeps sampleVisits) (ModInfoMap sampleInfo)) as H
      by (unfold ranges; reflexivity).
  split; [exact H|].
  exact (proj1 (verifyDependencies_advisory
                  IsStableVersion Modfile.Parse sampleInfo sampleFiles _ H)).
Defined.

Lemma verifyDependencies_unreadable_witness :
  Modfile.Parse [] = inr [] ∧
  (∅ : gmap string (list ascii)) !! default "" (ModPathMap sampleInfo !! "example.com/a")
  = None ∧
  verifyDependencies IsStableVersion Modfile.Parse sampleInfo ∅
    [("example.com/a", {| ModuleSetName := "stable"; InfoVersion := "v1.2.0" |})]
  = ([FinishedDependencies], None).
Proof.
  assert (Modfile.Parse [] = inr []) as H1 by reflexivity.
  assert ((∅ : gmap string (list ascii))
            !! default "" (ModPathMap sampleInfo !! "example.com/a") = None) as H2
      by reflexivity.
  split; [exact H1|]. split; [exact H2|].
  exact (proj2 (verifyDependencies_unreadable
                  IsStableVersion Modfile.Parse sampleInfo ∅ []
                  "example.com/a"
                  {| ModuleSetName := "stable"; InfoVersion := "v1.2.0" |} []
                  H1 H2)).
Defined.

(** A configuration with a module on disk that is in no set, and with a
    set whose version is not a version. *)
Definition brokenInfo : ModuleVersioningInfo := {|
  ModSetMap := list_to_map [
    ("stable", {| Version := "latest"; Modules := ["example.com/a"] |})];
  ModPathMap := list_to_map [
    ("example.com/a", "a/go.mod");
    ("example.com/d", "d/go.mod")];
  ModInfoMap := list_to_map [
    ("example.com/a", {| ModuleSetName := "stable"; InfoVersion := "latest" |})];
|}.

Definition brokenVisits : visits := {|
  visitPaths := map_to_list (ModPathMap brokenInfo);
  visitInfos := map_to_list (ModInfoMap brokenInfo);
  visitSets := map_to_list (ModSetMap brokenInfo);
  visitDeps := map_to_list (ModInfoMap brokenInfo);
|}.

(** C4 fails on the code: with a module in no set and a version that is
    not valid, the run ends at the first check and never reports the
    second failure. *)
Lemma verify_stops_at_first_failure :
  ¬ reports_all_failures IsStableVersion Semver.IsValid Semver.Major Modfile.Parse
      brokenInfo ∅ brokenVisits.
Proof.
  intros (_ & H2 & _).
  specialize (H2 (ErrInvalidVersion "stable" "latest") eq_refl).
  vm_compute in H2. discriminate H2.
Qed.

(** What the run of [verify] does there. *)
Example verify_broken :
  verifyCmd_Run IsStableVersion Semver.IsValid Semver.Major Modfile.Parse
                (Some brokenInfo) ∅ brokenVisits
  = ([], Fatal "verifyAllModulesInSet"
               (ErrNotInAnySet "example.com/d" "d/go.mod")).
Proof. vm_compute. reflexivity. Qed.

(** A stable module whose manifest is not a manifest. *)
Definition garbledFiles : gmap string (list ascii) :=
  <["a/go.mod" := bytes_of "not a manifest"]> sampleFiles.

(** C5 fails on the code: a manifest that does not parse makes
    [verifyDependencies] return an error, and [verify] end through
    [log.Fatalf]. *)
Lemma verifyDependencies_can_fail :
  (verifyDependencies IsStableVersion Modfile.Parse sampleInfo garbledFiles
                      (visitDeps sampleVisits)).2
  = Some (ErrModfile "unknown directive: not") ∧
  (verifyCmd_Run IsStableVersion Semver.IsValid Semver.Major Modfile.Parse
                 (Some sampleInfo) garbledFiles sampleVisits).2
  = Fatal "verifyDependencies" (ErrModfile "unknown directive: not").
Proof. split; vm_compute; reflexivity. Qed.

(** ** The scenario of a release *)

Definition samplePrerelease : prerelease := {|
  versioning := sampleInfo;
  modSetToUpdate := "stable";
  repoRoot := "/repo";
  newVersion := "v1.3.0";
  modPaths := ["example.com/a"; "example.com/b"];
  modTagNames := ["a/"; "b/"];
|}.

Definition sampleWorld : world := {|
  tags := ∅;
  branches := {["main"]};
  index := sampleFiles;
  worktree := sampleFiles;
  revs := {["HEAD" := "4f0c1d2"]};
  merge_bases := {["4f0c1d2" := "4f0c1d2"]};
  faults := [];
  history := [];
|}.

(** [prerelease] on the scenario ends normally, on the new branch, with
    the requirement on [a] bumped in the manifest of [b]. *)
Example prerelease_scenario :
  let run := prereleaseCmd_Run CombineModuleTagNamesAndVersion
               (Some samplePrerelease)
               (map_to_list (ModPathMap sampleInfo)) "main" false sampleWorld in
  run.1 = Exit0 ∧
  bool_decide ("pre_release_stable_v1.3.0" ∈ branches run.2) = true ∧
  worktree run.2 !! "b/go.mod"
  = Some (bytes_of (line "module example.com/b" +:+
                    line "require example.com/a v1.3.0" +:+
                    line "require example.com/c v0.5.0")).
Proof. vm_compute. done. Qed.

(** [tag] on the scenario creates the two tags. *)
Example tag_scenario :
  let run := tagCmd_Run CombineModuleTagNamesAndVersion
               (Some samplePrerelease) "HEAD" false sampleWorld in
  run.1 = Exit0 ∧
  history run.2
  = [GitRevParseVerify "HEAD"; GitMergeBaseHead "4f0c1d2";
     GitTagCreate "a/v1.3.0" "Version a/v1.3.0" "4f0c1d2";
     GitTagCreate "b/v1.3.0" "Version b/v1.3.0" "4f0c1d2"].
Proof. vm_compute. done. Qed.

(** ** Tags that outlive a failed run *)

Definition sampleTagger : tagger :=
  {| base := samplePrerelease; commitHash := "4f0c1d2" |}.

(** The first tag is created; the creation of the second fails, and so
    does the deletion of the first. *)
Definition faultyWorld : world := {|
  tags := ∅;
  branches := {["main"]};
  index := sampleFiles;
  worktree := sampleFiles;
  revs := {["HEAD" := "4f0c1d2"]};
  merge_bases := {["4f0c1d2" := "4f0c1d2"]};
  faults := [false; true; true];
  history := [];
|}.

Example tagAllModules_faulty :
  (tagAllModules CombineModuleTagNamesAndVersion sampleTagger faultyWorld).1
  = Some (ErrTagFailedRollback "b/v1.3.0" "fault"
                               (ErrDeleteTag "a/v1.3.0" "fault")) ∧
  history (tagAllModules CombineModuleTagNamesAndVersion sampleTagger faultyWorld).2
  = [GitTagCreate "a/v1.3.0" "Version a/v1.3.0" "4f0c1d2";
     GitTagCreate "b/v1.3.0" "Version b/v1.3.0" "4f0c1d2";
     GitTagDelete "a/v1.3.0"].
Proof. vm_compute. done. Qed.

(** C1 fails on the code: when a deletion of the rollback fails, a tag
    created by the run remains. *)
Lemma tagAllModules_leaves_tags :
  ¬ all_or_nothing CombineModuleTagNamesAndVersion sampleTagger faultyWorld.
Proof.
  intros H.
  apply (H ltac:(rewrite (proj1 tagAllModules_faulty); eauto) "a/v1.3.0").
  - by left.
  - apply not_elem_of_empty.
  - refine (bool_decide_unpack _ _). vm_compute. exact I.
Qed.

(** ** Deleting the tags of a set without a commit *)

(** The two tags of the scenario are there; no commit is given. *)
Definition taggedWorld : world := {|
  tags := {["a/v1.3.0"; "b/v1.3.0"]};
  branches := {["main"]};
  index := sampleFiles;
  worktree := sampleFiles;
  revs := {["HEAD" := "4f0c1d2"]};
  merge_bases := {["4f0c1d2" := "4f0c1d2"]};
  faults := [];
  history := [];
|}.

(** C9 fails on the code: [tag --delete-module-set-tags] without
    [--commit-hash] ends in [newTagger], which resolves the commit before
    anything else; no tag is deleted, although the deletions themselves
    need no commit and would succeed. *)
Theorem tag_delete_needs_commit :
  let run := tagCmd_Run CombineModuleTagNamesAndVersion
               (Some samplePrerelease) "" true taggedWorld in
  run.1 = Fatal "newTagger" (ErrFullCommitHash "" (ErrRevParse "")) ∧
  tags run.2 = tags taggedWorld ∧
  history run.2 = [GitRevParseVerify ""] ∧
  (deleteModuleSetTags CombineModuleTagNamesAndVersion
     {| base := samplePrerelease; commitHash := "" |} taggedWorld).1 = None ∧
  tags (deleteModuleSetTags CombineModuleTagNamesAndVersion
          {| base := samplePrerelease; commitHash := "" |} taggedWorld).2 = ∅.
Proof.
  intros run. subst run.
  rewrite tagCmd_Run_unresolved by reflexivity.
  repeat split; reflexivity.
Qed.

(** ** The manifest rewrite on the scenario *)

Definition manifestB : list (list ascii) :=
  [bytes_of "module example.com/b";
   bytes_of "require example.com/a v1.2.0";
   bytes_of "require example.com/c v0.5.0";
   []].








(** A path that starts with the last digit of the new version: the second
    run finds a requirement that the first run has made. *)
Example updateGoModVersions_overlap :
  replaceVersions "v1.0.0" ["0/b"; "a"] (bytes_of "a v5.5.5/b v2.2.2")
  = inr (bytes_of "a v1.0.0/b v2.2.2") ∧
  replaceVersions "v1.0.0" ["0/b"; "a"] (bytes_of "a v1.0.0/b v2.2.2")
  = inr (bytes_of "a v1.0.0/b v1.0.0").
Proof. split; vm_compute; reflexivity. Qed.



(** The requirement on a module whose path starts with a bumped path is
    left as it is. *)
Example updateGoModVersions_keeps_longer_path :
  replaceVersions "v1.3.0" ["example.com/a"]
                  (bytes_of "require example.com/a/sdk v0.4.0")
  = inr (bytes_of "require example.com/a/sdk v0.4.0").
Proof. vm_compute. reflexivity. Qed.

(** * Further properties of the commands *)

(** ** [verify]: what the checks report *)

(** X1. A module found on disk that is in no set is what
    [verifyAllModulesInSet] reports, whatever else is wrong and whatever
    the order of its first loop: the second loop is not reached, nothing is
    printed, and the error names such a module with its manifest. *)
Theorem verifyAllModulesInSet_precedence v visitPaths visitInfos :
  ranges visitPaths (ModPathMap v) →
  (∃ modPath modFilePath,
     ModPathMap v !! modPath = Some modFilePath ∧ ModInfoMap v !! modPath = None) →
  ∃ modPath modFilePath,
    verifyAllModulesInSet v visitPaths visitInfos
    = ([], Some (ErrNotInAnySet modPath modFilePath)) ∧
    ModPathMap v !! modPath = Some modFilePath ∧
    ModInfoMap v !! modPath = None.
Proof.
  intros Hp (m & f & Hm & Hnone). unfold verifyAllModulesInSet.
  destruct (allOnDiskInSet v visitPaths) as [e|] eqn:E.
  - apply allOnDiskInSet_Some in E as (m' & f' & -> & Hin & Hnone').
    exists m', f'. split_and!; try done. by apply (ranges_elem _ _ _ _ Hp).
  - exfalso. apply (ranges_elem _ _ _ _ Hp) in Hm.
    destruct (proj1 (allOnDiskInSet_None _ _) E m f Hm) as [i Hi]. congruence.
Qed.

Section VersionErrors.

Variable stable valid : string → bool.
Variable major : string → string.

Lemma versionsLoop_error v todo : ∀ done seen e,
  NoDup (done ++ todo).*1 →
  (∀ maj n, seen !! maj = Some n →
     ∃ s, (n, s) ∈ done ∧ stable (Version s) = true ∧ valid (Version s) = true ∧
          major (Version s) = maj) →
  (∀ n s, (n, s) ∈ done ++ todo → ModSetMap v !! n = Some s) →
  versionsLoop stable valid major v todo seen = Some e →
  (∃ n s, e = ErrInvalidVersion n (Version s) ∧ (n, s) ∈ todo ∧
          valid (Version s) = false) ∨
  (∃ n1 s1 n2 s2,
     e = ErrSameMajor (major (Version s2)) n1 (Version s1) n2 (Version s2) ∧
     conflict stable major (ModSetMap v) n1 s1 n2 s2 ∧
     valid (Version s1) = true ∧ valid (Version s2) = true).
Proof.
  induction todo as [|[n s] rest IH]; intros done seen e Hnd Hseen Hmap; simpl.
  - done.
  - assert (done ++ (n, s) :: rest = (done ++ [(n, s)]) ++ rest) as Hassoc
        by (by rewrite <- app_assoc).
    destruct (valid (Version s)) eqn:Hv; simpl.
    2:{ intros [= <-]. left. exists n, s. split_and!; try done. by left. }
    assert (∀ seen',
              (∀ maj n', seen' !! maj = Some n' →
                 ∃ s', (n', s') ∈ done ++ [(n, s)] ∧ stable (Version s') = true ∧
                       valid (Version s') = true ∧ major (Version s') = maj) →
              versionsLoop stable valid major v rest seen' = Some e →
              (∃ n0 s0, e = ErrInvalidVersion n0 (Version s0) ∧
                        (n0, s0) ∈ (n, s) :: rest ∧ valid (Version s0) = false) ∨
              (∃ n1 s1 n2 s2,
                 e = ErrSameMajor (major (Version s2)) n1 (Version s1) n2 (Version s2) ∧
                 conflict stable major (ModSetMap v) n1 s1 n2 s2 ∧
                 valid (Version s1) = true ∧ valid (Version s2) = true)) as Hnext.
    { intros seen' Hseen' Hloop.
      destruct (IH (done ++ [(n, s)]) seen' e) as [(n0 & s0 & ? & ? & ?)|Hc]; try done.
      - by rewrite <- Hassoc.
      - intros n' s'. rewrite <- Hassoc. apply Hmap.
      - left. exists n0, s0. split_and!; try done. by right.
      - by right. }
    destruct (stable (Version s)) eqn:Hst.
    + destruct (seen !! major (Version s)) as [prev|] eqn:Hprev.
      * intros [= <-]. right.
        destruct (Hseen _ _ Hprev) as (sp & Hin & Hsp & Hvp & Hmaj).
        assert (ModSetMap v !! prev = Some sp) as Hlp
            by (apply Hmap, elem_of_app; by left).
        rewrite Hlp. simpl. exists prev, sp, n, s. split; [done|].
        split_and!; try done. unfold conflict. split_and!; try done.
        -- intros ->. rewrite fmap_app in Hnd.
           apply NoDup_app in Hnd as (_ & Hdis & _).
           apply (Hdis n).
           ++ apply (list_elem_of_fmap_2 fst _ (n, sp)) in Hin. done.
           ++ simpl. by left.
        -- apply Hmap, elem_of_app. right. by left.
      * apply Hnext.
        intros maj n' Hl. destruct (decide (major (Version s) = maj)) as [<-|Hne].
        -- rewrite lookup_insert_eq in Hl. injection Hl as <-.
           exists s. split_and!; try done. apply elem_of_app. right. by left.
        -- rewrite lookup_insert_ne in Hl by done.
           destruct (Hseen _ _ Hl) as (s' & ? & ? & ? & ?).
           exists s'. split_and!; try done. apply elem_of_app. by left.
    + apply Hnext.
      intros maj n' Hl. destruct (Hseen _ _ Hl) as (s' & ? & ? & ? & ?).
      exists s'. split_and!; try done. apply elem_of_app. by left.
Qed.

(** X2. Every error of [verifyVersions] is true of the configuration,
    whatever the order of the loop: it names a set whose version is not
    valid, or two distinct sets at valid, stable versions with the same
    major version, each with the version the configuration gives it.
    Nothing is printed before an error. *)
Theorem verifyVersions_error_sound v visit e :
  ranges visit (ModSetMap v) →
  (verifyVersions stable valid major v visit).2 = Some e →
  (verifyVersions stable valid major v visit).1 = [] ∧
  ((∃ n s, e = ErrInvalidVersion n (Version s) ∧ ModSetMap v !! n = Some s ∧
           valid (Version s) = false) ∨
   (∃ n1 s1 n2 s2,
      e = ErrSameMajor (major (Version s2)) n1 (Version s1) n2 (Version s2) ∧
      conflict stable major (ModSetMap v) n1 s1 n2 s2 ∧
      valid (Version s1) = true ∧ valid (Version s2) = true)).
Proof.
  intros Hr. unfold verifyVersions.
  destruct (versionsLoop stable valid major v visit ∅) as [e'|] eqn:E; simpl; [|done].
  intros [= ->]. split; [done|].
  destruct (versionsLoop_error v visit [] ∅ e) as [(n & s & -> & Hin & Hbad)|Hc];
    try done.
  - simpl. by apply (ranges_NoDup_keys _ _ Hr).
  - intros n s Hin. by apply (ranges_elem _ _ _ _ Hr).
  - left. exists n, s. split_and!; try done. by apply (ranges_elem _ _ _ _ Hr).
  - by right.
Qed.

End VersionErrors.

Section DependencyReads.

Variable stable : string → bool.
Variable parse : bytes → string + list Require.

(** X3. [verifyDependencies] reads the manifests of the modules at stable
    versions only: two working trees that agree on those manifests give
    the same warnings and the same result, whatever the other manifests
    hold. *)
Theorem verifyDependencies_reads_stable_only v fs fs' visit :
  (∀ modPath modInfo,
     (modPath, modInfo) ∈ visit → stable (InfoVersion modInfo) = true →
     manifestOf v fs modPath = manifestOf v fs' modPath) →
  verifyDependencies stable parse v fs visit
  = verifyDependencies stable parse v fs' visit.
Proof.
  intros Hsame. unfold verifyDependencies.
  assert (dependenciesLoop stable parse v fs visit
          = dependenciesLoop stable parse v fs' visit) as ->; [|done].
  induction visit as [|[m i] rest IH]; simpl; [done|].
  rewrite IH by (intros m' i' Hin; apply Hsame; by right).
  destruct (stable (InfoVersion i)) eqn:S; [|done].
  fold (manifestOf v fs m). fold (manifestOf v fs' m).
  rewrite (Hsame m i) by (done || by left). done.
Qed.

(** What the check prints for one module: the warnings for the
    requirements of its manifest when it is at a stable version and the
    manifest is parsed, nothing otherwise. *)
Definition warningsOf (v : ModuleVersioningInfo) (fs : gmap string (list ascii))
           (entry : ModulePath * ModuleInfo) : list message :=
  if stable (InfoVersion entry.2) then
    match parse (manifestOf v fs entry.1) with
    | inr requireDeps => warnUnstable stable (ModInfoMap v) entry.1 requireDeps
    | inl _ => []
    end
  else [].

Lemma dependenciesLoop_warnings v fs visit :
  (dependenciesLoop stable parse v fs visit).2 = None →
  (dependenciesLoop stable parse v fs visit).1 = visit ≫= warningsOf v fs.
Proof.
  induction visit as [|[m i] rest IH]; simpl; [done|].
  unfold warningsOf at 1. simpl.
  destruct (stable (InfoVersion i)) eqn:S; [|done].
  fold (manifestOf v fs m).
  destruct (parse (manifestOf v fs m)) as [err|deps]; simpl; [done|].
  destruct (dependenciesLoop stable parse v fs rest) as [more e]. simpl in *.
  intros He. by rewrite IH.
Qed.

(** X4. The order in which [verifyDependencies] ranges over the modules
    decides neither whether it fails nor, when it does not fail, which
    warnings it prints: two orders of the same modules print the same
    lines, each as often, in a different order at most. *)
Theorem verifyDependencies_any_order v fs visit1 visit2 :
  visit1 ≡ₚ visit2 →
  (is_Some (verifyDependencies stable parse v fs visit1).2 ↔
   is_Some (verifyDependencies stable parse v fs visit2).2) ∧
  ((verifyDependencies stable parse v fs visit1).2 = None →
   (verifyDependencies stable parse v fs visit1).1
   ≡ₚ (verifyDependencies stable parse v fs visit2).1).
Proof.
  intros Hp.
  assert (is_Some (dependenciesLoop stable parse v fs visit1).2 ↔
          is_Some (dependenciesLoop stable parse v fs visit2).2) as Hfail.
  { rewrite !dependenciesLoop_fails.
    split; intros (m & i & err & Hin & ?); exists m, i, err; split; try done.
    - by rewrite <- Hp.
    - by rewrite Hp. }
  split.
  - by rewrite !verifyDependencies_result.
  - rewrite verifyDependencies_result. intros H1.
    assert ((dependenciesLoop stable parse v fs visit2).2 = None) as H2.
    { destruct (dependenciesLoop stable parse v fs visit2).2 eqn:E; [|done].
      rewrite H1 in Hfail. destruct (proj2 Hfail ltac:(eauto)) as [? ?]. done. }
    pose proof (dependenciesLoop_warnings v fs visit1 H1) as W1.
    pose proof (dependenciesLoop_warnings v fs visit2 H2) as W2.
    unfold verifyDependencies.
    destruct (dependenciesLoop stable parse v fs visit1) as [w1 e1].
    destruct (dependenciesLoop stable parse v fs visit2) as [w2 e2].
    simpl in *. subst. simpl. by rewrite Hp.
Qed.

End DependencyReads.

(** ** [verify]: the verdict *)

Lemma verifyAllModulesInSet_None v visitPaths visitInfos :
  ranges visitPaths (ModPathMap v) →
  ranges visitInfos (ModInfoMap v) →
  (verifyAllModulesInSet v visitPaths visitInfos).2 = None ↔
  dom (ModInfoMap v) = dom (ModPathMap v).
Proof.
  intros Hp Hi. unfold verifyAllModulesInSet.
  destruct (allOnDiskInSet v visitPaths) as [e|] eqn:E1; simpl.
  - split; [done|]. intros Hdom.
    apply allOnDiskInSet_Some in E1 as (m & f & _ & Hin & Hnone).
    apply (ranges_elem _ _ _ _ Hp) in Hin.
    assert (m ∈ dom (ModPathMap v)) as Hm by (apply elem_of_dom; eauto).
    rewrite <- Hdom in Hm. apply elem_of_dom in Hm as [i Hm]. congruence.
  - destruct (allInSetOnDisk v visitInfos) as [e|] eqn:E2; simpl.
    + split; [done|]. intros Hdom.
      apply allInSetOnDisk_Some in E2 as (m & i & _ & Hin & Hnone).
      apply (ranges_elem _ _ _ _ Hi) in Hin.
      assert (m ∈ dom (ModInfoMap v)) as Hm by (apply elem_of_dom; eauto).
      rewrite Hdom in Hm. apply elem_of_dom in Hm as [f Hm]. congruence.
    + split; [|done]. intros _.
      apply set_eq. intros m. rewrite !elem_of_dom. split.
      * intros [i Hm]. apply (ranges_elem _ _ _ _ Hi) in Hm.
        by apply (proj1 (allInSetOnDisk_None _ _) E2 m i).
      * intros [f Hm]. apply (ranges_elem _ _ _ _ Hp) in Hm.
        by apply (proj1 (allOnDiskInSet_None _ _) E1 m f).
Qed.

Section Verdict.

Variable stable valid : string → bool.
Variable major : string → string.
Variable parse : bytes → string + list Require.

(** The sets and the modules found on disk are the same modules. *)
Definition complete (v : ModuleVersioningInfo) : Prop :=
  dom (ModInfoMap v) = dom (ModPathMap v).

(** All set versions are valid, and no two sets at stable versions have
    the same major version. *)
Definition consistent (v : ModuleVersioningInfo) : Prop :=
  (∀ n s, ModSetMap v !! n = Some s → valid (Version s) = true) ∧
  ¬ ∃ n1 s1 n2 s2, conflict stable major (ModSetMap v) n1 s1 n2 s2.

(** The manifest of every module at a stable version is parsed. *)
Definition parsable (v : ModuleVersioningInfo) (fs : gmap string (list ascii)) : Prop :=
  ∀ modPath modInfo,
    ModInfoMap v !! modPath = Some modInfo →
    stable (InfoVersion modInfo) = true →
    ∃ requireDeps, parse (manifestOf v fs modPath) = inr requireDeps.

Lemma verifyVersions_None v visit :
  ranges visit (ModSetMap v) →
  (verifyVersions stable valid major v visit).2 = None ↔ consistent v.
Proof.
  intros Hr. unfold verifyVersions, consistent.
  destruct (versionsLoop stable valid major v visit ∅) as [e|] eqn:E; simpl.
  - split; [done|]. intros [Hval Hfree]. exfalso. apply Hfree.
    destruct (versionsLoop_Some stable valid major v visit [] ∅ e)
      as (n1 & s1 & n2 & s2 & _ & Hc); try done; eauto 6.
    + simpl. by apply (ranges_NoDup_keys _ _ Hr).
    + intros n s Hin. by apply (ranges_elem _ _ _ _ Hr).
    + intros n s Hin. apply (Hval n). by apply (ranges_elem _ _ _ _ Hr).
  - split; [|done]. intros _. split.
    + intros n s Hl. destruct (valid (Version s)) eqn:Hv; [done|].
      apply (ranges_elem _ _ _ _ Hr) in Hl.
      destruct (versionsLoop_invalid stable valid major v visit ∅ n s Hl Hv)
        as [e He]. congruence.
    + intros (n1 & s1 & n2 & s2 & Hne & Hl1 & Hl2 & Hs1 & Hs2 & Hmaj).
      apply (ranges_elem _ _ _ _ Hr) in Hl1, Hl2.
      apply list_elem_of_split in Hl2 as (before & after & Hsplit).
      rewrite Hsplit in Hl1.
      apply elem_of_app in Hl1 as [Hb|Ha].
      * exact (versionsLoop_None stable valid major v visit [] ∅
                 ltac:(intros ? ? H; inversion H)
                 E before n2 s2 after n1 s1 Hsplit Hb Hs1 Hs2 Hmaj).
      * apply elem_of_cons in Ha as [[= ? ?]|Ha]; [done|].
        apply list_elem_of_split in Ha as (mid & after' & ->).
        refine (versionsLoop_None stable valid major v visit [] ∅
                  ltac:(intros ? ? H; inversion H)
                  E (before ++ (n2, s2) :: mid) n1 s1 after' n2 s2
                  _ _ Hs2 Hs1 (eq_sym Hmaj)).
        -- rewrite Hsplit, <- app_assoc. done.
        -- simpl. apply elem_of_app. right. by left.
Qed.

Lemma verifyDependencies_None v fs visit :
  ranges visit (ModInfoMap v) →
  (verifyDependencies stable parse v fs visit).2 = None ↔ parsable v fs.
Proof.
  intros Hr. rewrite verifyDependencies_result. unfold parsable.
  pose proof (dependenciesLoop_fails stable parse v fs visit) as Hfail.
  destruct (dependenciesLoop stable parse v fs visit).2 as [e|] eqn:E.
  - split; [done|]. intros Hall. exfalso.
    destruct (proj1 Hfail ltac:(eauto)) as (m & i & err & Hin & Hs & Hp).
    apply (ranges_elem _ _ _ _ Hr) in Hin.
    destruct (Hall m i Hin Hs) as [deps Hd]. congruence.
  - split; [|done]. intros _ m i Hl Hs.
    destruct (parse (manifestOf v fs m)) as [err|deps] eqn:P; [|eauto].
    apply (ranges_elem _ _ _ _ Hr) in Hl.
    destruct (proj2 Hfail) as [? ?]; [|done]. eauto 8.
Qed.

(** The orders of the loops of a run are orders of the maps of [v]. *)
Definition ranging (v : ModuleVersioningInfo) (o : visits) : Prop :=
  ranges (visitPaths o) (ModPathMap v) ∧ ranges (visitInfos o) (ModInfoMap v) ∧
  ranges (visitSets o) (ModSetMap v) ∧ ranges (visitDeps o) (ModInfoMap v).

(** X5. The verdict of [verify] does not depend on the orders of its
    loops.  It ends normally exactly when the sets and the modules on
    disk are the same modules, the set versions are valid without two
    stable sets of one major version, and the manifests of the stable
    modules are parsed; it ends at the first, the second or the third
    check exactly when the first, the second or the third of these is the
    first that does not hold. *)
Theorem verifyCmd_Run_verdict v fs o :
  ranging v o →
  let run := verifyCmd_Run stable valid major parse (Some v) fs o in
  (run.2 = Exit0 ↔ complete v ∧ consistent v ∧ parsable v fs) ∧
  ((∃ e, run.2 = Fatal "verifyAllModulesInSet" e) ↔ ¬ complete v) ∧
  ((∃ e, run.2 = Fatal "verifyVersions" e) ↔ complete v ∧ ¬ consistent v) ∧
  ((∃ e, run.2 = Fatal "verifyDependencies" e) ↔
   complete v ∧ consistent v ∧ ¬ parsable v fs).
Proof.
  intros (Hp & Hi & Hs & Hd) run. subst run. unfold verifyCmd_Run.
  pose proof (verifyAllModulesInSet_None v _ _ Hp Hi) as H1.
  pose proof (verifyVersions_None v _ Hs) as H2.
  pose proof (verifyDependencies_None v fs _ Hd) as H3.
  fold (complete v) in H1.
  destruct (verifyAllModulesInSet v (visitPaths o) (visitInfos o)) as [o1 [e1|]];
    simpl in *.
  { assert (¬ complete v) as Hn by (intros Hc; by apply H1 in Hc).
    split_and!; split; try done; try tauto; try (by intros [? ?]); eauto. }
  assert (complete v) as Hc by (by apply H1).
  destruct (verifyVersions stable valid major v (visitSets o)) as [o2 [e2|]];
    simpl in *.
  { assert (¬ consistent v) as Hn by (intros Hk; by apply H2 in Hk).
    split_and!; split; try done; try tauto; try (by intros [? ?]); eauto. }
  assert (consistent v) as Hk by (by apply H2).
  destruct (verifyDependencies stable parse v fs (visitDeps o)) as [o3 [e3|]];
    simpl in *.
  { assert (¬ parsable v fs) as Hn by (intros Hq; by apply H3 in Hq).
    split_and!; split; try done; try tauto; try (by intros [? ?]); eauto. }
  assert (parsable v fs) as Hq by (by apply H3).
  split_and!; split; try done; try tauto; try (by intros [? ?]).
Qed.

End Verdict.

(** ** [filePathToRegex]: the pattern of a path *)

(** X6. The pattern [filePathToRegex] makes of a module path compiles,
    and it matches a text at its head exactly when the text starts with
    the path itself, byte for byte: the slashes and the periods of the path
    are taken literally. *)
Theorem filePathToRegex_literal p :
  module_path p = true →
  ∃ re, Regexp.Compile (filePathToRegex p) = Some re ∧
        ∀ s n, Regexp.match_len re s = Some n ↔
               bytes_of p `prefix_of` s ∧ n = length (bytes_of p).
Proof.
  intros Hp. exists (lits (bytes_of p)). split.
  - unfold Regexp.Compile.
    rewrite <- (app_nil_r (bytes_of (filePathToRegex p))), parse_path by done.
    simpl. by rewrite app_nil_r, rev_involutive.
  - intros s n. rewrite <- (app_nil_r (lits (bytes_of p))). split.
    + intros H. apply match_len_lits_inv in H as (s' & m & -> & Hm & ->).
      rewrite match_len_nil in Hm. injection Hm as <-.
      split; [by exists s'|lia].
    + intros [[s' ->] ->]. rewrite match_len_lits, match_len_nil. simpl.
      f_equal. lia.
Qed.

(** ** [updateAllGoModFiles]: all the manifests *)

(** Whether the patterns compile does not depend on the content. *)
Lemma replaceVersions_content version paths : ∀ s s',
  match replaceVersions version paths s, replaceVersions version paths s' with
  | inl e, inl e' => e = e'
  | inr _, inr _ => True
  | _, _ => False
  end.
Proof.
  induction paths as [|path rest IH]; intros s s'; simpl; [done|].
  destruct (Regexp.Compile _) as [r|]; [apply IH|done].
Qed.

Lemma updateGoModVersions_Done p modFilePath (fs fs' : gmap string (list ascii)) :
  updateGoModVersions p modFilePath fs = Done fs' ↔
  ∃ content content',
    fs !! modFilePath = Some content ∧
    replaceVersions (newVersion p) (modPaths p) content = inr content' ∧
    fs' = <[modFilePath := content']> fs.
Proof.
  unfold updateGoModVersions. split.
  - destruct (fs !! modFilePath) as [c|]; [|done].
    destruct (replaceVersions _ _ c) as [e|c'] eqn:R; [done|].
    intros [= <-]. eauto.
  - intros (c & c' & -> & -> & ->). done.
Qed.

(** A file that is not one of the manifests stays as it is. *)
Lemma updateAllGoModFiles_other p visit : ∀ (fs : gmap string (list ascii)) file,
  file ∉ visit.*2 → (updateAllGoModFiles p visit fs).1 !! file = fs !! file.
Proof.
  induction visit as [|[m f] rest IH]; intros fs file Hfile; simpl; [done|].
  apply not_elem_of_cons in Hfile as [Hne Hrest].
  destruct (updateGoModVersions p f fs) as [fs'|e|] eqn:U; simpl; [|done..].
  apply updateGoModVersions_Done in U as (c & c' & Hc & _ & ->).
  rewrite IH by done. by rewrite lookup_insert_ne.
Qed.

(** X7. [updateAllGoModFiles] creates and removes no file, and leaves
    every file that is not one of the manifests it ranges over as it is;
    this holds however the call ends. *)
Theorem updateAllGoModFiles_frame p visit : ∀ fs : gmap string (list ascii),
  dom (updateAllGoModFiles p visit fs).1 = dom fs ∧
  ∀ file, file ∉ visit.*2 →
          (updateAllGoModFiles p visit fs).1 !! file = fs !! file.
Proof.
  induction visit as [|[m f] rest IH]; intros fs; simpl; [done|].
  destruct (updateGoModVersions p f fs) as [fs'|e|] eqn:U; simpl; [|done..].
  apply updateGoModVersions_Done in U as (c & c' & Hc & _ & ->).
  destruct (IH (<[f := c']> fs)) as [Hdom Hframe]. split.
  - rewrite Hdom, dom_insert_L.
    assert (f ∈ dom fs) by (apply elem_of_dom; eauto). set_solver.
  - intros file Hfile. apply not_elem_of_cons in Hfile as [Hne Hrest].
    rewrite Hframe by done. by rewrite lookup_insert_ne.
Qed.

Lemma updateAllGoModFiles_compiled p visit : ∀ (fs : gmap string (list ascii)) s s' e,
  replaceVersions (newVersion p) (modPaths p) s = inr s' →
  (updateAllGoModFiles p visit fs).2 ≠ Failed e.
Proof.
  induction visit as [|[m f] rest IH]; intros fs s s' e Hs; simpl; [done|].
  unfold updateGoModVersions.
  destruct (fs !! f) as [c|]; [|done].
  pose proof (replaceVersions_content (newVersion p) (modPaths p) s c) as Hc.
  rewrite Hs in Hc.
  destruct (replaceVersions (newVersion p) (modPaths p) c) as [e'|c']; [done|].
  by apply (IH _ s s').
Qed.

(** X8. When [updateAllGoModFiles] returns an error, no file has been
    written: the error comes from the first manifest of the loop, which
    could be read, and it is the error of a pattern that does not
    compile. *)
Theorem updateAllGoModFiles_failed p visit (fs : gmap string (list ascii)) e :
  (updateAllGoModFiles p visit fs).2 = Failed e →
  (updateAllGoModFiles p visit fs).1 = fs ∧
  ∃ modPath modFilePath rest content expr,
    visit = (modPath, modFilePath) :: rest ∧
    fs !! modFilePath = Some content ∧
    e = ErrUpdateFile modFilePath (ErrCompile expr).
Proof.
  destruct visit as [|[m f] rest]; simpl; [done|].
  destruct (updateGoModVersions p f fs) as [fs'|e'|] eqn:U; simpl; [| |done].
  - intros H. exfalso.
    apply updateGoModVersions_Done in U as (c & c' & _ & Hc & _).
    by apply (updateAllGoModFiles_compiled p rest fs' c c' e) in Hc.
  - intros [= <-]. split; [done|].
    unfold updateGoModVersions in U.
    destruct (fs !! f) as [c|] eqn:Hf; [|done].
    destruct (replaceVersions (newVersion p) (modPaths p) c) as [e0|c'] eqn:R; [|done].
    injection U as <-.
    assert (∃ expr, e0 = ErrCompile expr) as [expr ->].
    { clear Hf. revert c R. generalize (modPaths p). intros paths.
      induction paths as [|path paths IHp]; intros c; simpl; [done|].
      destruct (Regexp.Compile _) as [r|]; [apply IHp|].
      intros [= <-]. eauto. }
    exists m, f, rest, c, expr. done.
Qed.

Lemma updateGoModVersions_commute p f g (fs fs1 fs2 : gmap string (list ascii)) :
  updateGoModVersions p f fs = Done fs1 →
  updateGoModVersions p g fs1 = Done fs2 →
  ∃ fs1', updateGoModVersions p g fs = Done fs1' ∧
          updateGoModVersions p f fs1' = Done fs2.
Proof.
  intros H1 H2. destruct (decide (f = g)) as [->|Hne]; [eauto|].
  apply updateGoModVersions_Done in H1 as (cf & cf' & Hf & Rf & ->).
  apply updateGoModVersions_Done in H2 as (cg & cg' & Hg & Rg & ->).
  rewrite lookup_insert_ne in Hg by done.
  exists (<[g := cg']> fs). split.
  - apply updateGoModVersions_Done. eauto.
  - apply updateGoModVersions_Done. exists cf, cf'.
    rewrite lookup_insert_ne by done. split_and!; try done.
    by apply insert_insert_ne.
Qed.

(** X9. A run of [updateAllGoModFiles] that ends without error writes
    the same files whatever the order in which it ranges over the
    manifests. *)
Theorem updateAllGoModFiles_any_order p visit1 visit2 (fs : gmap string (list ascii)) :
  template_free (newVersion p) = true →
  visit1 ≡ₚ visit2 →
  (updateAllGoModFiles p visit1 fs).2 = Done () →
  updateAllGoModFiles p visit2 fs = updateAllGoModFiles p visit1 fs.
Proof.
  intros _ Hp. revert fs.
  induction Hp as [|[m f] l l' Hp IH|[m f] [m' g] l|l l' l'' Hp1 IH1 Hp2 IH2];
    intros fs; simpl.
  - done.
  - destruct (updateGoModVersions p f fs) as [fs'|e|]; simpl; [apply IH|done..].
  - destruct (updateGoModVersions p g fs) as [fs1|e|] eqn:U1; simpl; [|done..].
    destruct (updateGoModVersions p f fs1) as [fs2|e|] eqn:U2; simpl; [|done..].
    intros _.
    destruct (updateGoModVersions_commute p g f fs fs1 fs2 U1 U2)
      as (fs1' & -> & ->). done.
  - intros H. rewrite IH2; [by apply IH1|]. by rewrite IH1.
Qed.

(** X10. For module paths, [updateAllGoModFiles] ends without error
    exactly when every manifest it ranges over can be read, and in a
    [panic] exactly when one of them cannot; it never returns an error.
    When it ends without error over manifests that are all different,
    every manifest holds what [updateGoModVersions] alone writes into
    it. *)
Theorem updateAllGoModFiles_outcome p visit : ∀ fs : gmap string (list ascii),
  forallb module_path (modPaths p) = true →
  template_free (newVersion p) = true →
  ((updateAllGoModFiles p visit fs).2 = Done () ↔
   ∀ file, file ∈ visit.*2 → is_Some (fs !! file)) ∧
  ((updateAllGoModFiles p visit fs).2 = Panicked ↔
   ∃ file, file ∈ visit.*2 ∧ fs !! file = None) ∧
  ((updateAllGoModFiles p visit fs).2 = Done () → NoDup visit.*2 →
   ∀ file, file ∈ visit.*2 →
     ∃ content,
       updateGoModVersions p file fs = Done (<[file := content]> fs) ∧
       (updateAllGoModFiles p visit fs).1 !! file = Some content).
Proof.
  intros fs Hpaths _. revert fs.
  induction visit as [|[m f] rest IH]; intros fs; simpl.
  - split_and!.
    + split; [|done]. intros _ ? H. inversion H.
    + split; [done|]. intros (? & H & _). inversion H.
    + intros _ _ ? H. inversion H.
  - assert (updateGoModVersions p f fs
            = match fs !! f with
              | Some c => Done (<[f := rewrites (newVersion p) (modPaths p) c]> fs)
              | None => Panicked
              end) as ->.
    { unfold updateGoModVersions. destruct (fs !! f); [|done].
      by rewrite replaceVersions_rewrites. }
    destruct (fs !! f) as [c|] eqn:Hf; simpl.
    + set (c' := rewrites (newVersion p) (modPaths p) c).
      destruct (IH (<[f := c']> fs)) as (Hdone & Hpanic & Hcontent).
      assert (∀ file, is_Some ((<[f := c']> fs) !! file) ↔ is_Some (fs !! file))
        as Hsame.
      { intros file. destruct (decide (f = file)) as [<-|Hne].
        - rewrite lookup_insert_eq, Hf. split; eauto.
        - by rewrite lookup_insert_ne. }
      split_and!.
      * rewrite Hdone. split.
        -- intros H file [->|Hin]%elem_of_cons; [eauto|]. by apply Hsame, H.
        -- intros H file Hin. apply Hsame, H. by right.
      * rewrite Hpanic. split.
        -- intros (file & Hin & Hnone). exists file. split; [by right|].
           destruct (fs !! file) eqn:E; [|done].
           assert (is_Some (<[f := c']> fs !! file)) as [? ?] by (apply Hsame; eauto).
           congruence.
        -- intros (file & [->|Hin]%elem_of_cons & Hnone); [congruence|].
           exists file. split; [done|].
           destruct (<[f := c']> fs !! file) eqn:E; [|done].
           assert (is_Some (fs !! file)) as [? ?] by (apply Hsame; eauto).
           congruence.
      * intros Hd Hnd file Hin. apply NoDup_cons in Hnd as [Hnotin Hnd].
        apply elem_of_cons in Hin as [->|Hin].
        -- exists c'. unfold updateGoModVersions.
           rewrite Hf, replaceVersions_rewrites by done. split; [done|].
           rewrite updateAllGoModFiles_other by done.
           by rewrite lookup_insert_eq.
        -- destruct (Hcontent Hd Hnd file Hin) as (content & Hu & Hl).
           exists content. split; [|done].
           assert (f ≠ file) as Hne by (by intros ->).
           apply updateGoModVersions_Done in Hu as (c0 & c0' & Hc0 & R0 & Heq).
           rewrite lookup_insert_ne in Hc0 by done.
           apply updateGoModVersions_Done. exists c0, c0'. split_and!; try done.
           apply (f_equal (λ fs : gmap string (list ascii), fs !! file)) in Heq.
           rewrite !lookup_insert_eq in Heq. congruence.
    + split_and!; try done.
      * split; [done|]. intros H. destruct (H f) as [? ?]; [by left|congruence].
      * split; [|done]. intros _. exists f. split; [by left|done].
Qed.

(** ** [updateGoModVersions]: what is written *)

(** X11. After [updateGoModVersions], wherever in the file a bumped path
    is followed by a space and a version of the form of the pattern ([v],
    digits, a dot, digits, a dot, a digit), that version is the new
    version; this holds when the new version is itself of that form and
    no bumped path starts with a tail of it. *)
Theorem updateGoModVersions_leaves_no_other_version p modFilePath
        (fs : gmap string (list ascii)) content :
  forallb module_path (modPaths p) = true →
  version_literal (newVersion p) = true →
  forallb (clear_of (newVersion p)) (modPaths p) = true →
  fs !! modFilePath = Some content →
  ∃ content',
    updateGoModVersions p modFilePath fs = Done (<[modFilePath := content']> fs) ∧
    ∀ path pre d1 d2 c post,
      path ∈ modPaths p →
      all_digits d1 → all_digits d2 → is_digit c = true →
      content' = pre ++ bytes_of path ++ " "%char :: version_shape d1 d2 c ++ post →
      version_shape d1 d2 c = bytes_of (newVersion p).
Proof.
  intros Hpaths Hversion Hclear Hfile.
  exists (rewrites (newVersion p) (modPaths p) content). split.
  - unfold updateGoModVersions. by rewrite Hfile, replaceVersions_rewrites.
  - intros path pre d1 d2 c post Hin H1 H2 Hc Hcontent.
    assert (Forall (again_ok (newVersion p)) (modPaths p)) as Hok.
    { apply Forall_forall. intros q Hq. split.
      - rewrite forallb_forall in Hpaths. apply Hpaths. by apply list_elem_of_In.
      - rewrite forallb_forall in Hclear. apply Hclear. by apply list_elem_of_In. }
    pose proof (rewrites_saturated (newVersion p) Hversion (modPaths p) [] content
                  (Forall_nil_2 _) Hok ltac:(intros ? H; inversion H) path Hin)
      as Hsat.
    specialize (Hsat pre
                  (bytes_of path ++ " "%char :: version_shape d1 d2 c ++ post)
                  (length (bytes_of path ++ " "%char :: version_shape d1 d2 c))
                  Hcontent).
    assert (bytes_of path ++ " "%char :: version_shape d1 d2 c ++ post
            = (bytes_of path ++ " "%char :: version_shape d1 d2 c) ++ post) as Hassoc
        by (by rewrite <- app_assoc).
    rewrite Hassoc, take_app_length in Hsat.
    rewrite <- Hassoc in Hsat.
    unfold requirement in Hsat.
    assert (bytes_of path ++ " "%char :: version_shape d1 d2 c
            = bytes_of path ++ " "%char :: bytes_of (newVersion p)) as Heq.
    { apply Hsat. apply pattern_match. exists d1, d2, c, post. done. }
    apply app_inv_head in Heq. by injection Heq.
Qed.

(** A text in front of which nothing matches is passed over. *)
Lemma ReplaceAll_first re repl pre : ∀ rest,
  1 ≤ ones re →
  (∀ a b, pre = a ++ b → b ≠ [] → match_len re (b ++ rest) = None) →
  ReplaceAll re (pre ++ rest) repl = pre ++ ReplaceAll re rest repl.
Proof.
  intros rest Hone. induction pre as [|c pre IH]; intros Hno; [done|].
  simpl. rewrite ReplaceAll_miss by (by apply (Hno [] (c :: pre))).
  f_equal. apply IH. intros a b -> Hb. by apply (Hno (c :: a) b).
Qed.

(** A text that goes on as [P] and a space after a head [b] either has no
    such head, or the head itself starts with [P] and a space. *)
Lemma app_space_head (P b X Y : bytes) :
  " "%char ∉ P →
  b ++ P ++ " "%char :: X = P ++ " "%char :: Y →
  b = [] ∨ ∃ b', b = P ++ " "%char :: b'.
Proof.
  intros HP H. apply app_eq_inv in H as [(k & Hb & Hk)|(k & Hb & Hk)].
  - destruct k as [|c k].
    + rewrite app_nil_r in Hb. subst b. simpl in Hk.
      destruct P as [|c P]; [by left|].
      injection Hk as <- _. exfalso. apply HP. by left.
    + injection Hk as <- _. right. by exists k.
  - left. assert (" "%char ∉ k) as Hk'.
    { intros Hin. apply HP. rewrite Hb. apply elem_of_app. by right. }
    destruct (app_space_inj P k X Y HP Hk' Hk) as [HPk _].
    apply (f_equal length) in Hb. rewrite length_app, <- HPk in Hb.
    destruct b; [done|]. simpl in Hb. lia.
Qed.

(** One pass over a text that holds a requirement on [P] at a version of
    the pattern's form, with [P] and a space nowhere before it and no
    match after it: the version is replaced. *)
Lemma ReplaceAll_requirement P repl pre old post :
  " "%char ∉ P →
  match_len version_re old = Some (length old) →
  (∀ a b, pre ≠ a ++ P ++ " "%char :: b) →
  (∀ a b, post = a ++ b → match_len (pattern_of P) b = None) →
  ReplaceAll (pattern_of P) (pre ++ (P ++ " "%char :: old) ++ post) repl
  = pre ++ repl ++ post.
Proof.
  intros HP Hold Hpre Hpost.
  rewrite ReplaceAll_first; [|apply ones_pattern|].
  - f_equal.
    rewrite (ReplaceAll_hit _ _ (ones_pattern P) _ (length (P ++ " "%char :: old))).
    + rewrite drop_app_length. f_equal.
      apply ReplaceAll_no_match; [apply ones_pattern|done].
    + exact (match_len_requirement old Hold P post).
  - intros a b -> Hb.
    destruct (match_len (pattern_of P) (b ++ (P ++ " "%char :: old) ++ post))
      as [n|] eqn:E; [|done].
    exfalso. apply pattern_match in E as (d1 & d2 & c & post' & E & _).
    rewrite <- !app_assoc in E. simpl in E.
    apply app_space_head in E as [->|[b' ->]]; [done| |done].
    apply (Hpre a b'). done.
Qed.

Lemma rewrites_app version before after s :
  rewrites version (before ++ after) s
  = rewrites version after (rewrites version before s).
Proof. unfold rewrites. by rewrite foldl_app. Qed.

(** The passes over a text that holds one requirement on a bumped path,
    when no other bumped path occurs before a version in the text as it is
    and as it is written. *)
Lemma rewrites_bump version paths path pre old post :
  forallb module_path paths = true → NoDup paths → path ∈ paths →
  version_literal old = true →
  (∀ a b, pre ≠ a ++ bytes_of path ++ " "%char :: b) →
  ¬ occurs path post →
  (∀ q, q ∈ paths → q ≠ path →
        ¬ occurs q (pre ++ bytes_of (path +:+ " " +:+ old) ++ post) ∧
        ¬ occurs q (pre ++ bytes_of (path +:+ " " +:+ version) ++ post)) →
  rewrites version paths (pre ++ bytes_of (path +:+ " " +:+ old) ++ post)
  = pre ++ bytes_of (path +:+ " " +:+ version) ++ post.
Proof.
  intros Hpaths Hnd Hin Hold Hpre Hpost Hothers.
  apply list_elem_of_split in Hin as (before & after & ->).
  apply NoDup_app in Hnd as (_ & Hdis & Hnd).
  apply NoDup_cons in Hnd as [Hnotin _].
  rewrite rewrites_app. change (path :: after) with ([path] ++ after).
  rewrite rewrites_app.
  rewrite (rewrites_no_occurrence version before).
  2:{ intros q Hq. apply Hothers; [apply elem_of_app; by left|].
      intros ->. apply (Hdis path Hq). by left. }
  assert (rewrites version [path] (pre ++ bytes_of (path +:+ " " +:+ old) ++ post)
          = pre ++ bytes_of (path +:+ " " +:+ version) ++ post) as ->.
  { unfold rewrites. simpl. rewrite (bytes_of_requirement old).
    unfold requirement. apply ReplaceAll_requirement.
    - apply module_path_solid. rewrite forallb_forall in Hpaths.
      apply Hpaths, list_elem_of_In, elem_of_app. right. by left.
    - by apply bool_decide_eq_true_1 in Hold.
    - done.
    - intros a b -> .
      destruct (match_len (pattern_of (bytes_of path)) b) as [n|] eqn:E; [|done].
      exfalso. apply Hpost.
      apply pattern_match in E as (d1 & d2 & c & post' & -> & ? & ? & ? & _).
      exists a, d1, d2, c, post'. done. }
  apply rewrites_no_occurrence.
  intros q Hq. apply Hothers; [apply elem_of_app; right; by right|].
  by intros ->.
Qed.

(** X12. [updateGoModVersions] bumps a requirement: a line that holds a
    bumped path, a space and a version of the form of the pattern, with
    the path followed by a space nowhere before, no match after, and no
    other bumped path before a version in the line as it is or as it is
    written, becomes the same line with the new version in the place of
    the old one; what follows the version (a comment, or further digits
    of the patch number) stays where it is. *)
Theorem updateGoModVersions_bumps p modFilePath (fs : gmap string (list ascii))
        ls i path pre old post :
  forallb module_path (modPaths p) = true →
  template_free (newVersion p) = true →
  NoDup (modPaths p) → path ∈ modPaths p →
  fs !! modFilePath = Some (join_lines ls) →
  ls !! i = Some (pre ++ bytes_of (path +:+ " " +:+ old) ++ post) →
  version_literal old = true →
  (∀ a b, pre ≠ a ++ bytes_of path ++ " "%char :: b) →
  ¬ occurs path post →
  (∀ q, q ∈ modPaths p → q ≠ path →
        ¬ occurs q (pre ++ bytes_of (path +:+ " " +:+ old) ++ post) ∧
        ¬ occurs q (pre ++ bytes_of (path +:+ " " +:+ newVersion p) ++ post)) →
  ∃ ls',
    updateGoModVersions p modFilePath fs
    = Done (<[modFilePath := join_lines ls']> fs) ∧
    length ls' = length ls ∧
    ls' !! i = Some (pre ++ bytes_of (path +:+ " " +:+ newVersion p) ++ post).
Proof.
  intros Hpaths _ Hnd Hin Hfile Hline Hold Hpre Hpost Hothers.
  exists (rewrites (newVersion p) (modPaths p) <$> ls). split_and!.
  - unfold updateGoModVersions. rewrite Hfile.
    rewrite replaceVersions_rewrites by done. by rewrite rewrites_lines.
  - by rewrite length_fmap.
  - rewrite list_lookup_fmap, Hline. simpl. f_equal. by apply rewrites_bump.
Qed.

(** X13. Of a patch number of more than one digit, [updateGoModVersions]
    replaces the first digit only: with one bumped path, a requirement on
    it at [vX.Y.Z] followed by further digits becomes the requirement at
    the new version followed by these digits. *)
Theorem updateGoModVersions_long_patch p modFilePath (fs : gmap string (list ascii))
        path old more :
  modPaths p = [path] → module_path path = true →
  template_free (newVersion p) = true →
  version_literal old = true → all_digits more →
  fs !! modFilePath = Some (bytes_of (path +:+ " " +:+ old) ++ more) →
  updateGoModVersions p modFilePath fs
  = Done (<[modFilePath := bytes_of (path +:+ " " +:+ newVersion p) ++ more]> fs).
Proof.
  intros Hp Hpath _ Hold Hmore Hfile. unfold updateGoModVersions.
  rewrite Hfile, Hp, replaceVersions_rewrites by (simpl; by rewrite Hpath).
  pose proof (rewrites_bump (newVersion p) [path] path [] old more) as H.
  rewrite !app_nil_l in H. rewrite H; try done.
  - simpl. by rewrite Hpath.
  - apply NoDup_singleton.
  - by left.
  - intros a b Heq. apply (f_equal length) in Heq.
    rewrite !length_app in Heq. simpl in Heq. lia.
  - intros (pre & d1 & d2 & c & post & Heq & _).
    assert (" "%char ∈ more) as Hin.
    { rewrite Heq. apply elem_of_app. right. apply elem_of_app. right. by left. }
    unfold all_digits in Hmore. rewrite Forall_forall in Hmore.
    by apply (digit_not_space _ (Hmore _ Hin)).
  - intros q Hq Hne. by apply list_elem_of_singleton in Hq.
Qed.

(** ** [prerelease]: the whole run *)

(** The commands that read the repository, or act outside the model of
    it, leave the repository as it is. *)
Definition neutral (c : command) : bool :=
  match c with
  | GitTagList _ | GitDiffExitCode | MakeLint | MakeCi | GitCommit _
  | GitLogLast | GitRevParseVerify _ | GitMergeBaseHead _ => true
  | _ => false
  end.

Lemma exec_neutral c w : neutral c = true → (exec c w).2 = started c w.
Proof.
  intros Hc. unfold exec. destruct (faults w) as [|[] fl]; simpl; try done;
    destruct c; try done; simpl; repeat case_decide; try done;
      repeat case_match; done.
Qed.


(** The creation of a branch: a failure changes nothing, a success adds
    the branch, which did not exist, on a branch that does. *)
Lemma exec_GitCheckoutNew branch from w :
  (failed (exec (GitCheckoutNew branch from) w).1 = true →
   (exec (GitCheckoutNew branch from) w).2 = started (GitCheckoutNew branch from) w) ∧
  (failed (exec (GitCheckoutNew branch from) w).1 = false →
   branch ∉ branches w ∧ from ∈ branches w ∧
   (exec (GitCheckoutNew branch from) w).2
   = set_branches ({[branch]} ∪ branches w) (started (GitCheckoutNew branch from) w)).
Proof.
  unfold exec. destruct (faults w) as [|[] fl]; simpl; try done;
    repeat case_decide; simpl; done.
Qed.


Section PrereleaseRun.

Variable combine : list ModuleTagName → string → list string.




End PrereleaseRun.

(** The commands [prerelease] may run: never the creation or the deletion
    of a tag, and no [make] when [make] is to be skipped. *)
Definition allowed (skipMake : bool) (c : command) : bool :=
  match c with
  | GitTagCreate _ _ _ | GitTagDelete _ => false
  | MakeLint | MakeCi => negb skipMake
  | _ => true
  end.

(** Code that leaves the tags as they are and runs commands of [P]
    only. *)
Definition quiet (P : command → bool) {A : Type} (c : io A) : Prop :=
  ∀ w, tags (c w).2 = tags w ∧
       ∃ rest, history (c w).2 = history w ++ rest ∧
               Forall (λ c, P c = true) rest.

Lemma quiet_ret P {A : Type} (a : A) : quiet P (mret a).
Proof.
  intros w. io_unfold. simpl. split; [done|]. exists [].
  by rewrite app_nil_r.
Qed.

Lemma quiet_exec skipMake c : allowed skipMake c = true → quiet (allowed skipMake) (exec c).
Proof.
  intros Hc w. split.
  - apply exec_tags; intros; intros ->; done.
  - exists [c]. split; [apply exec_history|]. by apply Forall_singleton.
Qed.

Lemma quiet_bind P {A B : Type} (c : io A) (k : A → io B) :
  quiet P c → (∀ a, quiet P (k a)) → quiet P (c ≫= k).
Proof.
  intros Hc Hk w. io_unfold. destruct (Hc w) as (Ht1 & r1 & H1 & F1).
  destruct (c w) as [a w1]. simpl in *.
  destruct (Hk a w1) as (Ht2 & r2 & H2 & F2). split; [congruence|].
  exists (r1 ++ r2). split; [by rewrite H2, H1, <- app_assoc|].
  by apply Forall_app.
Qed.

Lemma quiet_check P step c k : quiet P c → quiet P k → quiet P (check step c k).
Proof.
  intros Hc Hk. unfold check. apply quiet_bind; [done|].
  intros [e|]; [apply quiet_ret|done].
Qed.

Section PrereleaseNever.

Variable combine : list ModuleTagName → string → list string.

Lemma quiet_tagsDoNotExist skipMake modFullTags :
  quiet (allowed skipMake) (tagsDoNotExist modFullTags).
Proof.
  induction modFullTags as [|t rest IH]; simpl; [apply quiet_ret|].
  apply quiet_bind; [by apply quiet_exec|]. intros r.
  destruct (failed r); [apply quiet_ret|].
  destruct (decide (output r = t)); [apply quiet_ret|done].
Qed.

Lemma quiet_commitChanges p skipMake :
  quiet (allowed skipMake) (commitChanges p skipMake).
Proof.
  unfold commitChanges.
  apply quiet_bind; [by apply quiet_exec|]. intros r.
  destruct (failed r); [apply quiet_ret|].
  apply quiet_bind.
  { destruct skipMake; [apply quiet_ret|by apply quiet_exec]. }
  intros ci. destruct (failed ci); [apply quiet_ret|].
  apply quiet_bind; [by apply quiet_exec|]. intros r'.
  destruct (failed r'); [apply quiet_ret|].
  apply quiet_bind; [by apply quiet_exec|]. intros _. apply quiet_ret.
Qed.

(** X15. However it ends, [prerelease] neither creates nor deletes a
    tag, and with [--skip-make] it runs neither [make lint] nor [make
    ci]. *)
Theorem prereleaseCmd_Run_never loaded visit from skipMake w :
  let run := prereleaseCmd_Run combine loaded visit from skipMake w in
  tags run.2 = tags w ∧
  ∃ rest, history run.2 = history w ++ rest ∧
          Forall (λ c, allowed skipMake c = true) rest.
Proof.
  intros run. subst run. revert w.
  change (quiet (allowed skipMake)
                (prereleaseCmd_Run combine loaded visit from skipMake)).
  destruct loaded as [p|]; [|apply quiet_ret].
  rewrite prereleaseCmd_Run_unfold.
  apply quiet_check; [apply quiet_tagsDoNotExist|].
  apply quiet_check.
  { unfold verifyWorkingTreeClean. apply quiet_bind; [by apply quiet_exec|].
    intros r. destruct (failed r); apply quiet_ret. }
  unfold afterChecks.
  apply quiet_check.
  { unfold createPrereleaseBranch. apply quiet_bind; [by apply quiet_exec|].
    intros r. destruct (failed r); apply quiet_ret. }
  apply quiet_check; [apply quiet_ret|].
  intros w.
  destruct (updateAllGoModFiles p visit (worktree w)) as [fs [[]|e|]]; simpl;
    try (split; [done|]; exists []; by rewrite app_nil_r).
  assert (quiet (allowed skipMake)
                (check "runMakeLint"
                       (if skipMake then mret None else runMakeLint p)
                       (check "commitChanges" (commitChanges p skipMake)
                              (mret Exit0)))) as Hq.
  { apply quiet_check.
    - destruct skipMake; [apply quiet_ret|].
      unfold runMakeLint. apply quiet_bind; [by apply quiet_exec|].
      intros r. destruct (failed r); apply quiet_ret.
    - apply quiet_check; [apply quiet_commitChanges|apply quiet_ret]. }
  apply (Hq (set_worktree fs w)).
Qed.

(** The steps of [prerelease] that come before the manifests are
    rewritten. *)
Definition precondition_steps : list string :=
  ["verifyGitTagsDoNotAlreadyExist"; "verifyWorkingTreeClean";
   "createPrereleaseBranch"].

(** X16. A run of [prerelease] that ends at one of its first three steps
    (the tags, the working tree, the branch) has changed nothing: the
    working tree, the index, the branches and the tags are the ones from
    before. *)
Theorem prereleaseCmd_Run_early_failure p visit from skipMake w step e :
  let run := prereleaseCmd_Run combine (Some p) visit from skipMake w in
  run.1 = Fatal step e → step ∈ precondition_steps →
  worktree run.2 = worktree w ∧ index run.2 = index w ∧
  branches run.2 = branches w ∧ tags run.2 = tags w.
Proof.
  intros run. subst run.
  rewrite prereleaseCmd_Run_unfold.
  unfold verifyGitTagsDoNotAlreadyExist, verifyWorkingTreeClean.
  destruct (tagsDoNotExist_spec (combine (modTagNames p) (newVersion p)) w)
    as (Ht & Hb & Hwt & Hi & _).
  io_unfold.
  destruct (tagsDoNotExist _ w) as [[e1|] w1]; simpl in *; [done|].
  pose proof (exec_neutral GitDiffExitCode w1 eq_refl) as Hw2.
  destruct (exec GitDiffExitCode w1) as [r2 w2]; simpl in *. subst w2.
  destruct (failed r2); simpl; [done|].
  unfold afterChecks, createPrereleaseBranch, updateVersionGo. io_unfold.
  set (w2 := started GitDiffExitCode w1).
  destruct (exec_GitCheckoutNew (branchNameOf p) from w2) as [Hfail _].
  destruct (exec (GitCheckoutNew (branchNameOf p) from) w2) as [r3 w3]; simpl in *.
  destruct (failed r3); simpl.
  - rewrite Hfail by done. done.
  - intros Hrun Hstep. exfalso.
    assert (step ≠ "updateAllGoModFiles" ∧ step ≠ "runMakeLint" ∧
            step ≠ "commitChanges") as (N1 & N2 & N3).
    { unfold precondition_steps in Hstep.
      repeat (apply elem_of_cons in Hstep as [->|Hstep]; [done|]).
      inversion Hstep. }
    destruct (updateAllGoModFiles p visit (worktree w3)) as [fs [[]|e'|]];
      simpl in Hrun; [|congruence|done].
    revert Hrun.
    apply (avoids_check step "runMakeLint"); [done|].
    apply avoids_check; [done|]. done.
Qed.

End PrereleaseNever.

(** ** [tag]: the commit, the tags *)

(** Resolving a name: nothing changes, and a success prints what the
    name resolves to. *)
Lemma exec_GitRevParseVerify hash w :
  (exec (GitRevParseVerify hash) w).2 = started (GitRevParseVerify hash) w ∧
  (failed (exec (GitRevParseVerify hash) w).1 = false →
   revs w !! hash = Some (output (exec (GitRevParseVerify hash) w).1)) ∧
  (faults w = [] → ∀ sha, revs w !! hash = Some sha →
   (exec (GitRevParseVerify hash) w).1 = success sha).
Proof.
  unfold exec. destruct (faults w) as [|[] fl]; simpl; try done;
    destruct (revs w !! hash); simpl; split_and!; try done; congruence.
Qed.

Lemma exec_GitMergeBaseHead sha w :
  (exec (GitMergeBaseHead sha) w).2 = started (GitMergeBaseHead sha) w ∧
  (failed (exec (GitMergeBaseHead sha) w).1 = false →
   merge_bases w !! sha = Some (output (exec (GitMergeBaseHead sha) w).1)) ∧
  (faults w = [] → ∀ base, merge_bases w !! sha = Some base →
   (exec (GitMergeBaseHead sha) w).1 = success base).
Proof.
  unfold exec. destruct (faults w) as [|[] fl]; simpl; try done;
    destruct (merge_bases w !! sha); simpl; split_and!; try done; congruence.
Qed.

(** What [getFullCommitHash] answers, and what it leaves as it is. *)
Lemma getFullCommitHash_spec hash w :
  (∀ sha, (getFullCommitHash hash w).1 = inr sha →
     revs w !! hash = Some sha ∧ merge_bases w !! sha = Some sha ∧
     history (getFullCommitHash hash w).2
     = history w ++ [GitRevParseVerify hash; GitMergeBaseHead sha]) ∧
  (∀ sha base, revs w !! hash = Some sha → merge_bases w !! sha = Some base →
     base ≠ sha → ∃ e, (getFullCommitHash hash w).1 = inl e) ∧
  (faults w = [] →
   ∀ sha, revs w !! hash = Some sha → merge_bases w !! sha = Some sha →
          (getFullCommitHash hash w).1 = inr sha) ∧
  tags (getFullCommitHash hash w).2 = tags w ∧
  branches (getFullCommitHash hash w).2 = branches w ∧
  worktree (getFullCommitHash hash w).2 = worktree w.
Proof.
  unfold getFullCommitHash. io_unfold.
  destruct (exec_GitRevParseVerify hash w) as (Hw1 & Hrev & Hrev').
  destruct (exec (GitRevParseVerify hash) w) as [r1 w1]. simpl in *. subst w1.
  destruct (failed r1) eqn:F1; simpl.
  { split_and!; try done; [eauto|].
    intros Hf sha Hsha. rewrite (Hrev' Hf sha Hsha) in F1. done. }
  specialize (Hrev eq_refl).
  set (w1 := started (GitRevParseVerify hash) w).
  destruct (exec_GitMergeBaseHead (output r1) w1) as (Hw2 & Hmb & Hmb').
  destruct (exec (GitMergeBaseHead (output r1)) w1) as [r2 w2]. simpl in *.
  subst w2. destruct (failed r2) eqn:F2; simpl.
  { split_and!; try done; [eauto|].
    intros Hf sha Hsha Hbase. rewrite Hrev in Hsha. injection Hsha as <-.
    rewrite (Hmb' ltac:(by rewrite Hf) _ Hbase) in F2. done. }
  specialize (Hmb eq_refl).
  destruct (decide (output r2 ≠ output r1)) as [Hne|Heq]; simpl.
  { split_and!; try done; [eauto|].
    intros Hf sha Hsha Hbase. rewrite Hrev in Hsha. injection Hsha as <-.
    congruence. }
  assert (output r2 = output r1) as Heq'
      by (destruct (decide (output r2 = output r1)); [done|by destruct Heq]).
  split_and!; try done.
  - intros sha [= <-]. split_and!; try done; [congruence|].
    by rewrite <- app_assoc.
  - intros sha base Hsha Hbase Hne. congruence.
  - intros _ sha Hsha _. congruence.
Qed.

(** X17. [newTagger] hands back a tagger only for a commit that [git
    rev-parse] resolves and that is its own merge base with [HEAD]; the
    tagger holds the resolved name of the commit, not the name that was
    given.  A commit whose merge base with [HEAD] is another commit is
    refused.  Without failures from outside, a commit that resolves and
    is its own merge base is accepted.  In every case the tags, the
    branches and the working tree stay as they are. *)
Theorem newTagger_resolves p hash w :
  (∀ t, (newTagger p hash w).1 = inr t →
     base t = p ∧
     revs w !! hash = Some (commitHash t) ∧
     merge_bases w !! commitHash t = Some (commitHash t) ∧
     history (newTagger p hash w).2
     = history w ++ [GitRevParseVerify hash; GitMergeBaseHead (commitHash t)]) ∧
  (∀ sha base, revs w !! hash = Some sha → merge_bases w !! sha = Some base →
     base ≠ sha → ∃ e, (newTagger p hash w).1 = inl (ErrFullCommitHash hash e)) ∧
  (faults w = [] →
   ∀ sha, revs w !! hash = Some sha → merge_bases w !! sha = Some sha →
          (newTagger p hash w).1 = inr {| base := p; commitHash := sha |}) ∧
  tags (newTagger p hash w).2 = tags w ∧
  branches (newTagger p hash w).2 = branches w ∧
  worktree (newTagger p hash w).2 = worktree w.
Proof.
  unfold newTagger. io_unfold.
  destruct (getFullCommitHash_spec hash w) as (Hok & Hne & Hclean & Ht & Hb & Hwt).
  destruct (getFullCommitHash hash w) as [[e|sha] w1]; simpl in *.
  - split_and!; try done.
    + intros sha base Hsha Hbase Hdiff. eauto.
    + intros Hf sha Hsha Hbase. by specialize (Hclean Hf sha Hsha Hbase).
  - destruct (Hok sha eq_refl) as (Hrev & Hmb & Hh).
    split_and!; try done.
    + by intros t [= <-].
    + intros sha' base Hsha Hbase Hdiff.
      by destruct (Hne sha' base Hsha Hbase Hdiff).
    + intros Hf sha' Hsha Hbase. specialize (Hclean Hf sha' Hsha Hbase).
      congruence.
Qed.

(** Without failures from outside, a command does what it does on the
    repository, and leaves no failure behind. *)
Lemma exec_clean c w :
  faults w = [] → exec c w = effect c (started c w) ∧ faults (exec c w).2 = [].
Proof.
  intros Hf. unfold exec. rewrite Hf. split; [done|].
  destruct c; simpl; repeat case_decide; simpl; rewrite ?Hf; try done;
    repeat case_match; simpl; rewrite ?Hf; done.
Qed.

(** A deletion succeeds only on a tag that is there. *)
Lemma exec_GitTagDelete_ok tag w :
  failed (exec (GitTagDelete tag) w).1 = false → tag ∈ tags w.
Proof.
  unfold exec. destruct (faults w) as [|[] fl]; simpl; try done;
    destruct (decide (tag ∈ tags w)); done.
Qed.

Lemma deleteTags_None modFullTags : ∀ w,
  (deleteTags modFullTags w).1 = None →
  NoDup modFullTags ∧ ∀ tag, tag ∈ modFullTags → tag ∈ tags w.
Proof.
  induction modFullTags as [|t rest IH]; intros w; simpl.
  - intros _. split; [apply NoDup_nil_2|]. intros ? H. inversion H.
  - io_unfold.
    pose proof (exec_GitTagDelete_ok t w) as Hin.
    destruct (exec_GitTagDelete t w) as (_ & _ & _ & Hok).
    destruct (exec (GitTagDelete t) w) as [r w1]. simpl in *.
    destruct (failed r); simpl; [done|].
    intros Hn. destruct (IH w1 Hn) as [Hnd Hall].
    rewrite Hok in Hall by done. split.
    + apply NoDup_cons. split; [|done]. intros Hrest.
      specialize (Hall t Hrest). set_solver.
    + intros tag [->|Htag]%elem_of_cons; [by apply Hin|].
      specialize (Hall tag Htag). set_solver.
Qed.

Lemma deleteTags_clean modFullTags : ∀ w,
  faults w = [] → NoDup modFullTags →
  (∀ tag, tag ∈ modFullTags → tag ∈ tags w) →
  (deleteTags modFullTags w).1 = None ∧
  faults (deleteTags modFullTags w).2 = [] ∧
  tags (deleteTags modFullTags w).2 = tags w ∖ list_to_set modFullTags.
Proof.
  induction modFullTags as [|t rest IH]; intros w Hf Hnd Hall; simpl.
  - io_unfold. simpl. split_and!; try done. set_solver.
  - io_unfold. destruct (exec_clean (GitTagDelete t) w Hf) as [He Hf1].
    destruct (exec (GitTagDelete t) w) as [r w1]. simpl in *.
    rewrite decide_True in He by (apply Hall; by left).
    injection He as -> ->. simpl.
    apply NoDup_cons in Hnd as [Hnotin Hnd].
    set (w1 := set_tags _ _) in *.
    destruct (IH w1) as (Hr & Hf2 & Ht); try done.
    + intros x Hx. simpl. apply elem_of_difference. split.
      * apply Hall. by right.
      * intros ->%elem_of_singleton. done.
    + split_and!; try done. rewrite Ht. simpl. set_solver.
Qed.

Lemma NoDup_not_before {A : Type} (l : list A) n x :
  NoDup l → l !! n = Some x → x ∉ take n l.
Proof.
  intros Hnd Hn Hin. apply list_elem_of_lookup in Hin as [i Hi].
  pose proof (lookup_lt_Some _ _ _ Hi) as Hlt. rewrite length_take in Hlt.
  rewrite lookup_take_lt in Hi by lia.
  pose proof (NoDup_lookup _ _ _ _ Hnd Hi Hn). lia.
Qed.

Lemma tagEach_clean commit modFullTags : ∀ added w,
  faults w = [] → NoDup added → (∀ t, t ∈ added → t ∈ tags w) →
  ((tagEach commit modFullTags added w).1 = None ∧
   NoDup modFullTags ∧ (∀ t, t ∈ modFullTags → t ∉ tags w) ∧
   tags (tagEach commit modFullTags added w).2
   = tags w ∪ list_to_set modFullTags) ∨
  (∃ n tag out,
     modFullTags !! n = Some tag ∧
     (tagEach commit modFullTags added w).1 = Some (ErrTagFailed tag out) ∧
     (tag ∈ tags w ∨ tag ∈ take n modFullTags) ∧
     (∀ t, t ∈ take n modFullTags → t ∉ tags w) ∧
     tags (tagEach commit modFullTags added w).2
     = tags w ∖ list_to_set added).
Proof.
  induction modFullTags as [|t rest IH]; intros added w Hf Hnd Hall; simpl.
  - left. io_unfold. simpl. split_and!; try done.
    + apply NoDup_nil_2.
    + intros ? H. inversion H.
    + set_solver.
  - io_unfold.
    destruct (exec_clean (GitTagCreate t ("Version " +:+ t) commit) w Hf)
      as [He Hf1].
    destruct (exec (GitTagCreate t ("Version " +:+ t) commit) w) as [r w1].
    simpl in *. destruct (decide (t ∈ tags w)) as [Hin|Hnew].
    + injection He as -> ->. simpl. right.
      destruct (deleteTags_clean added (started (GitTagCreate t ("Version " +:+ t) commit) w))
        as (Hr & _ & Ht); try done.
      destruct (deleteTags added _) as [[e|] w2]; simpl in *; [done|].
      exists 0, t, "exists". rewrite take_0. split_and!; try done.
      * by left.
      * intros ? H. inversion H.
    + injection He as -> ->. simpl.
      set (w1 := set_tags _ _) in *.
      assert (t ∉ added) as Hnota by (intros H; by apply Hnew, Hall).
      destruct (IH (added ++ [t]) w1) as
          [(Hr & Hnd' & Hfresh & Ht)
          |(n & tag & out & Hn & Hr & Hwhere & Hfresh & Ht)]; try done.
      * apply NoDup_app. split_and!; [done| |apply NoDup_singleton].
        intros x ? Hx. apply list_elem_of_singleton in Hx as ->. done.
      * intros x [Hx|Hx]%elem_of_app; simpl.
        -- apply elem_of_union. right. by apply Hall.
        -- apply list_elem_of_singleton in Hx as ->. set_solver.
      * left. simpl in *. split_and!; try done.
        -- apply NoDup_cons. split; [|done]. intros Hrest.
           apply (Hfresh t Hrest). set_solver.
        -- intros x [->|Hx]%elem_of_cons; [done|].
           specialize (Hfresh x Hx). set_solver.
        -- rewrite Ht. set_solver.
      * right. simpl in *. exists (S n), tag, out. simpl.
        split_and!; try done.
        -- destruct Hwhere as [Hw|Hw]; [|right; by right].
           apply elem_of_union in Hw as [->%elem_of_singleton|Hw];
             [right; by left|by left].
        -- intros x [->|Hx]%elem_of_cons; [done|].
           specialize (Hfresh x Hx). set_solver.
        -- rewrite Ht, list_to_set_app_L. set_solver.
Qed.

Section TagRun.

Variable combine : list ModuleTagName → string → list string.

(** X18. Without failures from outside, [tagAllModules] creates all the
    tags or none: it succeeds exactly when the tags of the set are all
    different and none of them exists, and then they all exist; otherwise
    it returns the error of the creation that failed and the tags of the
    repository are the ones from before. *)
Theorem tagAllModules_atomic (t : tagger) (w : world) :
  faults w = [] →
  let modFullTags := combine (modTagNames (base t)) (newVersion (base t)) in
  let r := (tagAllModules combine t w).1 in
  let w' := (tagAllModules combine t w).2 in
  (r = None ↔ NoDup modFullTags ∧ ∀ tag, tag ∈ modFullTags → tag ∉ tags w) ∧
  (r = None → tags w' = tags w ∪ list_to_set modFullTags) ∧
  (r ≠ None → tags w' = tags w ∧ ∃ tag out, r = Some (ErrTagFailed tag out)).
Proof.
  intros Hf modFullTags r w'. subst r w'. unfold tagAllModules. fold modFullTags.
  destruct (tagEach_clean (commitHash t) modFullTags [] w Hf NoDup_nil_2
                          ltac:(intros ? H; inversion H))
    as [(Hr & Hnd & Hfresh & Ht)|(n & tag & out & Hn & Hr & Hwhere & Hfresh & Ht)].
  - rewrite Hr. split_and!; try done.
  - rewrite Hr. split_and!; try done.
    + split; [done|]. intros [Hnd Hall]. exfalso.
      destruct Hwhere as [Hw|Hw].
      * apply (Hall tag); [|done]. by eapply list_elem_of_lookup_2.
      * by apply (NoDup_not_before modFullTags n tag).
    + intros _. split; [|eauto]. rewrite Ht. set_solver.
Qed.

(** X19. [deleteModuleSetTags] succeeds only when the tags of the set
    are all different and all exist, and then exactly these tags are
    gone.  When it fails, at the [k]th tag, the tags before it have been
    deleted and the others are still there.  Without failures from
    outside, it succeeds whenever the tags are all different and all
    exist. *)
Theorem deleteModuleSetTags_spec (t : tagger) (w : world) :
  let modFullTags := combine (modTagNames (base t)) (newVersion (base t)) in
  let r := (deleteModuleSetTags combine t w).1 in
  let w' := (deleteModuleSetTags combine t w).2 in
  (r = None →
   NoDup modFullTags ∧ (∀ tag, tag ∈ modFullTags → tag ∈ tags w) ∧
   tags w' = tags w ∖ list_to_set modFullTags) ∧
  (∀ e, r = Some e →
     ∃ k tag out,
       e = ErrDeleteModuleTags (ErrDeleteTag tag out) ∧
       modFullTags !! k = Some tag ∧
       tags w' = tags w ∖ list_to_set (take k modFullTags) ∧
       history w' = history w ++ (GitTagDelete <$> take (S k) modFullTags)) ∧
  (faults w = [] → NoDup modFullTags →
   (∀ tag, tag ∈ modFullTags → tag ∈ tags w) → r = None).
Proof.
  intros modFullTags r w'. subst r w'. unfold deleteModuleSetTags.
  fold modFullTags. io_unfold.
  destruct (deleteTags_spec combine modFullTags w) as (_ & Hnone & Hsome).
  pose proof (deleteTags_None modFullTags w) as Hall.
  pose proof (deleteTags_clean modFullTags w) as Hclean.
  destruct (deleteTags modFullTags w) as [[e|] w1]; simpl in *.
  - split_and!; try done.
    + intros e' [= <-].
      destruct (Hsome e eq_refl) as (k & tag & out & -> & Hk & Hh & Ht).
      exists k, tag, out. done.
    + intros Hf Hnd Hin. by destruct (Hclean Hf Hnd Hin).
  - destruct (Hnone eq_refl) as [Ht _]. destruct (Hall eq_refl) as [Hnd Hin].
    split_and!; done.
Qed.

(** X20. A run of [tag] that ends normally has resolved the commit, has
    found it to be its own merge base with [HEAD], and has then created
    every tag of the set at the resolved commit, each with the message
    [Version <tag>], or, with [--delete-module-set-tags], deleted every
    tag of the set. *)
Theorem tagCmd_Run_success p hash deleting w :
  let modFullTags := combine (modTagNames p) (newVersion p) in
  let run := tagCmd_Run combine (Some p) hash deleting w in
  run.1 = Exit0 →
  ∃ sha,
    revs w !! hash = Some sha ∧ merge_bases w !! sha = Some sha ∧
    history run.2
    = history w ++ [GitRevParseVerify hash; GitMergeBaseHead sha]
      ++ (if deleting then GitTagDelete <$> modFullTags
          else creates sha modFullTags) ∧
    tags run.2
    = if deleting then tags w ∖ list_to_set modFullTags
      else tags w ∪ list_to_set modFullTags.
Proof.
  intros modFullTags run. subst run. unfold tagCmd_Run, newTagger.
  destruct (getFullCommitHash_spec hash w) as (Hok & _ & _ & Ht & _).
  io_unfold.
  destruct (getFullCommitHash hash w) as [[e|sha] w1]; simpl in *; [done|].
  destruct (Hok sha eq_refl) as (Hrev & Hmb & Hh).
  set (t := {| base := p; commitHash := sha |}).
  assert (base t = p) as Hbase by done.
  intros Hexit. exists sha. split; [done|]. split; [done|].
  destruct deleting.
  - unfold deleteModuleSetTags in Hexit |- *. rewrite Hbase in Hexit |- *.
    fold modFullTags in Hexit |- *.
    io_unfold.
    destruct (deleteTags_spec combine modFullTags w1) as (_ & Hnone & _).
    destruct (deleteTags modFullTags w1) as [[e|] w2]; simpl in *; [done|].
    destruct (Hnone eq_refl) as [Ht2 Hh2].
    rewrite Hh2, Ht2, Hh, Ht, <- app_assoc. done.
  - unfold tagAllModules in Hexit |- *. rewrite Hbase in Hexit |- *.
    fold modFullTags in Hexit |- *.
    destruct (tagEach_spec combine (commitHash t) modFullTags [] w1 w1)
      as (Hnone & _); [set_solver|by intros ? H; inversion H|apply NoDup_nil_2|].
    destruct (tagEach (commitHash t) modFullTags [] w1) as [[e|] w2];
      simpl in *; [done|].
    destruct (Hnone eq_refl) as [Ht2 Hh2].
    rewrite Hh2, Ht2, Hh, Ht, <- app_assoc. done.
Qed.

End TagRun.

(** A way to check that a path occurs nowhere before a version. *)
Lemma occurs_none q l :
  forallb (λ i, negb (bool_decide
                        (is_Some (match_len (pattern_of (bytes_of q)) (drop i l)))))
          (seq 0 (S (length l))) = true →
  ¬ occurs q l.
Proof.
  rewrite forallb_forall.
  intros H (pre & d1 & d2 & c & post & -> & H1 & H2 & Hc).
  specialize (H (length pre)). rewrite drop_app_length in H.
  rewrite bool_decide_eq_true_2 in H.
  - assert (In (length pre) (seq 0 (S (length (pre ++ bytes_of q ++ " "%char ::
                                                version_shape d1 d2 c ++ post)))))
      as Hin by (apply in_seq; rewrite length_app; lia).
    by specialize (H Hin).
  - eexists. apply pattern_match. exists d1, d2, c, post. done.
Qed.

(** * Worked inputs for the further properties *)

Lemma verifyAllModulesInSet_precedence_witness :
  ranges (visitPaths brokenVisits) (ModPathMap brokenInfo) ∧
  (∃ modPath modFilePath,
     ModPathMap brokenInfo !! modPath = Some modFilePath ∧
     ModInfoMap brokenInfo !! modPath = None) ∧
  ∃ modPath modFilePath,
    verifyAllModulesInSet brokenInfo (visitPaths brokenVisits)
                          (visitInfos brokenVisits)
    = ([], Some (ErrNotInAnySet modPath modFilePath)) ∧
    ModPathMap brokenInfo !! modPath = Some modFilePath ∧
    ModInfoMap brokenInfo !! modPath = None.
Proof.
  assert (ranges (visitPaths brokenVisits) (ModPathMap brokenInfo)) as H1
      by (unfold ranges; reflexivity).
  assert (∃ modPath modFilePath,
            ModPathMap brokenInfo !! modPath = Some modFilePath ∧
            ModInfoMap brokenInfo !! modPath = None) as H2.
  { exists "example.com/d", "d/go.mod". split; reflexivity. }
  split; [exact H1|]. split; [exact H2|].
  exact (verifyAllModulesInSet_precedence brokenInfo _ _ H1 H2).
Defined.

Lemma verifyVersions_error_sound_witness :
  ranges (visitSets brokenVisits) (ModSetMap brokenInfo) ∧
  (verifyVersions IsStableVersion Semver.IsValid Semver.Major
                  brokenInfo (visitSets brokenVisits)).2
  = Some (ErrInvalidVersion "stable" "latest") ∧
  (verifyVersions IsStableVersion Semver.IsValid Semver.Major
                  brokenInfo (visitSets brokenVisits)).1 = [].
Proof.
  assert (ranges (visitSets brokenVisits) (ModSetMap brokenInfo)) as H1
      by (unfold ranges; reflexivity).
  assert ((verifyVersions IsStableVersion Semver.IsValid Semver.Major
                          brokenInfo (visitSets brokenVisits)).2
          = Some (ErrInvalidVersion "stable" "latest")) as H2
      by (vm_compute; reflexivity).
  split; [exact H1|]. split; [exact H2|].
  exact (proj1 (verifyVersions_error_sound
                  IsStableVersion Semver.IsValid Semver.Major
                  brokenInfo _ _ H1 H2)).
Defined.

(** The modules [a] (stable) and [c] (not stable) of the scenario. *)
Definition sampleEntries : list (ModulePath * ModuleInfo) :=
  [("example.com/a", {| ModuleSetName := "stable"; InfoVersion := "v1.2.0" |});
   ("example.com/c", {| ModuleSetName := "experimental"; InfoVersion := "v0.5.0" |})].

(** The manifest of [c], which is not at a stable version, is not a
    manifest. *)
Definition garbledUnstable : gmap string (list ascii) :=
  <["c/go.mod" := bytes_of "not a manifest"]> sampleFiles.

Lemma verifyDependencies_reads_stable_only_witness :
  (∀ modPath modInfo,
     (modPath, modInfo) ∈ sampleEntries →
     IsStableVersion (InfoVersion modInfo) = true →
     manifestOf sampleInfo sampleFiles modPath
     = manifestOf sampleInfo garbledUnstable modPath) ∧
  verifyDependencies IsStableVersion Modfile.Parse sampleInfo sampleFiles sampleEntries
  = verifyDependencies IsStableVersion Modfile.Parse sampleInfo garbledUnstable
                       sampleEntries.
Proof.
  assert (∀ modPath modInfo,
            (modPath, modInfo) ∈ sampleEntries →
            IsStableVersion (InfoVersion modInfo) = true →
            manifestOf sampleInfo sampleFiles modPath
            = manifestOf sampleInfo garbledUnstable modPath) as H.
  { intros modPath modInfo Hin Hs. unfold sampleEntries in Hin.
    apply elem_of_cons in Hin as [[= -> ->]|Hin]; [reflexivity|].
    apply list_elem_of_singleton in Hin as [= -> ->].
    vm_compute in Hs. discriminate Hs. }
  split; [exact H|].
  exact (verifyDependencies_reads_stable_only
           IsStableVersion Modfile.Parse sampleInfo sampleFiles garbledUnstable
           sampleEntries H).
Defined.

(** The modules [b] and [a] of the scenario, in two orders. *)
Definition entriesBA : list (ModulePath * ModuleInfo) :=
  [("example.com/b", {| ModuleSetName := "stable"; InfoVersion := "v1.2.0" |});
   ("example.com/a", {| ModuleSetName := "stable"; InfoVersion := "v1.2.0" |})].

Definition entriesAB : list (ModulePath * ModuleInfo) :=
  [("example.com/a", {| ModuleSetName := "stable"; InfoVersion := "v1.2.0" |});
   ("example.com/b", {| ModuleSetName := "stable"; InfoVersion := "v1.2.0" |})].

Lemma verifyDependencies_any_order_witness :
  entriesBA ≡ₚ entriesAB ∧
  (is_Some (verifyDependencies IsStableVersion Modfile.Parse sampleInfo
                               sampleFiles entriesBA).2 ↔
   is_Some (verifyDependencies IsStableVersion Modfile.Parse sampleInfo
                               sampleFiles entriesAB).2).
Proof.
  assert (entriesBA ≡ₚ entriesAB) as H by apply perm_swap.
  split; [exact H|].
  exact (proj1 (verifyDependencies_any_order
                  IsStableVersion Modfile.Parse sampleInfo sampleFiles _ _ H)).
Defined.

Lemma verifyCmd_Run_verdict_witness :
  ranging sampleInfo sampleVisits ∧
  ((verifyCmd_Run IsStableVersion Semver.IsValid Semver.Major Modfile.Parse
                  (Some sampleInfo) sampleFiles sampleVisits).2 = Exit0 ↔
   complete sampleInfo ∧
   consistent IsStableVersion Semver.IsValid Semver.Major sampleInfo ∧
   parsable IsStableVersion Modfile.Parse sampleInfo sampleFiles).
Proof.
  assert (ranging sampleInfo sampleVisits) as H
      by (unfold ranging, ranges; split_and!; reflexivity).
  split; [exact H|].
  exact (proj1 (verifyCmd_Run_verdict
                  IsStableVersion Semver.IsValid Semver.Major Modfile.Parse
                  sampleInfo sampleFiles sampleVisits H)).
Defined.

Lemma filePathToRegex_literal_witness :
  module_path "example.com/a" = true ∧
  ∃ re, Regexp.Compile (filePathToRegex "example.com/a") = Some re ∧
        ∀ s n, Regexp.match_len re s = Some n ↔
               bytes_of "example.com/a" `prefix_of` s ∧
               n = length (bytes_of "example.com/a").
Proof.
  assert (module_path "example.com/a" = true) as H by reflexivity.
  split; [exact H|].
  exact (filePathToRegex_literal "example.com/a" H).
Defined.

(** A path that is not a pattern: its parenthesis is never closed. *)
Definition brokenPrerelease : prerelease := {|
  versioning := sampleInfo;
  modSetToUpdate := "stable";
  repoRoot := "/repo";
  newVersion := "v1.3.0";
  modPaths := ["example.com/a"; "example.com/(b"];
  modTagNames := ["a/"; "b/"];
|}.

Definition visitAB : list (ModulePath * ModuleFilePath) :=
  [("example.com/a", "a/go.mod"); ("example.com/b", "b/go.mod")].

Definition visitBA : list (ModulePath * ModuleFilePath) :=
  [("example.com/b", "b/go.mod"); ("example.com/a", "a/go.mod")].

Lemma updateAllGoModFiles_failed_witness :
  (updateAllGoModFiles brokenPrerelease visitAB sampleFiles).2
  = Failed (ErrUpdateFile "a/go.mod"
              (ErrCompile "example\.com\/(b v[0-9]*\.[0-9]*\.[0-9]")) ∧
  (updateAllGoModFiles brokenPrerelease visitAB sampleFiles).1 = sampleFiles.
Proof.
  assert ((updateAllGoModFiles brokenPrerelease visitAB sampleFiles).2
          = Failed (ErrUpdateFile "a/go.mod"
                      (ErrCompile "example\.com\/(b v[0-9]*\.[0-9]*\.[0-9]"))) as H
      by (vm_compute; reflexivity).
  split; [exact H|].
  exact (proj1 (updateAllGoModFiles_failed brokenPrerelease visitAB sampleFiles _ H)).
Defined.

Lemma updateAllGoModFiles_any_order_witness :
  template_free (newVersion samplePrerelease) = true ∧
  visitBA ≡ₚ visitAB ∧
  (updateAllGoModFiles samplePrerelease visitBA sampleFiles).2 = Done () ∧
  updateAllGoModFiles samplePrerelease visitAB sampleFiles
  = updateAllGoModFiles samplePrerelease visitBA sampleFiles.
Proof.
  assert (template_free (newVersion samplePrerelease) = true) as H0
      by reflexivity.
  assert (visitBA ≡ₚ visitAB) as H1 by apply perm_swap.
  assert ((updateAllGoModFiles samplePrerelease visitBA sampleFiles).2 = Done ())
    as H2 by (vm_compute; reflexivity).
  split; [exact H0|]. split; [exact H1|]. split; [exact H2|].
  exact (updateAllGoModFiles_any_order samplePrerelease visitBA visitAB sampleFiles
                                       H0 H1 H2).
Defined.

Lemma updateAllGoModFiles_outcome_witness :
  forallb module_path (modPaths samplePrerelease) = true ∧
  template_free (newVersion samplePrerelease) = true ∧
  ((updateAllGoModFiles samplePrerelease visitAB sampleFiles).2 = Done () ↔
   ∀ file, file ∈ visitAB.*2 → is_Some (sampleFiles !! file)).
Proof.
  assert (forallb module_path (modPaths samplePrerelease) = true) as H
      by reflexivity.
  assert (template_free (newVersion samplePrerelease) = true) as H0
      by reflexivity.
  split; [exact H|]. split; [exact H0|].
  exact (proj1 (updateAllGoModFiles_outcome samplePrerelease visitAB sampleFiles
                                            H H0)).
Defined.

Lemma updateGoModVersions_leaves_no_other_version_witness :
  forallb module_path (modPaths samplePrerelease) = true ∧
  version_literal (newVersion samplePrerelease) = true ∧
  forallb (clear_of (newVersion samplePrerelease)) (modPaths samplePrerelease)
  = true ∧
  sampleFiles !! "b/go.mod" = Some (join_lines manifestB) ∧
  ∃ content',
    updateGoModVersions samplePrerelease "b/go.mod" sampleFiles
    = Done (<["b/go.mod" := content']> sampleFiles) ∧
    ∀ path pre d1 d2 c post,
      path ∈ modPaths samplePrerelease →
      all_digits d1 → all_digits d2 → is_digit c = true →
      content' = pre ++ bytes_of path ++ " "%char :: version_shape d1 d2 c ++ post →
      version_shape d1 d2 c = bytes_of (newVersion samplePrerelease).
Proof.
  assert (forallb module_path (modPaths samplePrerelease) = true) as H1
      by reflexivity.
  assert (version_literal (newVersion samplePrerelease) = true) as H2
      by reflexivity.
  assert (forallb (clear_of (newVersion samplePrerelease))
                  (modPaths samplePrerelease) = true) as H3
      by reflexivity.
  assert (sampleFiles !! "b/go.mod" = Some (join_lines manifestB)) as H4
      by reflexivity.
  split; [exact H1|]. split; [exact H2|]. split; [exact H3|]. split; [exact H4|].
  exact (updateGoModVersions_leaves_no_other_version
           samplePrerelease "b/go.mod" sampleFiles (join_lines manifestB)
           H1 H2 H3 H4).
Defined.

Lemma updateGoModVersions_bumps_witness :
  ∃ ls',
    updateGoModVersions samplePrerelease "b/go.mod" sampleFiles
    = Done (<["b/go.mod" := join_lines ls']> sampleFiles) ∧
    length ls' = length manifestB ∧
    ls' !! 1 = Some (bytes_of "require " ++
                     bytes_of ("example.com/a" +:+ " " +:+ "v1.3.0") ++ []).
Proof.
  apply (updateGoModVersions_bumps samplePrerelease "b/go.mod" sampleFiles
           manifestB 1 "example.com/a" (bytes_of "require ") "v1.2.0" []).
  - reflexivity.
  - reflexivity.
  - refine (bool_decide_unpack _ _). vm_compute. exact I.
  - by left.
  - reflexivity.
  - reflexivity.
  - reflexivity.
  - intros a b H. apply (f_equal length) in H.
    rewrite !length_app in H. simpl in H. lia.
  - apply occurs_none. vm_compute. reflexivity.
  - intros q Hq Hne. simpl in Hq.
    apply elem_of_cons in Hq as [->|Hq]; [done|].
    apply list_elem_of_singleton in Hq as ->.
    split; apply occurs_none; vm_compute; reflexivity.
Defined.

(** One module is bumped. *)
Definition soloPrerelease : prerelease := {|
  versioning := sampleInfo;
  modSetToUpdate := "stable";
  repoRoot := "/repo";
  newVersion := "v1.3.0";
  modPaths := ["example.com/a"];
  modTagNames := ["a/"];
|}.

Lemma updateGoModVersions_long_patch_witness :
  updateGoModVersions soloPrerelease "go.mod"
                      {["go.mod" := bytes_of "example.com/a v1.2.10"]}
  = Done (<["go.mod" := bytes_of "example.com/a v1.3.00"]>
            {["go.mod" := bytes_of "example.com/a v1.2.10"]}).
Proof.
  assert (modPaths soloPrerelease = ["example.com/a"]) as H1 by reflexivity.
  assert (module_path "example.com/a" = true) as H2 by reflexivity.
  assert (template_free (newVersion soloPrerelease) = true) as H2' by reflexivity.
  assert (version_literal "v1.2.1" = true) as H3 by reflexivity.
  assert (all_digits (bytes_of "0")) as H4 by (repeat constructor).
  assert (({["go.mod" := bytes_of "example.com/a v1.2.10"]}
           : gmap string (list ascii)) !! "go.mod"
          = Some (bytes_of ("example.com/a" +:+ " " +:+ "v1.2.1") ++ bytes_of "0"))
    as H5 by reflexivity.
  exact (updateGoModVersions_long_patch
           soloPrerelease "go.mod" _ "example.com/a" "v1.2.1" (bytes_of "0")
           H1 H2 H2' H3 H4 H5).
Defined.


(** The working tree has a change that is not staged. *)
Definition dirtyWorld : world := {|
  tags := ∅;
  branches := {["main"]};
  index := sampleFiles;
  worktree := <["a/go.mod" := bytes_of "module example.com/a"]> sampleFiles;
  revs := {["HEAD" := "4f0c1d2"]};
  merge_bases := {["4f0c1d2" := "4f0c1d2"]};
  faults := [];
  history := [];
|}.

Lemma prereleaseCmd_Run_early_failure_witness :
  let run := prereleaseCmd_Run CombineModuleTagNamesAndVersion
               (Some samplePrerelease) visitAB "main" false dirtyWorld in
  run.1 = Fatal "verifyWorkingTreeClean" (ErrTreeNotClean "diff") ∧
  worktree run.2 = worktree dirtyWorld ∧ index run.2 = index dirtyWorld ∧
  branches run.2 = branches dirtyWorld ∧ tags run.2 = tags dirtyWorld.
Proof.
  intros run.
  assert (run.1 = Fatal "verifyWorkingTreeClean" (ErrTreeNotClean "diff")) as H
      by (vm_compute; reflexivity).
  assert ("verifyWorkingTreeClean" ∈ precondition_steps) as Hstep
      by (right; left).
  split; [exact H|].
  exact (prereleaseCmd_Run_early_failure CombineModuleTagNamesAndVersion
           samplePrerelease visitAB "main" false dirtyWorld _ _ H Hstep).
Defined.

Lemma tagAllModules_atomic_witness :
  faults sampleWorld = [] ∧
  ((tagAllModules CombineModuleTagNamesAndVersion sampleTagger sampleWorld).1 = None →
   tags (tagAllModules CombineModuleTagNamesAndVersion sampleTagger sampleWorld).2
   = tags sampleWorld
     ∪ list_to_set (CombineModuleTagNamesAndVersion
                      (modTagNames (base sampleTagger))
                      (newVersion (base sampleTagger)))).
Proof.
  assert (faults sampleWorld = []) as H by reflexivity.
  split; [exact H|].
  exact (proj1 (proj2 (tagAllModules_atomic CombineModuleTagNamesAndVersion
                         sampleTagger sampleWorld H))).
Defined.

Lemma tagCmd_Run_success_witness :
  let run := tagCmd_Run CombineModuleTagNamesAndVersion
               (Some samplePrerelease) "HEAD" false sampleWorld in
  run.1 = Exit0 ∧
  ∃ sha,
    revs sampleWorld !! "HEAD" = Some sha ∧
    merge_bases sampleWorld !! sha = Some sha ∧
    history run.2
    = history sampleWorld ++ [GitRevParseVerify "HEAD"; GitMergeBaseHead sha]
      ++ creates sha (CombineModuleTagNamesAndVersion
                        (modTagNames samplePrerelease)
                        (newVersion samplePrerelease)) ∧
    tags run.2
    = tags sampleWorld
      ∪ list_to_set (CombineModuleTagNamesAndVersion
                       (modTagNames samplePrerelease)
                       (newVersion samplePrerelease)).
Proof.
  intros run.
  assert (run.1 = Exit0) as H by (vm_compute; reflexivity).
  split; [exact H|].
  exact (tagCmd_Run_success CombineModuleTagNamesAndVersion
           samplePrerelease "HEAD" false sampleWorld H).
Defined.
